(** * The waveform engine of soggetto-cavato ([sound.py])

    A shallow embedding of the [SoundWave] class (sum, concatenation,
    circular and linear convolution, band filter, export) and of the two
    synthesis functions [generate_note] and [audio_sequence]; further down,
    of the cipher and the program of [soggetto.py] and of the callback of
    [app.py].

    Modelling decisions, fixed once for the whole development:
    - a NumPy array is a dtype-tagged list ([Int16], [Float64],
      [Complex128]); [int16] arithmetic wraps around, mixed operands are
      promoted the way NumPy promotes them;
    - the values of [float64] and [complex128] samples are real and complex
      numbers (rounding of sample values is not modelled), and the discrete
      Fourier transform of [scipy.fftpack] is the mathematical one;
    - the index arithmetic of [clean] is done where the source does it, in
      IEEE binary64, with the reference implementation of [SpecFloat];
    - [SoundWave] instances live in a store and are named by references, so
      that attribute assignment ([self.samples = ...]) and the creation of new
      instances are visible;
    - a raised Python exception is a value of [exn].

    What the idealisation leaves out: a [float64] sample is a real number, so
    buffers holding [inf] or [nan] are not represented, and every statement
    about sample values that passes through a transform holds in exact
    arithmetic; the program returns those values up to binary64 rounding.
    Texts are strings of one-byte characters (code points below 256).  The
    file system accepts every path: the directory exists and can be written
    to. *)

From Stdlib Require Import String Bool ZArith List Reals Lra Lia.
From Stdlib Require Import DecimalString.
From Stdlib Require Import Floats.SpecFloat.
Import ListNotations.

Local Open Scope string_scope.
Local Open Scope list_scope.
Local Open Scope Z_scope.

(** ** Python exceptions and results *)

Inductive exn : Type :=
| ValueError (msg : string)
| OverflowError (msg : string)
| ZeroDivisionError (msg : string)
| KeyError (key : string)
| IndexError (msg : string)
| StructError (msg : string)
| ReferenceError.

Inductive result (A : Type) : Type :=
| Ok (a : A)
| Raise (e : exn).

Arguments Ok {A} a.
Arguments Raise {A} e.

Definition rbind {A B : Type} (x : result A) (k : A -> result B) : result B :=
  match x with
  | Ok a => k a
  | Raise e => Raise e
  end.

(** ** binary64 index arithmetic *)

Definition float64 : Type := spec_float.

Definition prec : Z := 53.
Definition emax : Z := 1024.

(** [float(z)] for a Python int (round to nearest even). *)
Definition py_float (z : Z) : float64 := binary_normalize prec emax z 0 false.

Definition fmul : float64 -> float64 -> float64 := SFmul prec emax.
Definition fdiv : float64 -> float64 -> float64 := SFdiv prec emax.

(** [a / b] on Python ints: true division, a float.  For operands below
    [2^53] (array lengths and sample rates are) it is the IEEE quotient of
    the two converted operands. *)
Definition int_truediv (a b : Z) : result float64 :=
  if b =? 0 then Raise (ZeroDivisionError "division by zero")
  else Ok (fdiv (py_float a) (py_float b)).

(** [int(x)] on a float: truncation toward zero. *)
Definition py_int (x : float64) : result Z :=
  match x with
  | S754_nan => Raise (ValueError "cannot convert float NaN to integer")
  | S754_infinity _ =>
      Raise (OverflowError "cannot convert float infinity to integer")
  | S754_zero _ => Ok 0
  | S754_finite s m e => Ok (cond_Zopp s (Z.shiftl (Zpos m) e))
  end.

(** [int(np.ceil(np.log2(x)))] on a Python int [x]: the least [a] with
    [x <= 2^a] (the library logarithm is exact enough for every array
    length that fits in memory). *)
Definition int_ceil_log2 (x : Z) : result Z :=
  if x <? 0 then Raise (ValueError "cannot convert float NaN to integer")
  else if x =? 0 then
    Raise (OverflowError "cannot convert float infinity to integer")
  else Ok (Z.log2_up x).

(** ** Complex numbers *)

Definition C : Type := (R * R)%type.

Definition C0 : C := (0%R, 0%R).
Definition RtoC (r : R) : C := (r, 0%R).
Definition Cre (c : C) : R := fst c.
Definition Cplus (a b : C) : C := ((fst a + fst b)%R, (snd a + snd b)%R).
Definition Cmult (a b : C) : C :=
  ((fst a * fst b - snd a * snd b)%R, (fst a * snd b + snd a * fst b)%R).
Definition Cscal (r : R) (a : C) : C := ((r * fst a)%R, (r * snd a)%R).
Definition Cabs (a : C) : R := sqrt (fst a * fst a + snd a * snd a).

(** ** NumPy arrays *)

Inductive ndarray : Type :=
| Int16 (data : list Z)
| Float64 (data : list R)
| Complex128 (data : list C).

Definition wrap16 (z : Z) : Z := (z + 32768) mod 65536 - 32768.

Definition size (a : ndarray) : nat :=
  match a with
  | Int16 l => length l
  | Float64 l => length l
  | Complex128 l => length l
  end.

(** [len(a)] *)
Definition len (a : ndarray) : Z := Z.of_nat (size a).

(** [a.astype(float64)] and [a.astype(complex128)] as lists of values. *)
Definition as_float64 (a : ndarray) : list R :=
  match a with
  | Int16 l => map IZR l
  | Float64 l => l
  | Complex128 l => map Cre l
  end.

Definition as_complex128 (a : ndarray) : list C :=
  match a with
  | Int16 l => map (fun z => RtoC (IZR z)) l
  | Float64 l => map RtoC l
  | Complex128 l => l
  end.

Fixpoint map2 {A B D : Type} (f : A -> B -> D) (l1 : list A) (l2 : list B)
  : list D :=
  match l1, l2 with
  | x :: l1', y :: l2' => f x y :: map2 f l1' l2'
  | _, _ => []
  end.

(** An element-wise binary operation on two arrays of the same shape (every
    call below is on equal lengths): the operands are promoted to the common
    dtype, [int16] results wrap. *)
Definition ufunc2 (fi : Z -> Z -> Z) (fr : R -> R -> R) (fc : C -> C -> C)
  (a b : ndarray) : ndarray :=
  match a, b with
  | Int16 x, Int16 y => Int16 (map2 (fun u v => wrap16 (fi u v)) x y)
  | Complex128 _, _ | _, Complex128 _ =>
      Complex128 (map2 fc (as_complex128 a) (as_complex128 b))
  | _, _ => Float64 (map2 fr (as_float64 a) (as_float64 b))
  end.

Definition np_add : ndarray -> ndarray -> ndarray := ufunc2 Z.add Rplus Cplus.
Definition np_multiply : ndarray -> ndarray -> ndarray :=
  ufunc2 Z.mul Rmult Cmult.

(** [np.concatenate((a, b))] *)
Definition np_concatenate (a b : ndarray) : ndarray :=
  match a, b with
  | Int16 x, Int16 y => Int16 (x ++ y)
  | Complex128 _, _ | _, Complex128 _ =>
      Complex128 (as_complex128 a ++ as_complex128 b)
  | _, _ => Float64 (as_float64 a ++ as_float64 b)
  end.

Definition pad_zeros (a : ndarray) (k : nat) : ndarray :=
  match a with
  | Int16 l => Int16 (l ++ repeat 0 k)
  | Float64 l => Float64 (l ++ repeat 0%R k)
  | Complex128 l => Complex128 (l ++ repeat C0 k)
  end.

(** [np.pad(a, (0, k), 'constant')] *)
Definition np_pad (a : ndarray) (k : Z) : result ndarray :=
  if k <? 0 then Raise (ValueError "index can't contain negative values")
  else Ok (pad_zeros a (Z.to_nat k)).

(** Python's normalisation of one bound of a slice over [n] elements. *)
Definition slice_index (n i : Z) : Z :=
  if i <? 0 then Z.max 0 (i + n) else Z.min i n.

Fixpoint fill_range {A : Type} (z : A) (lo hi i : Z) (l : list A) : list A :=
  match l with
  | [] => []
  | x :: l' =>
      (if (lo <=? i) && (i <? hi) then z else x) :: fill_range z lo hi (i + 1) l'
  end.

(** [a[lo:hi] = 0] *)
Definition setitem_slice_zero (a : ndarray) (lo hi : Z) : ndarray :=
  let n := len a in
  let lo' := slice_index n lo in
  let hi' := slice_index n hi in
  match a with
  | Int16 l => Int16 (fill_range 0 lo' hi' 0 l)
  | Float64 l => Float64 (fill_range 0%R lo' hi' 0 l)
  | Complex128 l => Complex128 (fill_range C0 lo' hi' 0 l)
  end.

(** [a[:hi]] *)
Definition getitem_slice_to (a : ndarray) (hi : Z) : ndarray :=
  let k := Z.to_nat (slice_index (len a) hi) in
  match a with
  | Int16 l => Int16 (firstn k l)
  | Float64 l => Float64 (firstn k l)
  | Complex128 l => Complex128 (firstn k l)
  end.

(** ** The discrete Fourier transform of [scipy.fftpack] *)

Definition Csum (l : list C) : C := fold_right Cplus C0 l.

(** [exp(sign * 2 pi i * jk / n)] *)
Definition twiddle (sign : R) (n jk : nat) : C :=
  (cos (2 * PI * INR jk / INR n), (sign * sin (2 * PI * INR jk / INR n))%R).

Definition dft_coeff (sign : R) (x : list C) (k : nat) : C :=
  Csum (map (fun j => Cmult (nth j x C0) (twiddle sign (length x) (j * k)))
          (seq 0 (length x))).

Definition dft (sign : R) (x : list C) : list C :=
  map (dft_coeff sign x) (seq 0 (length x)).

Definition idft (y : list C) : list C :=
  map (Cscal (/ INR (length y))) (dft 1 y).

Definition fft (a : ndarray) : result ndarray :=
  match size a with
  | O => Raise (ValueError "invalid number of data points (0) specified")
  | S _ => Ok (Complex128 (dft (-1) (as_complex128 a)))
  end.

Definition ifft (a : ndarray) : result ndarray :=
  match size a with
  | O => Raise (ValueError "invalid number of data points (0) specified")
  | S _ => Ok (Complex128 (idft (as_complex128 a)))
  end.

(** [abs(a).max()]: [abs] of an [int16] array wraps, of a complex array is
    the modulus; [max] of an empty array raises. *)
Definition np_abs_max (a : ndarray) : result R :=
  let v := match a with
           | Int16 l => map (fun z => IZR (wrap16 (Z.abs z))) l
           | Float64 l => map Rabs l
           | Complex128 l => map Cabs l
           end in
  match v with
  | [] =>
      Raise (ValueError
        "zero-size array to reduction operation maximum which has no identity")
  | x :: v' => Ok (fold_left Rmax v' x)
  end.

(** [a / d] for a scalar [d]: true division.  Dividing by zero does not
    raise in NumPy (it warns): the quotient is [nan] or an infinity, written
    [None] here. *)
Definition np_true_divide (a : ndarray) (d : R) : list (option C) :=
  map (fun c => if Req_EM_T d 0 then None else Some (Cscal (/ d) c))
    (as_complex128 a).

(** [a *= k] *)
Definition np_imul (a : list (option C)) (k : R) : list (option C) :=
  map (option_map (Cscal k)) a.

(** [a.real] *)
Definition np_real (a : list (option C)) : list (option R) :=
  map (option_map Cre) a.

Definition Rtrunc (r : R) : Z := if Rle_dec 0 r then Zfloor r else Zceil r.

(** [a.astype(np.int16)]: truncation toward zero; the cast of a value that
    is not finite is not defined by C, written [None]. *)
Definition astype_int16 (a : list (option R)) : list (option Z) :=
  map (option_map (fun r => wrap16 (Rtrunc r))) a.

(** The [n] evenly spaced points of [np.linspace], both ends included. *)
Definition linspace_points (start stop : R) (n : nat) : list R :=
  map (fun i => (start + INR i * ((stop - start) / INR (n - 1)))%R) (seq 0 n).

(** [str(n)] of a Python int: decimal digits, with a minus sign. *)
Definition py_str_int (n : Z) : string := NilZero.string_of_int (Z.to_int n).

(** ["Number of samples, %s, must be non-negative." % num], the error of
    [np.linspace] on a negative count. *)
Definition linspace_error (num : Z) : exn :=
  ValueError (String.append "Number of samples, "
                (String.append (py_str_int num) ", must be non-negative.")).

(** [np.linspace(start, stop, num)] *)
Definition np_linspace (start stop : R) (num : Z) : result (list R) :=
  if num <? 0 then Raise (linspace_error num)
  else Ok (linspace_points start stop (Z.to_nat num)).

(** ** Objects, files and the monad of Python code *)

Record SoundWave : Type := { rate : Z; samples : ndarray }.

(** What [wavfile.write] puts in a file. *)
Record wav : Type := { wav_rate : Z; wav_data : list (option Z) }.

(** A file on disk: opened and left with no bytes, or a complete WAV file. *)
Inductive file : Type :=
| EmptyFile
| WavFile (content : wav).

Record world : Type := {
  heap : list SoundWave;
  files : list (string * file)
}.

Definition ref : Type := nat.

Definition obj (w : world) (r : ref) : option SoundWave := nth_error (heap w) r.

Fixpoint update {A : Type} (l : list A) (i : nat) (x : A) : list A :=
  match l, i with
  | [], _ => []
  | _ :: l', O => x :: l'
  | y :: l', S i' => y :: update l' i' x
  end.

Definition Py (A : Type) : Type := world -> result A * world.

Definition ret {A : Type} (a : A) : Py A := fun w => (Ok a, w).

Definition raise {A : Type} (e : exn) : Py A := fun w => (Raise e, w).

Definition lift {A : Type} (x : result A) : Py A := fun w => (x, w).

Definition bind {A B : Type} (m : Py A) (k : A -> Py B) : Py B :=
  fun w =>
    match m w with
    | (Ok a, w') => k a w'
    | (Raise e, w') => (Raise e, w')
    end.

Notation "x <- m ;; k" := (bind m (fun x => k))
  (at level 61, m at next level, right associativity).

Definition getattr_rate (r : ref) : Py Z :=
  fun w =>
    match obj w r with
    | Some o => (Ok (rate o), w)
    | None => (Raise ReferenceError, w)
    end.

Definition getattr_samples (r : ref) : Py ndarray :=
  fun w =>
    match obj w r with
    | Some o => (Ok (samples o), w)
    | None => (Raise ReferenceError, w)
    end.

(** [self.samples = v] *)
Definition setattr_samples (r : ref) (v : ndarray) : Py unit :=
  fun w =>
    match obj w r with
    | Some o =>
        (Ok tt,
         {| heap := update (heap w) r {| rate := rate o; samples := v |};
            files := files w |})
    | None => (Raise ReferenceError, w)
    end.

(** [SoundWave(rate, samples)]: a new instance, [__init__] stores both
    arguments as they are. *)
Definition new_SoundWave (rate0 : Z) (samples0 : ndarray) : Py ref :=
  fun w =>
    (Ok (length (heap w)),
     {| heap := heap w ++ [{| rate := rate0; samples := samples0 |}];
        files := files w |}).

(** The header of a mono 16-bit file stores the rate and the byte rate
    [2 * rate] with [struct.pack] in unsigned 32-bit fields. *)
Definition header_fits (rate0 : Z) : bool :=
  (0 <=? rate0) && (2 * rate0 <=? 4294967295).

(** The 36 bytes of header that are counted and the two bytes of each sample
    must fit the 32-bit size field. *)
Definition size_fits (data : list (option Z)) : bool :=
  36 + 2 * Z.of_nat (length data) <=? 4294967295.

(** [wavfile.write(filename, rate, data)] for [int16] data.  The file is
    opened first: a failure while the header is built leaves it empty. *)
Definition wavfile_write (filename : string) (rate0 : Z)
  (data : list (option Z)) : Py unit :=
  fun w =>
    if negb (header_fits rate0) then
      (Raise (StructError "'I' format requires 0 <= number <= 4294967295"),
       {| heap := heap w; files := (filename, EmptyFile) :: files w |})
    else if negb (size_fits data) then
      (Raise (ValueError "Data exceeds wave file size limit"),
       {| heap := heap w; files := (filename, EmptyFile) :: files w |})
    else
      (Ok tt,
       {| heap := heap w;
          files := (filename,
                    WavFile {| wav_rate := rate0; wav_data := data |})
                     :: files w |}).

(** ** The methods of [SoundWave] *)

(** [self + other] *)
Definition __add__ (self other : ref) : Py ref :=
  s <- getattr_samples self ;;
  o <- getattr_samples other ;;
  if negb (len s =? len o) then
    raise (ValueError "SoundWaves are not the same length")
  else
    let sum_samples := np_add s o in
    r <- getattr_rate self ;;
    new_SoundWave r sum_samples.

(** [self >> other] *)
Definition __rshift__ (self other : ref) : Py ref :=
  r <- getattr_rate self ;;
  r' <- getattr_rate other ;;
  if negb (r =? r') then
    raise (ValueError "SoundWaves have different sample rates")
  else
    s <- getattr_samples self ;;
    o <- getattr_samples other ;;
    let shift_samples := np_concatenate s o in
    new_SoundWave r shift_samples.

(** [self * other] *)
Definition __mul__ (self other : ref) : Py ref :=
  r <- getattr_rate self ;;
  r' <- getattr_rate other ;;
  if negb (r =? r') then
    raise (ValueError "The sample rates do not match. Must be the same.")
  else
    f <- getattr_samples self ;;
    g <- getattr_samples other ;;
    f <- lift (np_pad f (Z.abs (len g - len f))) ;;
    g <- lift (np_pad g (Z.abs (len f - len g))) ;;
    ff <- lift (fft f) ;;
    fg <- lift (fft g) ;;
    conv <- lift (ifft (np_multiply ff fg)) ;;
    new_SoundWave r conv.

(** [self ** other] *)
Definition __pow__ (self other : ref) : Py ref :=
  r <- getattr_rate self ;;
  r' <- getattr_rate other ;;
  if negb (r =? r') then
    raise (ValueError "The sample rates do not match. Must be the same.")
  else
    f <- getattr_samples self ;;
    g <- getattr_samples other ;;
    let m := len f in
    let n := len g in
    a <- lift (int_ceil_log2 (n + m - 1)) ;;
    f <- lift (np_pad f (2 ^ a - m)) ;;
    g <- lift (np_pad g (2 ^ a - n)) ;;
    ff <- lift (fft f) ;;
    fg <- lift (fft g) ;;
    conv <- lift (ifft (np_multiply ff fg)) ;;
    new_SoundWave r (getitem_slice_to conv (m + n - 1)).

(** [int(freq * (len(self.samples) / self.rate))] *)
Definition freq_bin (freq : float64) (n r : Z) : result Z :=
  rbind (int_truediv n r) (fun q => py_int (fmul freq q)).

Definition clean (self : ref) (low_freq high_freq : float64) : Py unit :=
  s <- getattr_samples self ;;
  r <- getattr_rate self ;;
  k_low <- lift (freq_bin low_freq (len s) r) ;;
  k_high <- lift (freq_bin high_freq (len s) r) ;;
  dft0 <- lift (fft s) ;;
  let n := len dft0 in
  let dft1 := setitem_slice_zero dft0 k_low k_high in
  let dft2 := setitem_slice_zero dft1 (n - k_high) (n - k_low) in
  cleaned <- lift (ifft dft2) ;;
  setattr_samples self cleaned.

(** The rescaling of [export]: peak normalisation, times 32767, real part,
    cast to [int16]. *)
Definition rescale (a : ndarray) : result (list (option Z)) :=
  rbind (np_abs_max a) (fun peak =>
    let s1 := np_true_divide a peak in
    let s2 := np_imul s1 32767 in
    let s3 := np_real s2 in
    Ok (astype_int16 s3)).

Definition export (self : ref) (filename : string) (force : bool) : Py unit :=
  s <- getattr_samples self ;;
  data <- lift match s with
               | Int16 l => if force then rescale s else Ok (map Some l)
               | _ => rescale s
               end ;;
  r <- getattr_rate self ;;
  wavfile_write filename r data.

(** ** Synthesis *)

Definition NOTE_FREQ : list (string * R) :=
  [ ("C", 261.6256%R); ("D", 293.6648%R); ("E", 329.6276%R);
    ("F", 349.2282%R); ("G", 391.9954%R) ].

(** [d[k]] *)
Fixpoint getitem (d : list (string * R)) (k : string) : result R :=
  match d with
  | [] => Raise (KeyError k)
  | (k', v) :: d' => if String.eqb k' k then Ok v else getitem d' k
  end.

(** [np.sin(2 * np.pi * x * frequency)] *)
Definition sine_wave (frequency : R) (x : list R) : list R :=
  map (fun t => sin (2 * PI * t * frequency)) x.

(** The duration is a whole number of seconds, a Python int as the default
    [duration=1] is: [rate * duration] is the count given to [np.linspace]. *)
Definition generate_note (frequency : R) (duration : Z) : Py ref :=
  let rate0 := 44100 in
  let N := rate0 * duration in
  x <- lift (np_linspace 0 (IZR duration) N) ;;
  let samples0 := Float64 (sine_wave frequency x) in
  new_SoundWave rate0 samples0.

(** [[NOTE_FREQ[note] for note in note_sequence]] *)
Fixpoint lookup_notes (note_sequence : list string) : result (list R) :=
  match note_sequence with
  | [] => Ok []
  | note :: rest =>
      rbind (getitem NOTE_FREQ note) (fun f =>
        rbind (lookup_notes rest) (fun fs => Ok (f :: fs)))
  end.

(** The loop [for freq in hertz[1:]: audio = audio >> generate_note(...)] *)
Fixpoint append_notes (audio : ref) (hertz : list R) (duration : Z) : Py ref :=
  match hertz with
  | [] => ret audio
  | freq :: rest =>
      note <- generate_note freq duration ;;
      audio' <- __rshift__ audio note ;;
      append_notes audio' rest duration
  end.

Definition audio_sequence (note_sequence : list string) (duration : Z)
  : Py ref :=
  if Z.of_nat (length note_sequence) =? 0 then
    raise (ValueError "Cannot generate audio for empty note sequence")
  else
    hertz <- lift (lookup_notes note_sequence) ;;
    match hertz with
    | [] => raise (IndexError "list index out of range")
    | h0 :: rest =>
        audio <- generate_note h0 duration ;;
        append_notes audio rest duration
    end.

(** * Properties *)

(** ** The store *)

Lemma obj_fresh_none (w : world) : obj w (length (heap w)) = None.
Proof. unfold obj. apply nth_error_None. lia. Qed.

Lemma obj_some_lt (w : world) (r : ref) (o : SoundWave) :
  obj w r = Some o -> (r < length (heap w))%nat.
Proof. unfold obj. intros H. apply nth_error_Some. congruence. Qed.

Lemma new_SoundWave_old (w : world) (rt : Z) (s : ndarray) (r : ref)
  (o : SoundWave) :
  obj w r = Some o -> obj (snd (new_SoundWave rt s w)) r = Some o.
Proof.
  intros H. unfold obj, new_SoundWave. simpl.
  rewrite nth_error_app1 by (eapply obj_some_lt; eassumption). exact H.
Qed.

Lemma new_SoundWave_new (w : world) (rt : Z) (s : ndarray) :
  obj (snd (new_SoundWave rt s w)) (length (heap w))
  = Some {| rate := rt; samples := s |}.
Proof.
  unfold obj, new_SoundWave. simpl.
  rewrite nth_error_app2 by lia. rewrite Nat.sub_diag. reflexivity.
Qed.

Lemma update_length {A : Type} (l : list A) (i : nat) (x : A) :
  length (update l i x) = length l.
Proof.
  revert i. induction l as [|y l IH]; intros [|i]; simpl; auto.
Qed.

Lemma nth_error_update_same {A : Type} (l : list A) (i : nat) (x : A) :
  (i < length l)%nat -> nth_error (update l i x) i = Some x.
Proof.
  revert i. induction l as [|y l IH]; intros [|i] H; simpl in *; try lia; auto.
  apply IH. lia.
Qed.


(** ** Arrays *)

Lemma map2_comm {A D : Type} (f : A -> A -> D) (l1 l2 : list A) :
  (forall x y, f x y = f y x) -> map2 f l1 l2 = map2 f l2 l1.
Proof.
  intros Hf. revert l2.
  induction l1 as [|x l1 IH]; intros [|y l2]; simpl; auto.
  rewrite Hf, IH. reflexivity.
Qed.

Lemma map2_length {A B D : Type} (f : A -> B -> D) (l1 : list A) (l2 : list B) :
  length (map2 f l1 l2) = Nat.min (length l1) (length l2).
Proof.
  revert l2. induction l1 as [|x l1 IH]; intros [|y l2]; simpl; auto.
Qed.

Lemma Cplus_comm (a b : C) : Cplus a b = Cplus b a.
Proof. unfold Cplus. f_equal; apply Rplus_comm. Qed.

Lemma np_add_comm (a b : ndarray) : np_add a b = np_add b a.
Proof.
  unfold np_add, ufunc2.
  destruct a, b; f_equal; apply map2_comm; intros;
    auto using Rplus_comm, Cplus_comm.
  f_equal. apply Z.add_comm.
Qed.

Lemma size_as_complex128 (a : ndarray) : length (as_complex128 a) = size a.
Proof. destruct a; simpl; now rewrite ?length_map. Qed.

Lemma size_as_float64 (a : ndarray) : length (as_float64 a) = size a.
Proof. destruct a; simpl; now rewrite ?length_map. Qed.

Lemma as_complex128_concatenate (a b : ndarray) :
  as_complex128 (np_concatenate a b) = as_complex128 a ++ as_complex128 b.
Proof.
  destruct a, b; simpl; rewrite ?map_app, ?map_map; reflexivity.
Qed.

Lemma size_concatenate (a b : ndarray) :
  size (np_concatenate a b) = (size a + size b)%nat.
Proof.
  rewrite <- !size_as_complex128, as_complex128_concatenate.
  apply length_app.
Qed.

Lemma np_concatenate_assoc (a b c : ndarray) :
  np_concatenate (np_concatenate a b) c
  = np_concatenate a (np_concatenate b c).
Proof.
  destruct a, b, c; simpl;
    rewrite ?map_app, ?map_map, <- ?app_assoc; reflexivity.
Qed.

(** ** What [__add__] and [__rshift__] compute *)

Definition length_mismatch : exn :=
  ValueError "SoundWaves are not the same length".

Definition rate_mismatch_rshift : exn :=
  ValueError "SoundWaves have different sample rates".

Definition rate_mismatch_conv : exn :=
  ValueError "The sample rates do not match. Must be the same.".

Lemma add_run (w : world) (a b : ref) (oa ob : SoundWave) :
  obj w a = Some oa -> obj w b = Some ob ->
  __add__ a b w =
  if len (samples oa) =? len (samples ob)
  then new_SoundWave (rate oa) (np_add (samples oa) (samples ob)) w
  else (Raise length_mismatch, w).
Proof.
  intros Ha Hb. unfold __add__, bind, getattr_samples, getattr_rate.
  rewrite Ha, Hb.
  destruct (len (samples oa) =? len (samples ob)); simpl; [|reflexivity].
  rewrite Ha. reflexivity.
Qed.

Lemma rshift_run (w : world) (a b : ref) (oa ob : SoundWave) :
  obj w a = Some oa -> obj w b = Some ob ->
  __rshift__ a b w =
  if rate oa =? rate ob
  then new_SoundWave (rate oa) (np_concatenate (samples oa) (samples ob)) w
  else (Raise rate_mismatch_rshift, w).
Proof.
  intros Ha Hb. unfold __rshift__, bind, getattr_samples, getattr_rate.
  rewrite Ha, Hb.
  destruct (rate oa =? rate ob); simpl; [|reflexivity].
  rewrite Ha, Hb. reflexivity.
Qed.

(** C10: on two waveforms with the same number of samples, [a + b] and
    [b + a] both succeed and carry the same samples, element for element;
    the first result has the rate of [a] and the second the rate of [b],
    whether or not the two rates agree. *)
Theorem add_commutes_on_samples (w : world) (a b : ref) (oa ob : SoundWave) :
  obj w a = Some oa -> obj w b = Some ob ->
  len (samples oa) = len (samples ob) ->
  exists (r1 r2 : ref) (w1 w2 : world) (s : ndarray),
    __add__ a b w = (Ok r1, w1) /\
    __add__ b a w = (Ok r2, w2) /\
    obj w1 r1 = Some {| rate := rate oa; samples := s |} /\
    obj w2 r2 = Some {| rate := rate ob; samples := s |} /\
    s = np_add (samples oa) (samples ob).
Proof.
  intros Ha Hb Hlen.
  exists (length (heap w)), (length (heap w)).
  exists (snd (new_SoundWave (rate oa) (np_add (samples oa) (samples ob)) w)).
  exists (snd (new_SoundWave (rate ob) (np_add (samples ob) (samples oa)) w)).
  exists (np_add (samples oa) (samples ob)).
  rewrite (add_run w a b oa ob Ha Hb), (add_run w b a ob oa Hb Ha).
  rewrite <- Hlen, Z.eqb_refl.
  repeat split.
  - apply new_SoundWave_new.
  - rewrite (np_add_comm (samples oa)). apply new_SoundWave_new.
Qed.

(** Two [int16] recordings of equal length and different rates. *)
Definition w_add : world :=
  {| heap := [ {| rate := 44100; samples := Int16 [1; 2; 32767] |};
               {| rate := 8000; samples := Int16 [5; -7; 1] |} ];
     files := [] |}.

Lemma add_commutes_on_samples_witness :
  exists (r1 r2 : ref) (w1 w2 : world) (s : ndarray),
    __add__ 0%nat 1%nat w_add = (Ok r1, w1) /\
    __add__ 1%nat 0%nat w_add = (Ok r2, w2) /\
    obj w1 r1 = Some {| rate := 44100; samples := s |} /\
    obj w2 r2 = Some {| rate := 8000; samples := s |} /\
    s = np_add (Int16 [1; 2; 32767]) (Int16 [5; -7; 1]).
Proof.
  apply (add_commutes_on_samples w_add 0%nat 1%nat
           {| rate := 44100; samples := Int16 [1; 2; 32767] |}
           {| rate := 8000; samples := Int16 [5; -7; 1] |});
    reflexivity.
Defined.

Example add_wraps :
  np_add (Int16 [1; 2; 32767]) (Int16 [5; -7; 1]) = Int16 [6; -5; -32768].
Proof. reflexivity. Qed.

(** C7: on three waveforms of one rate, [(a >> b) >> c] and [a >> (b >> c)]
    both succeed and carry the same samples; the samples of [a >> b] are
    those of [a] followed by those of [b], and there are
    [len a + len b] of them. *)
Theorem rshift_associative (w : world) (a b c : ref) (oa ob oc : SoundWave) :
  obj w a = Some oa -> obj w b = Some ob -> obj w c = Some oc ->
  rate oa = rate ob -> rate ob = rate oc ->
  exists (ab abc bc abc' : ref) (w1 w2 w3 w4 : world) (sab s : ndarray),
    __rshift__ a b w = (Ok ab, w1) /\
    __rshift__ ab c w1 = (Ok abc, w2) /\
    __rshift__ b c w = (Ok bc, w3) /\
    __rshift__ a bc w3 = (Ok abc', w4) /\
    obj w2 abc = Some {| rate := rate oa; samples := s |} /\
    obj w4 abc' = Some {| rate := rate oa; samples := s |} /\
    obj w1 ab = Some {| rate := rate oa; samples := sab |} /\
    as_complex128 sab = as_complex128 (samples oa) ++ as_complex128 (samples ob) /\
    len sab = len (samples oa) + len (samples ob).
Proof.
  intros Ha Hb Hc Hab Hbc.
  destruct oa as [ra sa], ob as [rb sb], oc as [rc sc].
  simpl in Hab, Hbc. subst rb rc. simpl.
  set (sab := np_concatenate sa sb).
  set (sbc := np_concatenate sb sc).
  set (oab := {| rate := ra; samples := sab |}).
  set (obc := {| rate := ra; samples := sbc |}).
  set (w1 := snd (new_SoundWave ra sab w)).
  set (w3 := snd (new_SoundWave ra sbc w)).
  exists (length (heap w)), (length (heap w1)),
         (length (heap w)), (length (heap w3)).
  exists w1, (snd (new_SoundWave ra (np_concatenate sab sc) w1)).
  exists w3, (snd (new_SoundWave ra (np_concatenate sa sbc) w3)).
  exists sab, (np_concatenate sab sc).
  assert (H1 : obj w1 (length (heap w)) = Some oab)
    by apply new_SoundWave_new.
  assert (H1c : obj w1 c = Some _) by (apply new_SoundWave_old; exact Hc).
  assert (H3 : obj w3 (length (heap w)) = Some obc)
    by apply new_SoundWave_new.
  assert (H3a : obj w3 a = Some _) by (apply new_SoundWave_old; exact Ha).
  rewrite (rshift_run w a b _ _ Ha Hb), (rshift_run w b c _ _ Hb Hc).
  rewrite (rshift_run w1 _ c _ _ H1 H1c).
  rewrite (rshift_run w3 a _ _ _ H3a H3).
  simpl rate. rewrite Z.eqb_refl.
  split; [reflexivity|]. split; [reflexivity|].
  split; [reflexivity|]. split; [reflexivity|].
  split; [apply new_SoundWave_new|].
  split.
  { unfold sab, sbc. rewrite np_concatenate_assoc. apply new_SoundWave_new. }
  split; [exact H1|].
  split; [apply as_complex128_concatenate|].
  unfold len, sab. rewrite size_concatenate. lia.
Qed.

Definition w_rshift : world :=
  {| heap := [ {| rate := 44100; samples := Int16 [1; 2] |};
               {| rate := 44100; samples := Float64 [3%R] |};
               {| rate := 44100; samples := Int16 [4; 5; 6] |} ];
     files := [] |}.

Lemma rshift_associative_witness :
  exists (ab abc bc abc' : ref) (w1 w2 w3 w4 : world) (sab s : ndarray),
    __rshift__ 0%nat 1%nat w_rshift = (Ok ab, w1) /\
    __rshift__ ab 2%nat w1 = (Ok abc, w2) /\
    __rshift__ 1%nat 2%nat w_rshift = (Ok bc, w3) /\
    __rshift__ 0%nat bc w3 = (Ok abc', w4) /\
    obj w2 abc = Some {| rate := 44100; samples := s |} /\
    obj w4 abc' = Some {| rate := 44100; samples := s |} /\
    obj w1 ab = Some {| rate := 44100; samples := sab |} /\
    as_complex128 sab
    = as_complex128 (Int16 [1; 2]) ++ as_complex128 (Float64 [3%R]) /\
    len sab = len (Int16 [1; 2]) + len (Float64 [3%R]).
Proof.
  apply (rshift_associative w_rshift 0%nat 1%nat 2%nat
           {| rate := 44100; samples := Int16 [1; 2] |}
           {| rate := 44100; samples := Float64 [3%R] |}
           {| rate := 44100; samples := Int16 [4; 5; 6] |});
    reflexivity.
Defined.

(** ** Padding and transforms keep track of lengths *)

Lemma np_pad_ok (a : ndarray) (k : Z) :
  0 <= k -> np_pad a k = Ok (pad_zeros a (Z.to_nat k)).
Proof.
  intros Hk. unfold np_pad.
  destruct (Z.ltb_spec k 0); [lia | reflexivity].
Qed.

Lemma size_pad_zeros (a : ndarray) (k : nat) :
  size (pad_zeros a k) = (size a + k)%nat.
Proof. destruct a; simpl; now rewrite length_app, repeat_length. Qed.

Lemma dft_length (sign : R) (x : list C) : length (dft sign x) = length x.
Proof. unfold dft. now rewrite length_map, length_seq. Qed.

Lemma idft_length (y : list C) : length (idft y) = length y.
Proof. unfold idft. now rewrite length_map, dft_length. Qed.

Lemma fft_ok (a : ndarray) :
  size a <> O -> fft a = Ok (Complex128 (dft (-1) (as_complex128 a))).
Proof. unfold fft. destruct (size a); [congruence | reflexivity]. Qed.

Lemma ifft_ok (a : ndarray) :
  size a <> O -> ifft a = Ok (Complex128 (idft (as_complex128 a))).
Proof. unfold ifft. destruct (size a); [congruence | reflexivity]. Qed.

(** The transform-domain product both convolutions end with. *)
Definition spectral_product (f g : ndarray) : ndarray :=
  Complex128
    (idft (map2 Cmult (dft (-1) (as_complex128 f))
             (dft (-1) (as_complex128 g)))).

Lemma size_spectral_product (f g : ndarray) :
  size (spectral_product f g) = Nat.min (size f) (size g).
Proof.
  unfold spectral_product. simpl.
  now rewrite idft_length, map2_length, !dft_length, !size_as_complex128.
Qed.

Lemma conv_tail_run (f g : ndarray) (k : ndarray -> Py ref) (w : world) :
  size f <> O -> size g <> O ->
  (ff <- lift (fft f) ;;
   fg <- lift (fft g) ;;
   conv <- lift (ifft (np_multiply ff fg)) ;;
   k conv) w
  = k (spectral_product f g) w.
Proof.
  intros Hf Hg. unfold bind, lift.
  rewrite (fft_ok f Hf), (fft_ok g Hg).
  unfold np_multiply, ufunc2. cbn [as_complex128].
  rewrite ifft_ok; [reflexivity|].
  simpl. rewrite map2_length, !dft_length, !size_as_complex128. lia.
Qed.

(** ** Circular convolution *)

Lemma mul_run (w : world) (a b : ref) (oa ob : SoundWave) :
  obj w a = Some oa -> obj w b = Some ob ->
  rate oa = rate ob ->
  (0 < size (samples oa) + size (samples ob))%nat ->
  let m := len (samples oa) in
  let n := len (samples ob) in
  let f := pad_zeros (samples oa) (Z.to_nat (Z.abs (n - m))) in
  let g := pad_zeros (samples ob) (Z.to_nat (Z.abs (len f - n))) in
  __mul__ a b w = new_SoundWave (rate oa) (spectral_product f g) w.
Proof.
  intros Ha Hb Hr Hpos m n f g.
  unfold __mul__.
  unfold bind at 1 2 3 4 5 6. unfold getattr_rate, getattr_samples.
  rewrite Ha, Hb, Hr, Z.eqb_refl. cbn [negb]. rewrite Ha, Hb.
  unfold lift at 1 2.
  rewrite !np_pad_ok by apply Z.abs_nonneg.
  apply conv_tail_run; unfold g, f; rewrite ?size_pad_zeros;
    unfold len in *; rewrite ?size_pad_zeros; unfold m, n, len; lia.
Qed.

Lemma mul_length (w : world) (a b : ref) (oa ob : SoundWave) :
  obj w a = Some oa -> obj w b = Some ob ->
  rate oa = rate ob ->
  (0 < size (samples oa) + size (samples ob))%nat ->
  exists (r : ref) (w' : world) (conv : ndarray),
    __mul__ a b w = (Ok r, w') /\
    obj w' r = Some {| rate := rate oa; samples := conv |} /\
    len conv
    = len (samples oa) + Z.abs (len (samples ob) - len (samples oa)).
Proof.
  intros Ha Hb Hr Hpos.
  pose proof (mul_run w a b oa ob Ha Hb Hr Hpos) as Hrun. cbv zeta in Hrun.
  eexists _, _, _. split; [rewrite Hrun; reflexivity|].
  split; [apply new_SoundWave_new|].
  unfold len. rewrite size_spectral_product, !size_pad_zeros. lia.
Qed.

Corollary mul_length_cases (w : world) (a b : ref) (oa ob : SoundWave) :
  obj w a = Some oa -> obj w b = Some ob ->
  rate oa = rate ob ->
  (0 < size (samples oa) + size (samples ob))%nat ->
  exists (r : ref) (w' : world) (conv : ndarray),
    __mul__ a b w = (Ok r, w') /\
    obj w' r = Some {| rate := rate oa; samples := conv |} /\
    len conv
    = if len (samples oa) <=? len (samples ob)
      then Z.max (len (samples oa)) (len (samples ob))
      else 2 * len (samples oa) - len (samples ob).
Proof.
  intros Ha Hb Hr Hpos.
  destruct (mul_length w a b oa ob Ha Hb Hr Hpos) as (r & w' & conv & H1 & H2 & H3).
  exists r, w', conv. repeat split; auto.
  rewrite H3. destruct (Z.leb_spec (len (samples oa)) (len (samples ob))); lia.
Qed.

(** Three samples convolved with one. *)
Definition w_mul : world :=
  {| heap := [ {| rate := 44100; samples := Int16 [1; 2; 3] |};
               {| rate := 44100; samples := Int16 [1] |} ];
     files := [] |}.

(** C1: the circular convolution of a three-sample waveform with a
    one-sample waveform of the same rate has five samples, not
    [max 3 1 = 3]: the longer operand is padded too, by the difference of
    the lengths, before the shorter one is padded to match it. *)
Theorem mul_longer_left_has_five_samples :
  exists (r : ref) (w' : world) (conv : ndarray),
    __mul__ 0%nat 1%nat w_mul = (Ok r, w') /\
    obj w' r = Some {| rate := 44100; samples := conv |} /\
    len conv = 5 /\
    Z.max (len (Int16 [1; 2; 3])) (len (Int16 [1])) = 3.
Proof.
  destruct (mul_length w_mul 0%nat 1%nat
              {| rate := 44100; samples := Int16 [1; 2; 3] |}
              {| rate := 44100; samples := Int16 [1] |}
              eq_refl eq_refl eq_refl) as (r & w' & conv & H1 & H2 & H3).
  { simpl. lia. }
  exists r, w', conv. repeat split; auto.
Qed.

(** ** Linear convolution *)

Lemma log2_up_pow2_ge (x : Z) : 1 <= x -> x <= 2 ^ Z.log2_up x.
Proof.
  intros Hx. destruct (Z.eq_dec x 1) as [->|Hne]; [reflexivity|].
  apply Z.log2_up_spec. lia.
Qed.

Lemma len_getitem_slice_to (a : ndarray) (hi : Z) :
  0 <= hi <= len a -> len (getitem_slice_to a hi) = hi.
Proof.
  intros H. unfold getitem_slice_to, slice_index.
  destruct (Z.ltb_spec hi 0); [lia|].
  rewrite Z.min_l by lia.
  unfold len in *.
  destruct a; simpl in *; rewrite length_firstn; lia.
Qed.

Lemma pow_run (w : world) (a b : ref) (oa ob : SoundWave) :
  obj w a = Some oa -> obj w b = Some ob ->
  rate oa = rate ob ->
  1 <= len (samples oa) -> 1 <= len (samples ob) ->
  let m := len (samples oa) in
  let n := len (samples ob) in
  let p := 2 ^ Z.log2_up (n + m - 1) in
  let f := pad_zeros (samples oa) (Z.to_nat (p - m)) in
  let g := pad_zeros (samples ob) (Z.to_nat (p - n)) in
  __pow__ a b w
  = new_SoundWave (rate oa)
      (getitem_slice_to (spectral_product f g) (m + n - 1)) w.
Proof.
  intros Ha Hb Hr Hm Hn m n p f g.
  assert (Hp : n + m - 1 <= p) by (apply log2_up_pow2_ge; lia).
  unfold __pow__.
  unfold bind at 1 2 3 4 5 6 7. unfold getattr_rate, getattr_samples.
  rewrite Ha, Hb, Hr, Z.eqb_refl. cbn [negb]. rewrite Ha, Hb.
  unfold lift at 1 2 3. unfold int_ceil_log2.
  fold m n.
  destruct (Z.ltb_spec (n + m - 1) 0); [lia|].
  destruct (Z.eqb_spec (n + m - 1) 0); [lia|].
  fold p.
  rewrite !np_pad_ok by lia.
  fold f g.
  apply (conv_tail_run f g
           (fun conv => new_SoundWave (rate ob)
                          (getitem_slice_to conv (m + n - 1))));
    unfold f, g; rewrite size_pad_zeros; unfold m, n, len in *; lia.
Qed.

(** C4: on two non-empty waveforms of one rate, with [m] and [n] samples,
    [a ** b] pads both sample arrays with zeros to [p] samples, [p] the least
    power of two that is at least [m + n - 1], multiplies their forward
    transforms element by element, transforms back and keeps the first
    [m + n - 1] values: the result has exactly [m + n - 1] samples. *)
Theorem pow_length (w : world) (a b : ref) (oa ob : SoundWave) :
  obj w a = Some oa -> obj w b = Some ob ->
  rate oa = rate ob ->
  1 <= len (samples oa) -> 1 <= len (samples ob) ->
  let m := len (samples oa) in
  let n := len (samples ob) in
  let p := 2 ^ Z.log2_up (n + m - 1) in
  let f := pad_zeros (samples oa) (Z.to_nat (p - m)) in
  let g := pad_zeros (samples ob) (Z.to_nat (p - n)) in
  exists (r : ref) (w' : world) (conv : ndarray),
    __pow__ a b w = (Ok r, w') /\
    obj w' r = Some {| rate := rate oa; samples := conv |} /\
    conv = getitem_slice_to (spectral_product f g) (m + n - 1) /\
    len f = p /\ len g = p /\
    m + n - 1 <= p /\
    (forall q : Z, 0 <= q -> m + n - 1 <= 2 ^ q -> p <= 2 ^ q) /\
    len conv = m + n - 1.
Proof.
  intros Ha Hb Hr Hm Hn m n p f g.
  assert (Hp : n + m - 1 <= p) by (apply log2_up_pow2_ge; lia).
  assert (Hf : len f = p).
  { unfold len, f. rewrite size_pad_zeros. unfold m, len in *. lia. }
  assert (Hg : len g = p).
  { unfold len, g. rewrite size_pad_zeros. unfold n, len in *. lia. }
  exists (length (heap w)).
  exists (snd (new_SoundWave (rate oa)
                 (getitem_slice_to (spectral_product f g) (m + n - 1)) w)).
  exists (getitem_slice_to (spectral_product f g) (m + n - 1)).
  split.
  { rewrite (pow_run w a b oa ob Ha Hb Hr Hm Hn). reflexivity. }
  split; [apply new_SoundWave_new|].
  split; [reflexivity|].
  split; [exact Hf|]. split; [exact Hg|]. split; [lia|].
  split.
  { intros q Hq Hle. unfold p. apply Z.pow_le_mono_r; [lia|].
    apply Z.log2_up_le_pow2; lia. }
  apply len_getitem_slice_to.
  unfold len in *. rewrite size_spectral_product. lia.
Qed.

Definition w_pow : world :=
  {| heap := [ {| rate := 8000; samples := Int16 [1; 2; 3] |};
               {| rate := 8000; samples := Float64 [1%R; 1%R; 1%R] |} ];
     files := [] |}.

Lemma pow_length_witness :
  let f := pad_zeros (Int16 [1; 2; 3]) 5 in
  let g := pad_zeros (Float64 [1%R; 1%R; 1%R]) 5 in
  exists (r : ref) (w' : world) (conv : ndarray),
    __pow__ 0%nat 1%nat w_pow = (Ok r, w') /\
    obj w' r = Some {| rate := 8000; samples := conv |} /\
    conv = getitem_slice_to (spectral_product f g) 5 /\
    len f = 8 /\ len g = 8 /\
    5 <= 8 /\
    (forall q : Z, 0 <= q -> 5 <= 2 ^ q -> 8 <= 2 ^ q) /\
    len conv = 5.
Proof.
  assert (H3 : 1 <= 3) by lia.
  exact (pow_length w_pow 0%nat 1%nat
           {| rate := 8000; samples := Int16 [1; 2; 3] |}
           {| rate := 8000; samples := Float64 [1%R; 1%R; 1%R] |}
           eq_refl eq_refl eq_refl H3 H3).
Defined.

(** ** Which errors an operation can raise *)

Definition is_rate_mismatch (e : exn) : Prop :=
  e = rate_mismatch_rshift \/ e = rate_mismatch_conv.

Definition raises {A : Type} (P : exn -> Prop) (x : result A * world) : Prop :=
  match fst x with
  | Raise e => P e
  | Ok _ => False
  end.

(** A computation that raises no exception of the kind [P], from any store. *)
Definition never_raises {A : Type} (P : exn -> Prop) (m : Py A) : Prop :=
  forall w : world, ~ raises P (m w).

Definition result_avoids {A : Type} (P : exn -> Prop) (x : result A) : Prop :=
  forall e : exn, x = Raise e -> ~ P e.

Section NeverRaises.
Variable P : exn -> Prop.

Lemma never_raises_ret {A : Type} (a : A) : never_raises P (ret a).
Proof. intros w H. exact H. Qed.

Lemma never_raises_lift {A : Type} (x : result A) :
  result_avoids P x -> never_raises P (lift x).
Proof.
  intros Hx w. unfold raises, lift. simpl.
  destruct x as [a|e]; [tauto | now apply Hx].
Qed.

Lemma never_raises_bind {A B : Type} (m : Py A) (k : A -> Py B) :
  never_raises P m -> (forall a : A, never_raises P (k a)) ->
  never_raises P (bind m k).
Proof.
  intros Hm Hk w. unfold bind.
  specialize (Hm w). unfold raises in *.
  destruct (m w) as [[a|e] w']; simpl in *; [apply Hk | exact Hm].
Qed.

Lemma never_raises_new (rt : Z) (s : ndarray) :
  never_raises P (new_SoundWave rt s).
Proof. intros w H. exact H. Qed.

Hypothesis P_not_reference : ~ P ReferenceError.

Lemma never_raises_getattr_rate (r : ref) :
  never_raises P (getattr_rate r).
Proof.
  intros w. unfold raises, getattr_rate.
  destruct (obj w r); simpl; tauto.
Qed.

Lemma never_raises_getattr_samples (r : ref) :
  never_raises P (getattr_samples r).
Proof.
  intros w. unfold raises, getattr_samples.
  destruct (obj w r); simpl; tauto.
Qed.
End NeverRaises.

Lemma np_pad_avoids_rate (a : ndarray) (k : Z) :
  result_avoids is_rate_mismatch (np_pad a k).
Proof.
  unfold np_pad. intros e He [H|H]; subst e;
    destruct (k <? 0); discriminate He.
Qed.

Lemma fft_avoids_rate (a : ndarray) : result_avoids is_rate_mismatch (fft a).
Proof.
  unfold fft. intros e He [H|H]; subst e;
    destruct (size a); discriminate He.
Qed.

Lemma ifft_avoids_rate (a : ndarray) : result_avoids is_rate_mismatch (ifft a).
Proof.
  unfold ifft. intros e He [H|H]; subst e;
    destruct (size a); discriminate He.
Qed.

Lemma int_ceil_log2_avoids_rate (x : Z) :
  result_avoids is_rate_mismatch (int_ceil_log2 x).
Proof.
  unfold int_ceil_log2. intros e He [H|H]; subst e;
    destruct (x <? 0); try discriminate He;
    destruct (x =? 0); discriminate He.
Qed.

Lemma reference_not_rate : ~ is_rate_mismatch ReferenceError.
Proof. intros [H|H]; discriminate H. Qed.

Create HintDb raises.

#[local] Hint Resolve never_raises_ret never_raises_new never_raises_lift
  never_raises_getattr_rate never_raises_getattr_samples
  np_pad_avoids_rate fft_avoids_rate ifft_avoids_rate
  int_ceil_log2_avoids_rate reference_not_rate : raises.

Ltac never_raises_steps :=
  repeat (apply never_raises_bind; [auto with raises | intros ?]);
  auto with raises.

Lemma mul_equal_rates_no_rate_error (w : world) (a b : ref) (oa ob : SoundWave) :
  obj w a = Some oa -> obj w b = Some ob -> rate oa = rate ob ->
  ~ raises is_rate_mismatch (__mul__ a b w).
Proof.
  intros Ha Hb Hr.
  unfold __mul__. unfold bind at 1 2. unfold getattr_rate.
  rewrite Ha, Hb, Hr, Z.eqb_refl. cbn [negb].
  match goal with |- ~ raises _ (?m w) =>
    cut (never_raises is_rate_mismatch m); [intros H; apply H|] end.
  never_raises_steps.
Qed.

Lemma pow_equal_rates_no_rate_error (w : world) (a b : ref) (oa ob : SoundWave) :
  obj w a = Some oa -> obj w b = Some ob -> rate oa = rate ob ->
  ~ raises is_rate_mismatch (__pow__ a b w).
Proof.
  intros Ha Hb Hr.
  unfold __pow__. unfold bind at 1 2. unfold getattr_rate.
  rewrite Ha, Hb, Hr, Z.eqb_refl. cbn [negb].
  match goal with |- ~ raises _ (?m w) =>
    cut (never_raises is_rate_mismatch m); [intros H; apply H|] end.
  never_raises_steps.
Qed.

Lemma conv_rate_check (w : world) (a b : ref) (oa ob : SoundWave) :
  obj w a = Some oa -> obj w b = Some ob -> rate oa <> rate ob ->
  __mul__ a b w = (Raise rate_mismatch_conv, w) /\
  __pow__ a b w = (Raise rate_mismatch_conv, w).
Proof.
  intros Ha Hb Hr.
  unfold __mul__, __pow__. unfold bind at 1 2 10 11. unfold getattr_rate.
  rewrite Ha, Hb.
  destruct (Z.eqb_spec (rate oa) (rate ob)); [contradiction|].
  split; reflexivity.
Qed.

(** C5: [>>], [*] and [**] raise their rate-mismatch error exactly when the
    rates of the two operands differ.  [+] does not look at the rates: it
    raises its length-mismatch error exactly when the two sample arrays
    differ in length, and when it succeeds the result has the rate of the
    left operand, whatever the rate of the right one. *)
Theorem mismatch_errors (w : world) (a b : ref) (oa ob : SoundWave) :
  obj w a = Some oa -> obj w b = Some ob ->
  (raises is_rate_mismatch (__rshift__ a b w) <-> rate oa <> rate ob) /\
  (raises is_rate_mismatch (__mul__ a b w) <-> rate oa <> rate ob) /\
  (raises is_rate_mismatch (__pow__ a b w) <-> rate oa <> rate ob) /\
  (raises (eq length_mismatch) (__add__ a b w)
   <-> len (samples oa) <> len (samples ob)) /\
  (forall e : exn, ~ raises (eq e) (__add__ a b w)
                   \/ e = length_mismatch) /\
  (len (samples oa) = len (samples ob) ->
   exists (r : ref) (w' : world) (s : ndarray),
     __add__ a b w = (Ok r, w') /\
     obj w' r = Some {| rate := rate oa; samples := s |}).
Proof.
  intros Ha Hb.
  split; [|split; [|split; [|split; [|split]]]].
  - rewrite (rshift_run w a b oa ob Ha Hb).
    destruct (Z.eqb_spec (rate oa) (rate ob)) as [E|E]; unfold raises; simpl.
    + tauto.
    + split; [intros _; exact E | intros _; left; reflexivity].
  - split.
    + intros H. intros E.
      exact (mul_equal_rates_no_rate_error w a b oa ob Ha Hb E H).
    + intros E. destruct (conv_rate_check w a b oa ob Ha Hb E) as [-> _].
      right. reflexivity.
  - split.
    + intros H. intros E.
      exact (pow_equal_rates_no_rate_error w a b oa ob Ha Hb E H).
    + intros E. destruct (conv_rate_check w a b oa ob Ha Hb E) as [_ ->].
      right. reflexivity.
  - rewrite (add_run w a b oa ob Ha Hb).
    destruct (Z.eqb_spec (len (samples oa)) (len (samples ob))) as [E|E];
      unfold raises; simpl.
    + tauto.
    + split; [intros _; exact E | reflexivity].
  - intros e. rewrite (add_run w a b oa ob Ha Hb).
    destruct (len (samples oa) =? len (samples ob)); unfold raises; simpl.
    + left. tauto.
    + assert (D : {e = length_mismatch} + {e <> length_mismatch}).
      { unfold length_mismatch. decide equality; apply string_dec. }
      destruct D as [D|D]; [right; exact D | left; congruence].
  - intros E. rewrite (add_run w a b oa ob Ha Hb), E, Z.eqb_refl.
    eexists _, _, _. split; [reflexivity | apply new_SoundWave_new].
Qed.

Definition w_rates : world :=
  {| heap := [ {| rate := 44100; samples := Int16 [1; 2] |};
               {| rate := 8000; samples := Int16 [3; 4] |} ];
     files := [] |}.

Lemma mismatch_errors_witness :
  (raises is_rate_mismatch (__rshift__ 0%nat 1%nat w_rates)
   <-> 44100 <> 8000) /\
  (raises is_rate_mismatch (__mul__ 0%nat 1%nat w_rates) <-> 44100 <> 8000) /\
  (raises is_rate_mismatch (__pow__ 0%nat 1%nat w_rates) <-> 44100 <> 8000) /\
  (raises (eq length_mismatch) (__add__ 0%nat 1%nat w_rates)
   <-> len (Int16 [1; 2]) <> len (Int16 [3; 4])) /\
  (forall e : exn, ~ raises (eq e) (__add__ 0%nat 1%nat w_rates)
                   \/ e = length_mismatch) /\
  (len (Int16 [1; 2]) = len (Int16 [3; 4]) ->
   exists (r : ref) (w' : world) (s : ndarray),
     __add__ 0%nat 1%nat w_rates = (Ok r, w') /\
     obj w' r = Some {| rate := 44100; samples := s |}).
Proof.
  exact (mismatch_errors w_rates 0%nat 1%nat
           {| rate := 44100; samples := Int16 [1; 2] |}
           {| rate := 8000; samples := Int16 [3; 4] |}
           eq_refl eq_refl).
Defined.

(** ** What [audio_sequence] builds *)

(** The sample values of one tone of [duration] seconds. *)
Definition tone_values (frequency : R) (duration : Z) : list R :=
  sine_wave frequency
    (linspace_points 0 (IZR duration) (Z.to_nat (44100 * duration))).

Definition empty_input : exn :=
  ValueError "Cannot generate audio for empty note sequence".

Lemma tone_values_length (frequency : R) (duration : Z) :
  length (tone_values frequency duration) = Z.to_nat (44100 * duration).
Proof.
  unfold tone_values, sine_wave, linspace_points.
  now rewrite !length_map, length_seq.
Qed.

Lemma generate_note_run (w : world) (frequency : R) (duration : Z) :
  generate_note frequency duration w =
  if 44100 * duration <? 0
  then (Raise (linspace_error (44100 * duration)), w)
  else new_SoundWave 44100 (Float64 (tone_values frequency duration)) w.
Proof.
  unfold generate_note, bind, lift, np_linspace.
  destruct (44100 * duration <? 0); reflexivity.
Qed.

Lemma append_notes_run (hertz : list R) (duration : Z) :
  0 <= duration ->
  forall (w : world) (audio : ref) (s : list R),
    obj w audio = Some {| rate := 44100; samples := Float64 s |} ->
    exists (r : ref) (w' : world),
      append_notes audio hertz duration w = (Ok r, w') /\
      obj w' r
      = Some {| rate := 44100;
                samples := fold_left np_concatenate
                             (map (fun f => Float64 (tone_values f duration))
                                hertz)
                             (Float64 s) |}.
Proof.
  intros Hd. induction hertz as [|f rest IH]; intros w audio s Haudio.
  - exists audio, w. split; [reflexivity | exact Haudio].
  - cbn [append_notes]. unfold bind at 1.
    rewrite generate_note_run.
    destruct (Z.ltb_spec (44100 * duration) 0); [lia|].
    set (w1 := snd (new_SoundWave 44100 (Float64 (tone_values f duration)) w)).
    change (new_SoundWave 44100 (Float64 (tone_values f duration)) w)
      with (Ok (length (heap w)), w1).
    cbv iota beta. unfold bind at 1.
    assert (H1 : obj w1 audio = Some {| rate := 44100; samples := Float64 s |})
      by (apply new_SoundWave_old; exact Haudio).
    assert (H2 : obj w1 (length (heap w))
                 = Some {| rate := 44100;
                           samples := Float64 (tone_values f duration) |})
      by apply new_SoundWave_new.
    rewrite (rshift_run w1 audio _ _ _ H1 H2). simpl rate. simpl samples.
    rewrite Z.eqb_refl.
    set (s' := s ++ tone_values f duration).
    set (w2 := snd (new_SoundWave 44100 (Float64 s') w1)).
    change (new_SoundWave 44100
              (np_concatenate (Float64 s) (Float64 (tone_values f duration)))
              w1)
      with (Ok (length (heap w1)), w2).
    cbv iota beta.
    destruct (IH w2 (length (heap w1)) s') as (r & w' & Hrun & Hobj).
    { apply new_SoundWave_new. }
    exists r, w'. split; [exact Hrun | exact Hobj].
Qed.

Lemma fold_concatenate_float64 (tones : list (list R)) (s : list R) :
  fold_left np_concatenate (map Float64 tones) (Float64 s)
  = Float64 (s ++ concat tones).
Proof.
  revert s. induction tones as [|t tones IH]; intros s; simpl.
  - now rewrite app_nil_r.
  - rewrite IH, <- app_assoc. reflexivity.
Qed.

Lemma getitem_NOTE_FREQ (note : string) :
  In note (map fst NOTE_FREQ) -> exists f : R, getitem NOTE_FREQ note = Ok f.
Proof.
  simpl. intros [H|[H|[H|[H|[H|[]]]]]]; subst note; eexists; reflexivity.
Qed.

Lemma lookup_notes_ok (notes : list string) :
  Forall (fun note => In note (map fst NOTE_FREQ)) notes ->
  exists hertz : list R,
    lookup_notes notes = Ok hertz /\
    Forall2 (fun note f => getitem NOTE_FREQ note = Ok f) notes hertz.
Proof.
  induction 1 as [|note notes Hin _ IH].
  - exists []. split; [reflexivity | constructor].
  - destruct (getitem_NOTE_FREQ note Hin) as (f & Hf).
    destruct IH as (fs & Hfs & Hall).
    exists (f :: fs). split; [|constructor; assumption].
    cbn [lookup_notes]. rewrite Hf. cbn [rbind]. rewrite Hfs. reflexivity.
Qed.

Lemma length_concat_const {A : Type} (ls : list (list A)) (k : nat) :
  Forall (fun l => length l = k) ls ->
  length (concat ls) = (length ls * k)%nat.
Proof.
  induction 1 as [|l ls Hl _ IH]; simpl; [reflexivity|].
  rewrite length_app, Hl, IH. reflexivity.
Qed.




(** ** The empty-input error *)

Lemma never_raises_raise {A : Type} (P : exn -> Prop) (e : exn) :
  ~ P e -> never_raises P (@raise A e).
Proof. intros H w. exact H. Qed.

Lemma lookup_notes_raises (notes : list string) (e : exn) :
  lookup_notes notes = Raise e -> exists key : string, e = KeyError key.
Proof.
  induction notes as [|note notes IH]; cbn [lookup_notes]; [discriminate|].
  destruct (getitem NOTE_FREQ note) as [f|e'] eqn:Hget; cbn [rbind].
  - destruct (lookup_notes notes) as [fs|e'']; cbn [rbind]; [discriminate|].
    intros H. apply IH. congruence.
  - intros H. injection H as <-. clear IH.
    induction NOTE_FREQ as [|[k v] d IHd]; cbn [getitem] in Hget.
    + injection Hget as <-. eexists. reflexivity.
    + destruct (String.eqb k note); [discriminate | auto].
Qed.

Lemma generate_note_not_empty_input (frequency : R) (duration : Z) :
  never_raises (eq empty_input) (generate_note frequency duration).
Proof.
  intros w. rewrite generate_note_run. unfold raises.
  destruct (44100 * duration <? 0); simpl; [discriminate | tauto].
Qed.

Lemma rshift_not_empty_input (a b : ref) :
  never_raises (eq empty_input) (__rshift__ a b).
Proof.
  assert (Href : ~ empty_input = ReferenceError) by discriminate.
  unfold __rshift__.
  apply never_raises_bind; [auto with raises | intros r].
  apply never_raises_bind; [auto with raises | intros r'].
  destruct (negb (r =? r')).
  - apply never_raises_raise. discriminate.
  - never_raises_steps.
Qed.

Lemma append_notes_not_empty_input (hertz : list R) (duration : Z) :
  forall audio : ref,
    never_raises (eq empty_input) (append_notes audio hertz duration).
Proof.
  induction hertz as [|f rest IH]; intros audio; cbn [append_notes].
  - apply never_raises_ret.
  - apply never_raises_bind; [apply generate_note_not_empty_input|].
    intros note.
    apply never_raises_bind; [apply rshift_not_empty_input|].
    intros audio'. apply IH.
Qed.

(** C9: [audio_sequence] raises its empty-input error on the empty list of
    notes, and on no other list, whatever the duration and the store. *)
Theorem audio_sequence_empty_input (w : world) (notes : list string) (d : Z) :
  fst (audio_sequence notes d w) = Raise empty_input <-> notes = [].
Proof.
  split.
  - intros H. destruct notes as [|note notes]; [reflexivity | exfalso].
    revert H. unfold audio_sequence.
    change (Z.of_nat (length (note :: notes)) =? 0) with false.
    cbv iota.
    set (m := bind _ _).
    assert (Hm : never_raises (eq empty_input) m).
    { unfold m. apply never_raises_bind.
      - apply never_raises_lift. intros e He.
        destruct (lookup_notes_raises _ _ He) as (key & ->). discriminate.
      - intros [|h0 rest].
        + apply never_raises_raise. discriminate.
        + apply never_raises_bind; [apply generate_note_not_empty_input|].
          intros audio. apply append_notes_not_empty_input. }
    intros H. apply (Hm w). unfold raises. rewrite H. reflexivity.
  - intros ->. reflexivity.
Qed.

(** ** Export *)

Definition all_zero (a : ndarray) : Prop :=
  match a with
  | Int16 l => Forall (eq 0) l
  | Float64 l => Forall (eq 0%R) l
  | Complex128 l => Forall (eq C0) l
  end.

(** Whether [export] rescales: [(self.samples.dtype != np.int16) or force]. *)
Definition rescales (a : ndarray) (force : bool) : bool :=
  match a with
  | Int16 _ => force
  | _ => true
  end.

Lemma wavfile_write_ok (w : world) (filename : string) (rate0 : Z)
  (data : list (option Z)) :
  0 <= rate0 < 2147483648 ->
  36 + 2 * Z.of_nat (length data) <= 4294967295 ->
  wavfile_write filename rate0 data w
  = (Ok tt,
     {| heap := heap w;
        files := (filename, WavFile {| wav_rate := rate0; wav_data := data |})
                 :: files w |}).
Proof.
  intros Hr Hs. unfold wavfile_write, header_fits, size_fits.
  destruct (Z.leb_spec 0 rate0); [|lia].
  destruct (Z.leb_spec (2 * rate0) 4294967295); [|lia].
  destruct (Z.leb_spec (36 + 2 * Z.of_nat (length data)) 4294967295); [|lia].
  reflexivity.
Qed.

Lemma wavfile_write_header_error (w : world) (filename : string) (rate0 : Z)
  (data : list (option Z)) :
  rate0 < 0 \/ 2147483648 <= rate0 ->
  wavfile_write filename rate0 data w
  = (Raise (StructError "'I' format requires 0 <= number <= 4294967295"),
     {| heap := heap w; files := (filename, EmptyFile) :: files w |}).
Proof.
  intros Hr. unfold wavfile_write, header_fits.
  destruct (Z.leb_spec 0 rate0), (Z.leb_spec (2 * rate0) 4294967295);
    try reflexivity; lia.
Qed.

Lemma export_run (w : world) (self : ref) (o : SoundWave) (filename : string)
  (force : bool) :
  obj w self = Some o ->
  export self filename force w =
  match (if rescales (samples o) force then rescale (samples o)
         else Ok (map Some match samples o with Int16 l => l | _ => [] end))
  with
  | Ok data => wavfile_write filename (rate o) data w
  | Raise e => (Raise e, w)
  end.
Proof.
  intros Ho. unfold export, bind, getattr_samples, getattr_rate, lift.
  rewrite Ho.
  destruct (samples o) as [l|l|l]; cbn [rescales];
    try destruct force;
    match goal with
    | |- context [rescale ?a] => destruct (rescale a); [rewrite Ho|]
    | _ => rewrite Ho
    end; reflexivity.
Qed.

Lemma fold_left_Rmax_zero (v : list R) :
  Forall (eq 0%R) v -> fold_left Rmax v 0%R = 0%R.
Proof.
  induction 1 as [|x v Hx _ IH]; simpl; [reflexivity|].
  subst x. rewrite Rmax_left by lra. exact IH.
Qed.

Lemma Cabs_C0 : Cabs C0 = 0%R.
Proof.
  unfold Cabs, C0. simpl.
  replace (0 * 0 + 0 * 0)%R with 0%R by ring. apply sqrt_0.
Qed.

Lemma np_abs_max_all_zero (a : ndarray) :
  all_zero a -> size a <> O -> np_abs_max a = Ok 0%R.
Proof.
  intros Hz Hn. unfold np_abs_max.
  destruct a as [l|l|l]; simpl in Hz, Hn;
    (destruct l as [|x l]; [exfalso; apply Hn; reflexivity|]);
    inversion Hz as [|? ? Hx Hl]; subst; cbn [map].
  - change (IZR (wrap16 (Z.abs 0))) with 0%R.
    f_equal. apply fold_left_Rmax_zero.
    apply Forall_map. eapply Forall_impl; [|exact Hl].
    intros z <-. reflexivity.
  - rewrite Rabs_R0. f_equal. apply fold_left_Rmax_zero.
    apply Forall_map. eapply Forall_impl; [|exact Hl].
    intros z <-. symmetry. apply Rabs_R0.
  - rewrite Cabs_C0. f_equal. apply fold_left_Rmax_zero.
    apply Forall_map. eapply Forall_impl; [|exact Hl].
    intros z <-. symmetry. apply Cabs_C0.
Qed.

Lemma map_constant {A B : Type} (b : B) (l : list A) :
  map (fun _ => b) l = repeat b (length l).
Proof. induction l; simpl; congruence. Qed.

Lemma np_true_divide_by_zero (a : ndarray) :
  np_true_divide a 0%R = repeat None (size a).
Proof.
  unfold np_true_divide. rewrite <- size_as_complex128, <- map_constant.
  apply map_ext. intros c. destruct (Req_EM_T 0 0); [reflexivity | lra].
Qed.

Lemma rescale_all_zero (a : ndarray) :
  all_zero a -> size a <> O -> rescale a = Ok (repeat None (size a)).
Proof.
  intros Hz Hn. unfold rescale.
  rewrite (np_abs_max_all_zero a Hz Hn). cbn [rbind].
  rewrite np_true_divide_by_zero.
  unfold astype_int16, np_real, np_imul.
  rewrite !map_map. rewrite <- (repeat_length (@None C) (size a)) at 2.
  rewrite <- map_constant. f_equal.
  apply map_ext_in. intros x Hx. apply repeat_spec in Hx. subst x. reflexivity.
Qed.

Lemma rescale_empty (a : ndarray) :
  size a = O ->
  rescale a
  = Raise (ValueError
      "zero-size array to reduction operation maximum which has no identity").
Proof.
  intros Hn. unfold rescale, np_abs_max.
  destruct a as [[|x l]|[|x l]|[|x l]]; simpl in Hn; try discriminate Hn;
    reflexivity.
Qed.

Lemma export_all_zero_run (w : world) (self : ref) (o : SoundWave)
  (filename : string) (force : bool) :
  obj w self = Some o ->
  all_zero (samples o) -> size (samples o) <> O ->
  0 <= rate o < 2147483648 ->
  36 + 2 * len (samples o) <= 4294967295 ->
  export self filename force w =
  (Ok tt,
   {| heap := heap w;
      files := (filename,
                WavFile
                  {| wav_rate := rate o;
                     wav_data :=
                       repeat (if rescales (samples o) force then None
                               else Some 0)
                         (size (samples o)) |})
               :: files w |}).
Proof.
  intros Ho Hz Hn Hrate Hsize. rewrite (export_run w self o filename force Ho).
  unfold len in Hsize.
  destruct (rescales (samples o) force) eqn:Hr.
  - rewrite (rescale_all_zero _ Hz Hn).
    apply wavfile_write_ok; [exact Hrate|]. now rewrite repeat_length.
  - destruct (samples o) as [l|l|l]; try discriminate Hr.
    simpl in Hz. cbn [size] in *.
    assert (E : map Some l = repeat (Some 0) (length l)).
    { clear -Hz. induction Hz as [|x l Hx _ IH]; simpl; [reflexivity|].
      subst x. now rewrite IH. }
    rewrite E. apply wavfile_write_ok; [exact Hrate|]. now rewrite repeat_length.
Qed.

(** Two seconds of nothing: a silent [float64] buffer. *)
Definition w_silent : world :=
  {| heap := [ {| rate := 44100; samples := Float64 [0%R; 0%R] |} ];
     files := [] |}.

(** C2, as the code has it: exporting a non-empty waveform whose samples are
    all zero, at a rate that fits the unsigned 32-bit fields of the header
    ([0 <= rate < 2**31]) and with samples that fit the 32-bit size field
    ([36 + 2 * N <= 2**32 - 1]), raises nothing.  When the samples are
    rescaled (their dtype is not [int16], or [force] is set) the peak is
    zero, every quotient is [0/0], and the file is written all the same, with
    one cast of a value that is not finite per sample; [int16] zeros that are
    not rescaled are written as they are.  The store of waveforms is left as
    it was. *)
Theorem export_silent_does_not_raise (w : world) (self : ref) (o : SoundWave)
  (filename : string) (force : bool) :
  obj w self = Some o ->
  all_zero (samples o) -> size (samples o) <> O ->
  0 <= rate o < 2147483648 ->
  36 + 2 * len (samples o) <= 4294967295 ->
  exists w' : world,
    export self filename force w = (Ok tt, w') /\
    heap w' = heap w /\
    files w'
    = (filename,
       WavFile
         {| wav_rate := rate o;
            wav_data := repeat (if rescales (samples o) force then None
                                else Some 0)
                          (size (samples o)) |})
      :: files w.
Proof.
  intros Ho Hz Hn Hrate Hsize. eexists. split; [|split].
  - apply (export_all_zero_run w self o filename force Ho Hz Hn Hrate Hsize).
  - reflexivity.
  - reflexivity.
Qed.

Lemma export_silent_does_not_raise_witness :
  exists w' : world,
    export 0%nat "silence.wav" true w_silent = (Ok tt, w') /\
    heap w' = heap w_silent /\
    files w'
    = [("silence.wav",
        WavFile {| wav_rate := 44100; wav_data := [None; None] |})].
Proof.
  apply (export_silent_does_not_raise w_silent 0%nat
           {| rate := 44100; samples := Float64 [0%R; 0%R] |}
           "silence.wav" true).
  - reflexivity.
  - simpl. repeat constructor.
  - simpl. discriminate.
  - simpl. lia.
  - vm_compute. discriminate.
Defined.

(** C2, as stated, fails on a silent [float64] buffer: [export] returns
    normally and the file holds the casts of two values that are not
    finite. *)
Lemma export_silent_float_buffer_written :
  export 0%nat "silence.wav" false w_silent
  = (Ok tt,
     {| heap := heap w_silent;
        files := [("silence.wav",
                   WavFile {| wav_rate := 44100;
                              wav_data := [None; None] |})] |})
  /\ forall e : exn,
       fst (export 0%nat "silence.wav" false w_silent) <> Raise e.
Proof.
  assert (H : export 0%nat "silence.wav" false w_silent
              = (Ok tt,
                 {| heap := heap w_silent;
                    files := [("silence.wav",
                               WavFile {| wav_rate := 44100;
                                          wav_data := [None; None] |})] |})).
  { apply (export_all_zero_run w_silent 0%nat
             {| rate := 44100; samples := Float64 [0%R; 0%R] |}
             "silence.wav" false).
    - reflexivity.
    - simpl. repeat constructor.
    - simpl. discriminate.
    - simpl. lia.
    - vm_compute. discriminate. }
  split; [exact H|]. intros e. rewrite H. discriminate.
Qed.

Lemma export_empty_raises (w : world) (self : ref) (o : SoundWave)
  (filename : string) (force : bool) :
  obj w self = Some o -> size (samples o) = O ->
  rescales (samples o) force = true ->
  export self filename force w
  = (Raise (ValueError
       "zero-size array to reduction operation maximum which has no identity"),
     w).
Proof.
  intros Ho Hn Hr. rewrite (export_run w self o filename force Ho), Hr.
  rewrite (rescale_empty _ Hn). reflexivity.
Qed.

(** ** The band filter *)

Lemma fill_range_length {A : Type} (z : A) (lo hi i : Z) (l : list A) :
  length (fill_range z lo hi i l) = length l.
Proof. revert i. induction l as [|x l IH]; intros i; simpl; auto. Qed.

Lemma fill_range_cover {A : Type} (z : A) (lo1 hi1 lo2 hi2 : Z) (l : list A) :
  forall i : Z,
    (forall j : Z, i <= j < i + Z.of_nat (length l) ->
                   lo1 <= j < hi1 \/ lo2 <= j < hi2) ->
    fill_range z lo2 hi2 i (fill_range z lo1 hi1 i l) = repeat z (length l).
Proof.
  induction l as [|x l IH]; intros i H; [reflexivity|].
  cbn [fill_range length repeat]. f_equal.
  - assert (Hi : lo1 <= i < hi1 \/ lo2 <= i < hi2)
      by (apply H; cbn [length]; lia).
    destruct (Z.leb_spec lo2 i), (Z.ltb_spec i hi2); cbn [andb];
      try reflexivity;
      destruct (Z.leb_spec lo1 i), (Z.ltb_spec i hi1); cbn [andb];
      try reflexivity; lia.
  - apply IH. intros j Hj. apply H. cbn [length]. lia.
Qed.

Lemma size_setitem_slice_zero (a : ndarray) (lo hi : Z) :
  size (setitem_slice_zero a lo hi) = size a.
Proof. destruct a; simpl; apply fill_range_length. Qed.

(** With [k_low = 0] and [k_high] at least half the number of bins, the two
    slice assignments of [clean] clear every bin. *)
Lemma full_band_zeroed (x : list C) (kh : Z) :
  let n := Z.of_nat (length x) in
  n <= 2 * kh ->
  setitem_slice_zero (setitem_slice_zero (Complex128 x) 0 kh) (n - kh) (n - 0)
  = Complex128 (repeat C0 (length x)).
Proof.
  intros n Hkh. unfold setitem_slice_zero at 2.
  unfold setitem_slice_zero. unfold len. cbn [size].
  rewrite fill_range_length. fold n. f_equal.
  apply fill_range_cover. intros j Hj. fold n in Hj.
  unfold slice_index.
  destruct (Z.ltb_spec 0 0); [lia|].
  destruct (Z.ltb_spec kh 0); [lia|].
  destruct (Z.ltb_spec (n - 0) 0); [lia|].
  destruct (Z.ltb_spec (n - kh) 0); lia.
Qed.

Lemma Cmult_C0_l (c : C) : Cmult C0 c = C0.
Proof. unfold Cmult, C0. simpl. f_equal; ring. Qed.

Lemma Cscal_C0 (r : R) : Cscal r C0 = C0.
Proof. unfold Cscal, C0. simpl. f_equal; ring. Qed.

Lemma Csum_zeros (l : list C) : Forall (eq C0) l -> Csum l = C0.
Proof.
  induction 1 as [|c l Hc _ IH]; simpl; [reflexivity|].
  subst c. rewrite IH. unfold Cplus, C0. simpl. f_equal; ring.
Qed.

Lemma dft_coeff_zeros (sign : R) (n k : nat) :
  dft_coeff sign (repeat C0 n) k = C0.
Proof.
  unfold dft_coeff. apply Csum_zeros.
  apply Forall_map, Forall_forall. intros j _.
  rewrite nth_repeat. symmetry. apply Cmult_C0_l.
Qed.

Lemma dft_zeros (sign : R) (n : nat) : dft sign (repeat C0 n) = repeat C0 n.
Proof.
  unfold dft. rewrite repeat_length.
  rewrite (map_ext _ (fun _ => C0) (dft_coeff_zeros sign n)).
  now rewrite map_constant, length_seq.
Qed.

Lemma idft_zeros (n : nat) : idft (repeat C0 n) = repeat C0 n.
Proof.
  unfold idft. rewrite dft_zeros, map_repeat, Cscal_C0. reflexivity.
Qed.

Lemma setattr_samples_run (w : world) (self : ref) (o : SoundWave)
  (v : ndarray) :
  obj w self = Some o ->
  setattr_samples self v w
  = (Ok tt,
     {| heap := update (heap w) self {| rate := rate o; samples := v |};
        files := files w |}).
Proof. intros Ho. unfold setattr_samples. rewrite Ho. reflexivity. Qed.

Lemma clean_run (w : world) (self : ref) (o : SoundWave)
  (low high : float64) (kl kh : Z) :
  obj w self = Some o -> size (samples o) <> O ->
  freq_bin low (len (samples o)) (rate o) = Ok kl ->
  freq_bin high (len (samples o)) (rate o) = Ok kh ->
  let x := dft (-1) (as_complex128 (samples o)) in
  let n := len (samples o) in
  clean self low high w
  = setattr_samples self
      (Complex128
         (idft (as_complex128
                  (setitem_slice_zero
                     (setitem_slice_zero (Complex128 x) kl kh)
                     (n - kh) (n - kl)))))
      w.
Proof.
  intros Ho Hn Hkl Hkh x n.
  assert (Hlen : len (Complex128 x) = n).
  { unfold len, x. cbn [size]. now rewrite dft_length, size_as_complex128. }
  unfold clean, bind, getattr_samples, getattr_rate, lift.
  rewrite Ho. cbv beta iota. rewrite Ho. cbv beta iota.
  rewrite Hkl. cbv beta iota.
  rewrite Hkh. cbv beta iota. rewrite (fft_ok _ Hn). cbv beta iota zeta.
  fold x. rewrite Hlen. rewrite ifft_ok; [reflexivity|].
  rewrite !size_setitem_slice_zero. cbn [size]. unfold x.
  now rewrite dft_length, size_as_complex128.
Qed.

Lemma freq_bin_zero (high : float64) (n r kh : Z) :
  freq_bin high n r = Ok kh -> freq_bin (py_float 0) n r = Ok 0.
Proof.
  unfold freq_bin, int_truediv.
  destruct (r =? 0); cbn [rbind]; [discriminate|].
  change (py_float 0) with (S754_zero false).
  destruct (fdiv (py_float n) (py_float r)) as [s|s| |s m e].
  - intros _. reflexivity.
  - destruct high; cbn; discriminate.
  - destruct high; cbn; discriminate.
  - intros _. reflexivity.
Qed.

(** The half of the sample rate, as [rate / 2] computes it. *)
Definition half_rate (r : Z) : float64 := fdiv (py_float r) (py_float 2).

Lemma clean_full_band_run (w : world) (self : ref) (o : SoundWave) (kh : Z) :
  obj w self = Some o ->
  1 <= len (samples o) ->
  freq_bin (half_rate (rate o)) (len (samples o)) (rate o) = Ok kh ->
  len (samples o) <= 2 * kh ->
  clean self (py_float 0) (half_rate (rate o)) w
  = (Ok tt,
     {| heap := update (heap w) self
                  {| rate := rate o;
                     samples := Complex128 (repeat C0 (size (samples o))) |};
        files := files w |}).
Proof.
  intros Ho Hn Hkh Hhalf.
  assert (Hsz : size (samples o) <> O) by (unfold len in Hn; lia).
  rewrite (clean_run w self o _ _ 0 kh Ho Hsz (freq_bin_zero _ _ _ _ Hkh) Hkh).
  cbv zeta.
  assert (Hlen : len (samples o)
                 = Z.of_nat (length (dft (-1) (as_complex128 (samples o))))).
  { unfold len. now rewrite dft_length, size_as_complex128. }
  rewrite Hlen, full_band_zeroed by lia.
  cbn [as_complex128]. rewrite idft_zeros, dft_length, size_as_complex128.
  apply setattr_samples_run. exact Ho.
Qed.

(** Every sample within [eps] of zero, in modulus. *)
Definition near_zero (eps : R) (a : ndarray) : Prop :=
  Forall (fun c => (Cabs c <= eps)%R) (as_complex128 a).

Lemma near_zero_zeros (eps : R) (n : nat) :
  (0 <= eps)%R -> near_zero eps (Complex128 (repeat C0 n)).
Proof.
  intros Heps. unfold near_zero. cbn [as_complex128].
  apply Forall_forall. intros c Hc. apply repeat_spec in Hc. subst c.
  rewrite Cabs_C0. exact Heps.
Qed.

(** The bin index of [rate / 2], computed in binary64 as the source does:
    half the number of samples for a one-second buffer, one less than half
    for thirty samples (the quotient [30 / 44100] is rounded down and the
    product falls just short of 15), and 0 for a single sample. *)
Example freq_bin_one_second :
  freq_bin (half_rate 44100) 44100 44100 = Ok 22050.
Proof. vm_compute. reflexivity. Qed.

Example freq_bin_thirty_samples :
  freq_bin (half_rate 44100) 30 44100 = Ok 14.
Proof. vm_compute. reflexivity. Qed.

Example freq_bin_single_sample :
  freq_bin (half_rate 44100) 1 44100 = Ok 0.
Proof. vm_compute. reflexivity. Qed.

(** C3, as the code has it: [clean(0, rate / 2)] clears every bin, and so
    leaves samples that are exactly zero, on every non-empty waveform for
    which the computed [k_high = int(high_freq * (len / rate))] reaches half
    the number of samples. *)
Theorem clean_full_band_zero (w : world) (self : ref) (o : SoundWave) (kh : Z) :
  obj w self = Some o ->
  1 <= len (samples o) ->
  freq_bin (half_rate (rate o)) (len (samples o)) (rate o) = Ok kh ->
  len (samples o) <= 2 * kh ->
  exists (w' : world) (s : ndarray),
    clean self (py_float 0) (half_rate (rate o)) w = (Ok tt, w') /\
    obj w' self = Some {| rate := rate o; samples := s |} /\
    s = Complex128 (repeat C0 (size (samples o))) /\
    forall eps : R, (0 <= eps)%R -> near_zero eps s.
Proof.
  intros Ho Hn Hkh Hhalf. eexists _, _.
  split; [apply (clean_full_band_run w self o kh Ho Hn Hkh Hhalf)|].
  split.
  { unfold obj. cbn [heap]. apply nth_error_update_same.
    eapply obj_some_lt. exact Ho. }
  split; [reflexivity|].
  intros eps Heps. now apply near_zero_zeros.
Qed.

Definition w_two : world :=
  {| heap := [ {| rate := 44100; samples := Int16 [1; 0] |} ];
     files := [] |}.

Lemma clean_full_band_zero_witness :
  exists (w' : world) (s : ndarray),
    clean 0%nat (py_float 0) (half_rate 44100) w_two = (Ok tt, w') /\
    obj w' 0%nat = Some {| rate := 44100; samples := s |} /\
    s = Complex128 [C0; C0] /\
    forall eps : R, (0 <= eps)%R -> near_zero eps s.
Proof.
  apply (clean_full_band_zero w_two 0%nat
           {| rate := 44100; samples := Int16 [1; 0] |} 1).
  - reflexivity.
  - change (1 <= 2). lia.
  - vm_compute. reflexivity.
  - change (2 <= 2 * 1). lia.
Defined.

Lemma twiddle_0 (sign : R) (n : nat) : twiddle sign n 0 = (1%R, 0%R).
Proof.
  unfold twiddle. cbn [INR].
  replace (2 * PI * 0 / INR n)%R with 0%R by (unfold Rdiv; ring).
  rewrite cos_0, sin_0. f_equal. ring.
Qed.

Lemma dft_singleton (sign : R) (c : C) : dft sign [c] = [c].
Proof.
  unfold dft, dft_coeff. cbn [length seq map nth Nat.mul Csum fold_right].
  rewrite twiddle_0. destruct c as [x y].
  unfold Cplus, Cmult, C0. cbn [fst snd]. do 2 f_equal; ring.
Qed.

Lemma idft_singleton (c : C) : idft [c] = [c].
Proof.
  unfold idft. rewrite dft_singleton. cbn [map length INR].
  rewrite Rinv_1. destruct c as [x y]. unfold Cscal. cbn [fst snd].
  do 2 f_equal; ring.
Qed.

Lemma Cabs_one : Cabs (1%R, 0%R) = 1%R.
Proof.
  unfold Cabs. cbn [fst snd].
  replace (1 * 1 + 0 * 0)%R with 1%R by ring. apply sqrt_1.
Qed.

(** One sample of amplitude 1. *)
Definition w_one : world :=
  {| heap := [ {| rate := 44100; samples := Float64 [1%R] |} ];
     files := [] |}.

(** C3, as stated, fails on a waveform of one sample: [k_high] is
    [int(0.5) = 0], no bin is cleared, and the sample comes back with its
    amplitude 1. *)
Lemma clean_full_band_keeps_single_sample :
  clean 0%nat (py_float 0) (half_rate 44100) w_one
  = (Ok tt,
     {| heap := [ {| rate := 44100;
                     samples := Complex128 [(1%R, 0%R)] |} ];
        files := [] |})
  /\ 1 <= len (Float64 [1%R])
  /\ forall eps : R, (eps < 1)%R -> ~ near_zero eps (Complex128 [(1%R, 0%R)]).
Proof.
  split; [|split].
  - assert (Hkl : freq_bin (py_float 0) (len (Float64 [1%R])) 44100 = Ok 0)
      by (vm_compute; reflexivity).
    assert (Hkh : freq_bin (half_rate 44100) (len (Float64 [1%R])) 44100 = Ok 0)
      by (vm_compute; reflexivity).
    rewrite (clean_run w_one 0%nat
               {| rate := 44100; samples := Float64 [1%R] |}
               _ _ 0 0 eq_refl).
    + cbv zeta. cbn [samples as_complex128 map].
      rewrite dft_singleton.
      change (setitem_slice_zero
                (setitem_slice_zero (Complex128 [RtoC 1]) 0 0)
                (len (Float64 [1%R]) - 0) (len (Float64 [1%R]) - 0))
        with (Complex128 [RtoC 1]).
      cbn [as_complex128]. rewrite idft_singleton. reflexivity.
    + simpl. discriminate.
    + exact Hkl.
    + exact Hkh.
  - change (1 <= 1). lia.
  - intros eps Heps H. unfold near_zero in H. cbn [as_complex128] in H.
    inversion H as [|c l Hc _]; subst. rewrite Cabs_one in Hc. lra.
Qed.

(** ** Which operations change a waveform *)

(** A computation that leaves the whole state as it found it. *)
Definition reads {A : Type} (m : Py A) : Prop :=
  forall w : world, snd (m w) = w.

(** A computation that either raises, leaving the state as it was, or ends
    by creating one new instance in the state it started from. *)
Definition fresh_or_raise (m : Py ref) : Prop :=
  forall w : world,
    (exists e : exn, m w = (Raise e, w)) \/
    (exists (rt : Z) (s : ndarray), m w = new_SoundWave rt s w).

(** A computation that either raises, leaving the state as it was, or ends
    by assigning to [self.samples] in the state it started from. *)
Definition setattr_or_raise (self : ref) (m : Py unit) : Prop :=
  forall w : world,
    (exists e : exn, m w = (Raise e, w)) \/
    (exists v : ndarray, m w = setattr_samples self v w).

Definition keeps_heap {A : Type} (m : Py A) : Prop :=
  forall w : world, heap (snd (m w)) = heap w.

Lemma reads_getattr_rate (r : ref) : reads (getattr_rate r).
Proof. intros w. unfold getattr_rate. destruct (obj w r); reflexivity. Qed.

Lemma reads_getattr_samples (r : ref) : reads (getattr_samples r).
Proof. intros w. unfold getattr_samples. destruct (obj w r); reflexivity. Qed.

Lemma reads_lift {A : Type} (x : result A) : reads (lift x).
Proof. intros w. reflexivity. Qed.

Lemma fresh_or_raise_bind {A : Type} (m : Py A) (k : A -> Py ref) :
  reads m -> (forall a : A, fresh_or_raise (k a)) ->
  fresh_or_raise (bind m k).
Proof.
  intros Hm Hk w. unfold bind. specialize (Hm w).
  destruct (m w) as [[a|e] w1]; simpl in Hm; subst w1.
  - apply Hk.
  - left. exists e. reflexivity.
Qed.

Lemma fresh_or_raise_raise (e : exn) : fresh_or_raise (raise e).
Proof. intros w. left. exists e. reflexivity. Qed.

Lemma fresh_or_raise_new (rt : Z) (s : ndarray) :
  fresh_or_raise (new_SoundWave rt s).
Proof. intros w. right. exists rt, s. reflexivity. Qed.

Lemma setattr_or_raise_bind {A : Type} (self : ref) (m : Py A)
  (k : A -> Py unit) :
  reads m -> (forall a : A, setattr_or_raise self (k a)) ->
  setattr_or_raise self (bind m k).
Proof.
  intros Hm Hk w. unfold bind. specialize (Hm w).
  destruct (m w) as [[a|e] w1]; simpl in Hm; subst w1.
  - apply Hk.
  - left. exists e. reflexivity.
Qed.

Lemma keeps_heap_reads {A : Type} (m : Py A) : reads m -> keeps_heap m.
Proof. intros Hm w. now rewrite Hm. Qed.


Lemma keeps_heap_wavfile_write (filename : string) (rt : Z)
  (data : list (option Z)) :
  keeps_heap (wavfile_write filename rt data).
Proof.
  intros w. unfold wavfile_write.
  destruct (header_fits rt); [destruct (size_fits data)|]; reflexivity.
Qed.

Create HintDb frame.

#[local] Hint Resolve reads_getattr_rate reads_getattr_samples reads_lift
  fresh_or_raise_raise fresh_or_raise_new keeps_heap_reads
  keeps_heap_wavfile_write : frame.

Ltac fresh_or_raise_steps :=
  repeat first
    [ apply fresh_or_raise_bind; [auto with frame | intros ?]
    | match goal with
      | |- fresh_or_raise (if ?c then _ else _) => destruct c
      end ];
  auto with frame.


Lemma rshift_fresh_or_raise (a b : ref) : fresh_or_raise (__rshift__ a b).
Proof. unfold __rshift__. fresh_or_raise_steps. Qed.



Lemma clean_setattr_or_raise (self : ref) (low high : float64) :
  setattr_or_raise self (clean self low high).
Proof.
  unfold clean.
  repeat (apply setattr_or_raise_bind; [auto with frame | intros ?]).
  intros w. right. eexists. reflexivity.
Qed.







(** * Further properties of the operators *)

(** ** Convolution in either order *)

Lemma Cmult_comm (a b : C) : Cmult a b = Cmult b a.
Proof. unfold Cmult. f_equal; ring. Qed.

Lemma spectral_product_comm (f g : ndarray) :
  spectral_product f g = spectral_product g f.
Proof.
  unfold spectral_product. do 2 f_equal. apply map2_comm, Cmult_comm.
Qed.

(** On two waveforms of one rate and one non-zero length, [a * b] and
    [b * a] both succeed and carry the same samples, as many as each
    operand has. *)
Theorem mul_commutes_on_equal_lengths (w : world) (a b : ref)
  (oa ob : SoundWave) :
  obj w a = Some oa -> obj w b = Some ob ->
  rate oa = rate ob ->
  len (samples oa) = len (samples ob) -> 1 <= len (samples oa) ->
  exists (r1 r2 : ref) (w1 w2 : world) (s : ndarray),
    __mul__ a b w = (Ok r1, w1) /\
    __mul__ b a w = (Ok r2, w2) /\
    obj w1 r1 = Some {| rate := rate oa; samples := s |} /\
    obj w2 r2 = Some {| rate := rate oa; samples := s |} /\
    len s = len (samples oa).
Proof.
  intros Ha Hb Hr Hlen Hpos.
  assert (Hsz : (0 < size (samples oa) + size (samples ob))%nat)
    by (unfold len in *; lia).
  assert (Hsz' : (0 < size (samples ob) + size (samples oa))%nat) by lia.
  pose proof (mul_run w a b oa ob Ha Hb Hr Hsz) as H1.
  pose proof (mul_run w b a ob oa Hb Ha (eq_sym Hr) Hsz') as H2.
  cbv zeta in H1, H2.
  assert (Hpad : forall x y : ndarray, len x = len y ->
            Z.to_nat (Z.abs (len (pad_zeros x (Z.to_nat (Z.abs (len y - len x))))
                             - len y)) = O
            /\ Z.to_nat (Z.abs (len y - len x)) = O).
  { intros x y E. rewrite E, Z.sub_diag. cbn [Z.abs Z.to_nat].
    unfold len. rewrite size_pad_zeros. unfold len in E. split; lia. }
  destruct (Hpad _ _ Hlen) as [E1 E2].
  destruct (Hpad _ _ (eq_sym Hlen)) as [E3 E4].
  rewrite E1, E2 in H1. rewrite E3, E4 in H2.
  rewrite (spectral_product_comm (pad_zeros (samples ob) 0)) in H2.
  rewrite <- Hr in H2.
  eexists _, _, _, _, _.
  split; [rewrite H1; reflexivity|].
  split; [rewrite H2; reflexivity|].
  split; [apply new_SoundWave_new|].
  split; [apply new_SoundWave_new|].
  unfold len in *. rewrite size_spectral_product, !size_pad_zeros. lia.
Qed.

Definition w_conv : world :=
  {| heap := [ {| rate := 8000; samples := Int16 [1; 2; 3] |};
               {| rate := 8000; samples := Float64 [1%R; 0%R; 1%R] |} ];
     files := [] |}.

Lemma mul_commutes_on_equal_lengths_witness :
  exists (r1 r2 : ref) (w1 w2 : world) (s : ndarray),
    __mul__ 0%nat 1%nat w_conv = (Ok r1, w1) /\
    __mul__ 1%nat 0%nat w_conv = (Ok r2, w2) /\
    obj w1 r1 = Some {| rate := 8000; samples := s |} /\
    obj w2 r2 = Some {| rate := 8000; samples := s |} /\
    len s = 3.
Proof.
  assert (H33 : 3 = 3) by reflexivity.
  assert (H13 : 1 <= 3) by lia.
  exact (mul_commutes_on_equal_lengths w_conv 0%nat 1%nat
           {| rate := 8000; samples := Int16 [1; 2; 3] |}
           {| rate := 8000; samples := Float64 [1%R; 0%R; 1%R] |}
           eq_refl eq_refl eq_refl H33 H13).
Defined.

(** On two non-empty waveforms of one rate, of any two lengths, [a ** b]
    and [b ** a] both succeed and carry the same samples. *)
Theorem pow_commutes (w : world) (a b : ref) (oa ob : SoundWave) :
  obj w a = Some oa -> obj w b = Some ob ->
  rate oa = rate ob ->
  1 <= len (samples oa) -> 1 <= len (samples ob) ->
  exists (r1 r2 : ref) (w1 w2 : world) (s : ndarray),
    __pow__ a b w = (Ok r1, w1) /\
    __pow__ b a w = (Ok r2, w2) /\
    obj w1 r1 = Some {| rate := rate oa; samples := s |} /\
    obj w2 r2 = Some {| rate := rate oa; samples := s |}.
Proof.
  intros Ha Hb Hr Hm Hn.
  pose proof (pow_run w a b oa ob Ha Hb Hr Hm Hn) as H1.
  pose proof (pow_run w b a ob oa Hb Ha (eq_sym Hr) Hn Hm) as H2.
  cbv zeta in H1, H2.
  rewrite (Z.add_comm (len (samples oa)) (len (samples ob))) in H2.
  rewrite spectral_product_comm in H2.
  rewrite <- Hr in H2.
  rewrite (Z.add_comm (len (samples ob)) (len (samples oa))) in H2 at 3.
  eexists _, _, _, _, _.
  split; [rewrite H1; reflexivity|].
  split; [rewrite H2; reflexivity|].
  split; apply new_SoundWave_new.
Qed.

Definition w_pow2 : world :=
  {| heap := [ {| rate := 8000; samples := Int16 [1; 2; 3] |};
               {| rate := 8000; samples := Float64 [1%R] |} ];
     files := [] |}.

Lemma pow_commutes_witness :
  exists (r1 r2 : ref) (w1 w2 : world) (s : ndarray),
    __pow__ 0%nat 1%nat w_pow2 = (Ok r1, w1) /\
    __pow__ 1%nat 0%nat w_pow2 = (Ok r2, w2) /\
    obj w1 r1 = Some {| rate := 8000; samples := s |} /\
    obj w2 r2 = Some {| rate := 8000; samples := s |}.
Proof.
  assert (H13 : 1 <= 3) by lia.
  assert (H11 : 1 <= 1) by lia.
  exact (pow_commutes w_pow2 0%nat 1%nat
           {| rate := 8000; samples := Int16 [1; 2; 3] |}
           {| rate := 8000; samples := Float64 [1%R] |}
           eq_refl eq_refl eq_refl H13 H11).
Defined.

(** ** Empty operands *)

Lemma mul_unfold (w : world) (a b : ref) (oa ob : SoundWave) :
  obj w a = Some oa -> obj w b = Some ob -> rate oa = rate ob ->
  __mul__ a b w
  = (f <- lift (np_pad (samples oa)
                  (Z.abs (len (samples ob) - len (samples oa)))) ;;
     g <- lift (np_pad (samples ob) (Z.abs (len f - len (samples ob)))) ;;
     ff <- lift (fft f) ;;
     fg <- lift (fft g) ;;
     conv <- lift (ifft (np_multiply ff fg)) ;;
     new_SoundWave (rate oa) conv) w.
Proof.
  intros Ha Hb Hr. unfold __mul__.
  unfold bind at 1 2 3 4. unfold getattr_rate, getattr_samples.
  rewrite Ha, Hb, Hr, Z.eqb_refl. cbn [negb]. rewrite Ha, Hb.
  reflexivity.
Qed.

Lemma pow_unfold (w : world) (a b : ref) (oa ob : SoundWave) :
  obj w a = Some oa -> obj w b = Some ob -> rate oa = rate ob ->
  __pow__ a b w
  = (let m := len (samples oa) in
     let n := len (samples ob) in
     e <- lift (int_ceil_log2 (n + m - 1)) ;;
     f <- lift (np_pad (samples oa) (2 ^ e - m)) ;;
     g <- lift (np_pad (samples ob) (2 ^ e - n)) ;;
     ff <- lift (fft f) ;;
     fg <- lift (fft g) ;;
     conv <- lift (ifft (np_multiply ff fg)) ;;
     new_SoundWave (rate oa) (getitem_slice_to conv (m + n - 1))) w.
Proof.
  intros Ha Hb Hr. unfold __pow__.
  unfold bind at 1 2 3 4. unfold getattr_rate, getattr_samples.
  rewrite Ha, Hb, Hr, Z.eqb_refl. cbn [negb]. rewrite Ha, Hb.
  reflexivity.
Qed.

Lemma size_0_empty (a : ndarray) :
  size a = O -> a = Int16 [] \/ a = Float64 [] \/ a = Complex128 [].
Proof.
  destruct a as [[|x l]|[|x l]|[|x l]]; simpl; intros H;
    try discriminate H; auto.
Qed.

(** The circular convolution of two empty waveforms of one rate is refused
    by the transform, and no instance is created. *)
Theorem mul_empty_raises (w : world) (a b : ref) (oa ob : SoundWave) :
  obj w a = Some oa -> obj w b = Some ob -> rate oa = rate ob ->
  size (samples oa) = O -> size (samples ob) = O ->
  __mul__ a b w
  = (Raise (ValueError "invalid number of data points (0) specified"), w).
Proof.
  intros Ha Hb Hr Hza Hzb.
  rewrite (mul_unfold w a b oa ob Ha Hb Hr).
  destruct (size_0_empty _ Hza) as [E|[E|E]];
    destruct (size_0_empty _ Hzb) as [E'|[E'|E']];
    rewrite E, E'; reflexivity.
Qed.

Definition w_empty : world :=
  {| heap := [ {| rate := 8000; samples := Int16 [] |};
               {| rate := 8000; samples := Float64 [] |};
               {| rate := 8000; samples := Int16 [7] |} ];
     files := [] |}.

Lemma mul_empty_raises_witness :
  __mul__ 0%nat 1%nat w_empty
  = (Raise (ValueError "invalid number of data points (0) specified"),
     w_empty).
Proof.
  exact (mul_empty_raises w_empty 0%nat 1%nat
           {| rate := 8000; samples := Int16 [] |}
           {| rate := 8000; samples := Float64 [] |}
           eq_refl eq_refl eq_refl eq_refl eq_refl).
Defined.

(** The linear convolution of two waveforms of one rate that have fewer
    than two samples between them fails in the computation of the padded
    length: [log2(-1)] is not a number when both are empty, [log2(0)] is
    infinite when one is empty and the other has one sample.  No instance is
    created. *)
Theorem pow_too_short_raises (w : world) (a b : ref) (oa ob : SoundWave) :
  obj w a = Some oa -> obj w b = Some ob -> rate oa = rate ob ->
  len (samples oa) + len (samples ob) <= 1 ->
  __pow__ a b w
  = (Raise (if len (samples oa) + len (samples ob) =? 0
            then ValueError "cannot convert float NaN to integer"
            else OverflowError "cannot convert float infinity to integer"),
     w).
Proof.
  intros Ha Hb Hr Hle.
  rewrite (pow_unfold w a b oa ob Ha Hb Hr). cbv zeta.
  unfold bind at 1. unfold lift at 1. unfold int_ceil_log2.
  assert (H0a : 0 <= len (samples oa)) by (unfold len; lia).
  assert (H0b : 0 <= len (samples ob)) by (unfold len; lia).
  destruct (Z.eqb_spec (len (samples oa) + len (samples ob)) 0) as [E|E].
  - destruct (Z.ltb_spec (len (samples ob) + len (samples oa) - 1) 0);
      [reflexivity | lia].
  - destruct (Z.ltb_spec (len (samples ob) + len (samples oa) - 1) 0);
      [lia|].
    destruct (Z.eqb_spec (len (samples ob) + len (samples oa) - 1) 0);
      [reflexivity | lia].
Qed.

Lemma pow_too_short_raises_witness :
  __pow__ 0%nat 2%nat w_empty
  = (Raise (OverflowError "cannot convert float infinity to integer"),
     w_empty).
Proof.
  assert (H : 0 + 1 <= 1) by lia.
  exact (pow_too_short_raises w_empty 0%nat 2%nat
           {| rate := 8000; samples := Int16 [] |}
           {| rate := 8000; samples := Int16 [7] |}
           eq_refl eq_refl eq_refl H).
Defined.

(** ** Sums of [int16] recordings *)

Lemma nth_map2 {A B D : Type} (f : A -> B -> D) (l1 : list A) (l2 : list B)
  (i : nat) (d1 : A) (d2 : B) (d : D) :
  (i < length l1)%nat -> (i < length l2)%nat ->
  nth i (map2 f l1 l2) d = f (nth i l1 d1) (nth i l2 d2).
Proof.
  revert l2 i. induction l1 as [|x l1 IH]; intros [|y l2] [|i] H1 H2;
    simpl in *; try lia; [reflexivity|].
  apply IH; lia.
Qed.

Lemma wrap16_range (z : Z) : -32768 <= wrap16 z <= 32767.
Proof.
  unfold wrap16.
  pose proof (Z.mod_pos_bound (z + 32768) 65536 eq_refl). lia.
Qed.

Lemma wrap16_congruent (z : Z) : (wrap16 z - z) mod 65536 = 0.
Proof.
  unfold wrap16. rewrite (Z.mod_eq (z + 32768) 65536) by lia.
  replace (z + 32768 - 65536 * ((z + 32768) / 65536) - 32768 - z)
    with (- ((z + 32768) / 65536) * 65536) by lia.
  apply Z_mod_mult.
Qed.

Lemma wrap16_small (z : Z) : -32768 <= z <= 32767 -> wrap16 z = z.
Proof. intros H. unfold wrap16. rewrite Z.mod_small; lia. Qed.

(** The sum of two [int16] recordings of one length is an [int16] recording
    of that length: every sample is within the 16-bit range and differs from
    the true sum by a multiple of [65536] (it is the true sum whenever that
    fits). *)
Theorem add_int16_wraps (w : world) (a b : ref) (ra rb : Z) (x y : list Z) :
  obj w a = Some {| rate := ra; samples := Int16 x |} ->
  obj w b = Some {| rate := rb; samples := Int16 y |} ->
  length x = length y ->
  exists (r : ref) (w' : world) (z : list Z),
    __add__ a b w = (Ok r, w') /\
    obj w' r = Some {| rate := ra; samples := Int16 z |} /\
    length z = length x /\
    forall i : nat, (i < length x)%nat ->
      -32768 <= nth i z 0 <= 32767 /\
      (nth i z 0 - (nth i x 0 + nth i y 0)) mod 65536 = 0 /\
      (-32768 <= nth i x 0 + nth i y 0 <= 32767 ->
       nth i z 0 = nth i x 0 + nth i y 0).
Proof.
  intros Ha Hb Hlen.
  exists (length (heap w)).
  exists (snd (new_SoundWave ra (np_add (Int16 x) (Int16 y)) w)).
  exists (map2 (fun u v => wrap16 (u + v)) x y).
  split.
  { rewrite (add_run w a b _ _ Ha Hb). cbn [samples rate].
    unfold len. cbn [size]. rewrite Hlen, Z.eqb_refl. reflexivity. }
  split; [apply new_SoundWave_new|].
  split; [rewrite map2_length; lia|].
  intros i Hi.
  rewrite (nth_map2 _ x y i 0 0 0) by lia.
  split; [apply wrap16_range|].
  split; [apply wrap16_congruent | apply wrap16_small].
Qed.

Lemma add_int16_wraps_witness :
  exists (r : ref) (w' : world) (z : list Z),
    __add__ 0%nat 1%nat w_add = (Ok r, w') /\
    obj w' r = Some {| rate := 44100; samples := Int16 z |} /\
    length z = 3%nat /\
    forall i : nat, (i < 3)%nat ->
      -32768 <= nth i z 0 <= 32767 /\
      (nth i z 0 - (nth i [1; 2; 32767] 0 + nth i [5; -7; 1] 0)) mod 65536
      = 0 /\
      (-32768 <= nth i [1; 2; 32767] 0 + nth i [5; -7; 1] 0 <= 32767 ->
       nth i z 0 = nth i [1; 2; 32767] 0 + nth i [5; -7; 1] 0).
Proof.
  exact (add_int16_wraps w_add 0%nat 1%nat 44100 8000
           [1; 2; 32767] [5; -7; 1] eq_refl eq_refl eq_refl).
Defined.

(** ** More on the band filter *)

Lemma clean_unfold (w : world) (self : ref) (o : SoundWave)
  (low high : float64) :
  obj w self = Some o ->
  clean self low high w =
  match freq_bin low (len (samples o)) (rate o) with
  | Raise e => (Raise e, w)
  | Ok kl =>
      match freq_bin high (len (samples o)) (rate o) with
      | Raise e => (Raise e, w)
      | Ok kh =>
          match fft (samples o) with
          | Raise e => (Raise e, w)
          | Ok d0 =>
              match ifft (setitem_slice_zero (setitem_slice_zero d0 kl kh)
                            (len d0 - kh) (len d0 - kl)) with
              | Raise e => (Raise e, w)
              | Ok c => setattr_samples self c w
              end
          end
      end
  end.
Proof.
  intros Ho. unfold clean, bind, getattr_samples, getattr_rate, lift.
  rewrite Ho. cbv beta iota. rewrite Ho. cbv beta iota.
  destruct (freq_bin low (len (samples o)) (rate o)); [|reflexivity].
  destruct (freq_bin high (len (samples o)) (rate o)); [|reflexivity].
  destruct (fft (samples o)); [|reflexivity].
  destruct (ifft _); reflexivity.
Qed.

(** A successful [clean] leaves the waveform with as many samples as it had,
    now complex, at the same rate; it creates no instance and writes no
    file. *)
Theorem clean_keeps_length_and_rate (w w' : world) (self : ref)
  (o : SoundWave) (low high : float64) :
  obj w self = Some o ->
  clean self low high w = (Ok tt, w') ->
  exists s : list C,
    obj w' self = Some {| rate := rate o; samples := Complex128 s |} /\
    length s = size (samples o) /\
    length (heap w') = length (heap w) /\
    files w' = files w.
Proof.
  intros Ho Hrun.
  assert (Hlt : (self < length (heap w))%nat) by (eapply obj_some_lt; eauto).
  rewrite (clean_unfold w self o low high Ho) in Hrun.
  destruct (freq_bin low _ _) as [kl|e]; [|discriminate Hrun].
  destruct (freq_bin high _ _) as [kh|e]; [|discriminate Hrun].
  unfold fft in Hrun.
  destruct (size (samples o)) as [|k] eqn:Hsz; [discriminate Hrun|].
  unfold ifft in Hrun. rewrite !size_setitem_slice_zero in Hrun.
  cbn [size] in Hrun. rewrite dft_length, size_as_complex128, Hsz in Hrun.
  rewrite (setattr_samples_run w self o _ Ho) in Hrun.
  injection Hrun as <-. cbn [heap files].
  eexists. split.
  { unfold obj. cbn [heap]. apply nth_error_update_same. exact Hlt. }
  split.
  { now rewrite idft_length, !fill_range_length, dft_length,
      size_as_complex128. }
  split; [apply update_length | reflexivity].
Qed.

Lemma clean_keeps_length_and_rate_witness :
  exists s : list C,
    obj {| heap := update (heap w_two) 0%nat
                     {| rate := 44100;
                        samples := Complex128 (repeat C0 2) |};
           files := files w_two |} 0%nat
    = Some {| rate := 44100; samples := Complex128 s |} /\
    length s = 2%nat /\
    length (update (heap w_two) 0%nat
              {| rate := 44100; samples := Complex128 (repeat C0 2) |})
    = length (heap w_two) /\
    files w_two = files w_two.
Proof.
  assert (Hkh : freq_bin (half_rate 44100) 2 44100 = Ok 1)
    by (vm_compute; reflexivity).
  assert (H12 : 1 <= 2) by lia.
  assert (H22 : 2 <= 2 * 1) by lia.
  exact (clean_keeps_length_and_rate w_two
           {| heap := update (heap w_two) 0%nat
                        {| rate := 44100;
                           samples := Complex128 (repeat C0 2) |};
              files := files w_two |}
           0%nat
           {| rate := 44100; samples := Int16 [1; 0] |}
           (py_float 0) (half_rate 44100) eq_refl
           (clean_full_band_run w_two 0%nat
              {| rate := 44100; samples := Int16 [1; 0] |} 1
              eq_refl H12 Hkh H22)).
Defined.

(** [clean] refuses a waveform whose rate is zero, with the division error
    of [len / rate], and a waveform without samples, whose transform is
    refused; either way the store is left as it was. *)
Theorem clean_refuses_degenerate (w : world) (self : ref) (o : SoundWave)
  (low high : float64) :
  obj w self = Some o ->
  (rate o = 0 ->
   clean self low high w
   = (Raise (ZeroDivisionError "division by zero"), w)) /\
  (size (samples o) = O ->
   exists e : exn, clean self low high w = (Raise e, w)).
Proof.
  intros Ho. rewrite (clean_unfold w self o low high Ho). split.
  - intros ->. reflexivity.
  - intros Hsz.
    destruct (freq_bin low _ _) as [kl|e]; [|eexists; reflexivity].
    destruct (freq_bin high _ _) as [kh|e]; [|eexists; reflexivity].
    unfold fft. rewrite Hsz. eexists. reflexivity.
Qed.

Definition w_degenerate : world :=
  {| heap := [ {| rate := 0; samples := Int16 [1; 2] |};
               {| rate := 44100; samples := Float64 [] |} ];
     files := [] |}.

Lemma clean_refuses_degenerate_witness :
  clean 0%nat (py_float 0) (py_float 440) w_degenerate
  = (Raise (ZeroDivisionError "division by zero"), w_degenerate) /\
  exists e : exn,
    clean 1%nat (py_float 0) (py_float 440) w_degenerate
    = (Raise e, w_degenerate).
Proof.
  split.
  - apply (clean_refuses_degenerate w_degenerate 0%nat
             {| rate := 0; samples := Int16 [1; 2] |}
             (py_float 0) (py_float 440)); reflexivity.
  - apply (clean_refuses_degenerate w_degenerate 1%nat
             {| rate := 44100; samples := Float64 [] |}
             (py_float 0) (py_float 440)); reflexivity.
Defined.

(** A [clean] that fails changes nothing: the samples are only replaced
    once the inverse transform has succeeded. *)
Theorem clean_failure_changes_nothing (w w' : world) (self : ref)
  (low high : float64) (e : exn) :
  clean self low high w = (Raise e, w') -> w' = w.
Proof.
  intros Hrun.
  destruct (clean_setattr_or_raise self low high w) as [(e0 & H)|(v & H)];
    rewrite H in Hrun.
  - congruence.
  - unfold setattr_samples in Hrun.
    destruct (obj w self); [discriminate Hrun | congruence].
Qed.

Lemma clean_failure_changes_nothing_witness : w_degenerate = w_degenerate.
Proof.
  apply (clean_failure_changes_nothing w_degenerate w_degenerate 1%nat
           (py_float 0) (py_float 440)
           (ValueError "invalid number of data points (0) specified")).
  vm_compute. reflexivity.
Defined.

(** * Further properties of the synthesis *)

(** ** One tone *)

Lemma nth_map_seq {A : Type} (g : nat -> A) (n i : nat) (d : A) :
  (i < n)%nat -> nth i (map g (seq 0 n)) d = g i.
Proof.
  intros Hi. rewrite (nth_indep _ d (g 0%nat)) by now rewrite length_map, length_seq.
  rewrite (map_nth g (seq 0 n) 0%nat i), seq_nth by exact Hi. reflexivity.
Qed.

Lemma tone_values_bounded (frequency : R) (duration : Z) :
  Forall (fun v => (-1 <= v <= 1)%R) (tone_values frequency duration).
Proof.
  unfold tone_values, sine_wave. apply Forall_map, Forall_forall.
  intros t _. apply SIN_bound.
Qed.

Lemma tone_values_first (frequency : R) (duration : Z) :
  1 <= duration -> nth 0 (tone_values frequency duration) 1%R = 0%R.
Proof.
  intros Hd. unfold tone_values, sine_wave, linspace_points.
  rewrite map_map, nth_map_seq by lia. cbn [INR].
  replace (2 * PI * (0 + 0 * ((IZR duration - 0) / INR (Z.to_nat (44100 * duration) - 1))) * frequency)%R
    with 0%R by ring.
  apply sin_0.
Qed.

Lemma tone_values_last (frequency : R) (duration : Z) :
  1 <= duration ->
  nth (Z.to_nat (44100 * duration) - 1) (tone_values frequency duration) 0%R
  = sin (2 * PI * IZR duration * frequency).
Proof.
  intros Hd. unfold tone_values, sine_wave, linspace_points.
  rewrite map_map, nth_map_seq by lia.
  f_equal. f_equal. f_equal.
  assert (Hn : (INR (Z.to_nat (44100 * duration) - 1) <> 0)%R).
  { apply not_0_INR. lia. }
  field. exact Hn.
Qed.

(** A tone of [d >= 0] whole seconds is a new waveform at 44100 Hz with
    [44100 * d] samples, none of them beyond 1 in magnitude; when [d >= 1]
    the first sample is 0 and the last one is taken at time [d] exactly.
    Nothing that existed is touched. *)
Theorem generate_note_tone (w : world) (frequency : R) (duration : Z) :
  0 <= duration ->
  exists (r : ref) (w' : world) (s : list R),
    generate_note frequency duration w = (Ok r, w') /\
    obj w r = None /\
    obj w' r = Some {| rate := 44100; samples := Float64 s |} /\
    Z.of_nat (length s) = 44100 * duration /\
    Forall (fun v => (-1 <= v <= 1)%R) s /\
    (1 <= duration ->
     nth 0 s 1%R = 0%R /\
     nth (length s - 1) s 0%R = sin (2 * PI * IZR duration * frequency)) /\
    (forall (x : ref) (o : SoundWave), obj w x = Some o -> obj w' x = Some o) /\
    files w' = files w.
Proof.
  intros Hd.
  exists (length (heap w)).
  exists (snd (new_SoundWave 44100 (Float64 (tone_values frequency duration)) w)).
  exists (tone_values frequency duration).
  split.
  { rewrite generate_note_run.
    destruct (Z.ltb_spec (44100 * duration) 0); [lia | reflexivity]. }
  split; [apply obj_fresh_none|].
  split; [apply new_SoundWave_new|].
  split; [rewrite tone_values_length; lia|].
  split; [apply tone_values_bounded|].
  split.
  { intros H1. split; [now apply tone_values_first|].
    rewrite tone_values_length. now apply tone_values_last. }
  split; [|reflexivity].
  intros x o Hx. now apply new_SoundWave_old.
Qed.

Lemma generate_note_tone_witness :
  exists (r : ref) (w' : world) (s : list R),
    generate_note 440%R 1 w_add = (Ok r, w') /\
    obj w_add r = None /\
    obj w' r = Some {| rate := 44100; samples := Float64 s |} /\
    Z.of_nat (length s) = 44100 * 1 /\
    Forall (fun v => (-1 <= v <= 1)%R) s /\
    (1 <= 1 ->
     nth 0 s 1%R = 0%R /\
     nth (length s - 1) s 0%R = sin (2 * PI * IZR 1 * 440)) /\
    (forall (x : ref) (o : SoundWave),
       obj w_add x = Some o -> obj w' x = Some o) /\
    files w' = files w_add.
Proof.
  apply (generate_note_tone w_add 440%R 1). lia.
Defined.

(** A negative duration is refused by [np.linspace], whose message carries
    the count [44100 * duration], and creates nothing. *)
Theorem generate_note_negative (w : world) (frequency : R) (duration : Z) :
  duration < 0 ->
  generate_note frequency duration w
  = (Raise (linspace_error (44100 * duration)), w).
Proof.
  intros Hd. rewrite generate_note_run.
  destruct (Z.ltb_spec (44100 * duration) 0); [reflexivity | lia].
Qed.

Lemma generate_note_negative_witness :
  generate_note 440%R (-1) w_add
  = (Raise (ValueError "Number of samples, -44100, must be non-negative."),
     w_add).
Proof. exact (generate_note_negative w_add 440%R (-1) eq_refl). Defined.

(** ** Whole phrases *)

(** The second state holds everything the first one does, and the same
    files. *)
Definition extends (w w' : world) : Prop :=
  (exists l : list SoundWave, heap w' = heap w ++ l) /\ files w' = files w.

Lemma extends_refl (w : world) : extends w w.
Proof. split; [exists []; now rewrite app_nil_r | reflexivity]. Qed.

Lemma extends_trans (w1 w2 w3 : world) :
  extends w1 w2 -> extends w2 w3 -> extends w1 w3.
Proof.
  intros [[l1 H1] F1] [[l2 H2] F2]. split; [|congruence].
  exists (l1 ++ l2). rewrite H2, H1. now rewrite app_assoc.
Qed.

Lemma extends_new (w : world) (rt : Z) (s : ndarray) :
  extends w (snd (new_SoundWave rt s w)).
Proof. split; [eexists; reflexivity | reflexivity]. Qed.

Lemma extends_obj (w w' : world) (x : ref) (o : SoundWave) :
  extends w w' -> obj w x = Some o -> obj w' x = Some o.
Proof.
  intros [[l H] _] Hx. unfold obj in *. rewrite H.
  rewrite nth_error_app1; [exact Hx|]. apply nth_error_Some. congruence.
Qed.

Lemma append_notes_extends (hertz : list R) (duration : Z) :
  forall (w w' : world) (audio : ref) (res : result ref),
    append_notes audio hertz duration w = (res, w') -> extends w w'.
Proof.
  induction hertz as [|f rest IH]; intros w w' audio res Hrun.
  - injection Hrun as _ <-. apply extends_refl.
  - cbn [append_notes] in Hrun. unfold bind at 1 in Hrun.
    rewrite generate_note_run in Hrun.
    destruct (44100 * duration <? 0).
    { injection Hrun as _ <-. apply extends_refl. }
    set (w1 := snd (new_SoundWave 44100 (Float64 (tone_values f duration)) w))
      in *.
    change (new_SoundWave 44100 (Float64 (tone_values f duration)) w)
      with (Ok (length (heap w)), w1) in Hrun.
    cbv iota beta in Hrun. unfold bind at 1 in Hrun.
    apply (extends_trans w w1); [apply extends_new|].
    destruct (rshift_fresh_or_raise audio (length (heap w)) w1)
      as [(e & He)|(rt & s & Hnew)].
    + rewrite He in Hrun. injection Hrun as _ <-. apply extends_refl.
    + rewrite Hnew in Hrun.
      apply (extends_trans w1 (snd (new_SoundWave rt s w1)));
        [apply extends_new|].
      eapply IH. exact Hrun.
Qed.

Lemma append_notes_result_ref (hertz : list R) (duration : Z) :
  forall (w w' : world) (audio r : ref),
    append_notes audio hertz duration w = (Ok r, w') ->
    r = audio \/ (length (heap w) <= r)%nat.
Proof.
  induction hertz as [|f rest IH]; intros w w' audio r Hrun.
  - injection Hrun as -> _. left. reflexivity.
  - right. cbn [append_notes] in Hrun. unfold bind at 1 in Hrun.
    rewrite generate_note_run in Hrun.
    destruct (44100 * duration <? 0); [discriminate Hrun|].
    set (w1 := snd (new_SoundWave 44100 (Float64 (tone_values f duration)) w))
      in *.
    change (new_SoundWave 44100 (Float64 (tone_values f duration)) w)
      with (Ok (length (heap w)), w1) in Hrun.
    cbv iota beta in Hrun. unfold bind at 1 in Hrun.
    assert (H1 : length (heap w1) = S (length (heap w))).
    { unfold w1. cbn [snd new_SoundWave heap]. rewrite length_app.
      cbn [length]. lia. }
    destruct (rshift_fresh_or_raise audio (length (heap w)) w1)
      as [(e & He)|(rt & s & Hnew)].
    + rewrite He in Hrun. discriminate Hrun.
    + rewrite Hnew in Hrun.
      set (w2 := snd (new_SoundWave rt s w1)) in *.
      change (new_SoundWave rt s w1) with (Ok (length (heap w1)), w2) in Hrun.
      cbv iota beta in Hrun.
      assert (H2 : length (heap w2) = S (length (heap w1))).
      { unfold w2. cbn [snd new_SoundWave heap]. rewrite length_app.
        cbn [length]. lia. }
      destruct (IH _ _ _ _ Hrun) as [->|H]; lia.
Qed.

Lemma audio_sequence_run (w : world) (notes : list string) (hertz : list R)
  (d : Z) :
  notes <> [] -> lookup_notes notes = Ok hertz -> 0 <= d ->
  exists (r : ref) (w' : world),
    audio_sequence notes d w = (Ok r, w') /\
    obj w' r
    = Some {| rate := 44100;
              samples := Float64 (concat (map (fun f => tone_values f d)
                                            hertz)) |} /\
    extends w w' /\
    (length (heap w) <= r)%nat.
Proof.
  intros Hne Hlook Hd.
  destruct notes as [|note notes]; [congruence|].
  destruct hertz as [|h0 rest].
  { cbn [lookup_notes] in Hlook.
    destruct (getitem NOTE_FREQ note); cbn [rbind] in Hlook;
      [|discriminate Hlook].
    destruct (lookup_notes notes); discriminate Hlook. }
  set (w1 := snd (new_SoundWave 44100 (Float64 (tone_values h0 d)) w)).
  destruct (append_notes_run rest d Hd w1 (length (heap w)) (tone_values h0 d))
    as (r & w' & Hrun & Hobj).
  { apply new_SoundWave_new. }
  assert (Hw1 : extends w w1) by apply extends_new.
  assert (Hw' : extends w1 w') by (eapply append_notes_extends; exact Hrun).
  exists r, w'. split; [|split; [|split]].
  - unfold audio_sequence.
    change (Z.of_nat (length (note :: notes)) =? 0) with false. cbv iota.
    unfold bind at 1. unfold lift. rewrite Hlook.
    unfold bind at 1. rewrite generate_note_run.
    destruct (Z.ltb_spec (44100 * d) 0); [lia | exact Hrun].
  - rewrite Hobj. do 2 f_equal.
    rewrite <- (map_map (fun f => tone_values f d) Float64).
    apply fold_concatenate_float64.
  - eapply extends_trans; eassumption.
  - destruct (append_notes_result_ref rest d w1 w' (length (heap w)) r Hrun)
      as [->|H]; [lia|].
    destruct Hw1 as [[l1 Hl1] _]. rewrite Hl1, length_app in H. lia.
Qed.




Lemma getitem_missing (d : list (string * R)) (k : string) :
  ~ In k (map fst d) -> getitem d k = Raise (KeyError k).
Proof.
  induction d as [|[k' v] d IH]; cbn [getitem map fst In]; intros H.
  - reflexivity.
  - destruct (String.eqb_spec k' k) as [E|E]; [tauto|].
    apply IH. tauto.
Qed.

Lemma lookup_notes_missing (known rest : list string) (bad : string) :
  Forall (fun note => In note (map fst NOTE_FREQ)) known ->
  ~ In bad (map fst NOTE_FREQ) ->
  lookup_notes (known ++ bad :: rest) = Raise (KeyError bad).
Proof.
  intros Hknown Hbad. induction Hknown as [|note known Hin _ IH].
  - cbn [app lookup_notes]. now rewrite (getitem_missing _ _ Hbad).
  - cbn [app lookup_notes].
    destruct (getitem_NOTE_FREQ note Hin) as (f & ->). cbn [rbind].
    rewrite IH. reflexivity.
Qed.

(** A note that is not in the table stops [audio_sequence] with the
    [KeyError] of the first such note, before any tone is generated: the
    store is left as it was, whatever the duration. *)
Theorem audio_sequence_unknown_note (w : world) (known rest : list string)
  (bad : string) (d : Z) :
  Forall (fun note => In note (map fst NOTE_FREQ)) known ->
  ~ In bad (map fst NOTE_FREQ) ->
  audio_sequence (known ++ bad :: rest) d w = (Raise (KeyError bad), w).
Proof.
  intros Hknown Hbad. unfold audio_sequence.
  destruct (Z.eqb_spec (Z.of_nat (length (known ++ bad :: rest))) 0) as [E|_].
  { rewrite length_app in E. cbn [length] in E. lia. }
  unfold bind, lift. now rewrite (lookup_notes_missing known rest bad).
Qed.

Lemma audio_sequence_unknown_note_witness :
  audio_sequence (["C"; "D"] ++ "A" :: ["E"; "B"]) (-3) w_add
  = (Raise (KeyError "A"), w_add).
Proof.
  apply (audio_sequence_unknown_note w_add ["C"; "D"] ["E"; "B"] "A" (-3)).
  - repeat constructor; simpl; tauto.
  - simpl. intros [H|[H|[H|[H|[H|[]]]]]]; discriminate H.
Defined.

(** Over a non-empty list of notes of the table, a negative duration [d]
    stops [audio_sequence] at the first tone, with the [ValueError] of
    [np.linspace], whose message names the count [44100 * d]:
    ["Number of samples, <44100 * d>, must be non-negative."]; the store is
    left as it was. *)
Theorem audio_sequence_negative_duration (w : world) (notes : list string)
  (d : Z) :
  notes <> [] ->
  Forall (fun note => In note (map fst NOTE_FREQ)) notes ->
  d < 0 ->
  audio_sequence notes d w
  = (Raise (ValueError
       (String.append "Number of samples, "
          (String.append (py_str_int (44100 * d))
             ", must be non-negative."))),
     w).
Proof.
  intros Hne Hin Hd.
  destruct (lookup_notes_ok notes Hin) as (hertz & Hlook & Hall).
  destruct notes as [|note notes]; [congruence|].
  destruct hertz as [|h0 rest]; [inversion Hall|].
  unfold audio_sequence.
  change (Z.of_nat (length (note :: notes)) =? 0) with false. cbv iota.
  unfold bind at 1. unfold lift. rewrite Hlook.
  unfold bind at 1. rewrite generate_note_run.
  destruct (Z.ltb_spec (44100 * d) 0); [reflexivity | lia].
Qed.

Lemma audio_sequence_negative_duration_witness :
  audio_sequence ["C"; "G"] (-1) w_add
  = (Raise (ValueError "Number of samples, -44100, must be non-negative."),
     w_add).
Proof.
  apply (audio_sequence_negative_duration w_add ["C"; "G"] (-1)).
  - discriminate.
  - repeat constructor; simpl; tauto.
  - lia.
Defined.

(** * Further properties of the export *)

Lemma rescale_nonempty (a : ndarray) :
  size a <> O ->
  exists data : list (option Z), rescale a = Ok data /\ length data = size a.
Proof.
  intros Hn. unfold rescale, np_abs_max.
  assert (H : forall (v : list R), length v = size a ->
            exists data : list (option Z),
              rbind match v with
                    | [] => Raise (ValueError
                        "zero-size array to reduction operation maximum which has no identity")
                    | x :: v' => Ok (fold_left Rmax v' x)
                    end
                (fun peak =>
                   Ok (astype_int16
                         (np_real (np_imul (np_true_divide a peak) 32767))))
              = Ok data /\ length data = size a).
  { intros [|x v] Hv; [simpl in Hv; congruence|].
    cbn [rbind]. eexists. split; [reflexivity|].
    unfold astype_int16, np_real, np_imul, np_true_divide.
    now rewrite !length_map, size_as_complex128. }
  destruct a as [l|l|l]; apply H; now rewrite length_map.
Qed.

(** What [export] does, case by case: an empty buffer that has to be
    rescaled is refused by [max] and nothing is written; otherwise, at a rate
    that does not fit the unsigned 32-bit fields of the header ([rate < 0] or
    [rate >= 2**31]) [wavfile.write] raises [struct.error] and leaves an
    empty file under the given name; otherwise, when the samples fit the
    32-bit size field ([36 + 2 * N <= 2**32 - 1]), exactly one file is
    written, under the given name, at the rate of the waveform, with one
    value per sample, and [int16] samples exported without [force] are
    written as they are.  The store of waveforms never changes. *)
Theorem export_outcome (w : world) (self : ref) (o : SoundWave)
  (filename : string) (force : bool) :
  obj w self = Some o ->
  (rescales (samples o) force = true -> size (samples o) = O ->
   export self filename force w
   = (Raise (ValueError
        "zero-size array to reduction operation maximum which has no identity"),
      w)) /\
  (rescales (samples o) force = false \/ size (samples o) <> O ->
   (rate o < 0 \/ 2147483648 <= rate o ->
    exists msg : string,
      export self filename force w
      = (Raise (StructError msg),
         {| heap := heap w; files := (filename, EmptyFile) :: files w |})) /\
   (0 <= rate o < 2147483648 ->
    36 + 2 * len (samples o) <= 4294967295 ->
    exists data : list (option Z),
      export self filename force w
      = (Ok tt,
         {| heap := heap w;
            files := (filename,
                      WavFile {| wav_rate := rate o; wav_data := data |})
                     :: files w |}) /\
      length data = size (samples o) /\
      (rescales (samples o) force = false ->
       exists l : list Z, samples o = Int16 l /\ data = map Some l))).
Proof.
  intros Ho. split.
  - intros Hr Hn. now apply (export_empty_raises w self o).
  - intros H.
    assert (Hdata : exists data : list (option Z),
               (if rescales (samples o) force then rescale (samples o)
                else Ok (map Some match samples o with
                                   | Int16 l => l
                                   | _ => []
                                   end))
               = Ok data /\
               length data = size (samples o) /\
               (rescales (samples o) force = false ->
                exists l : list Z, samples o = Int16 l /\ data = map Some l)).
    { destruct (rescales (samples o) force) eqn:Hr.
      - destruct H as [H|H]; [discriminate H|].
        destruct (rescale_nonempty _ H) as (data & Hd & Hlen).
        exists data. split; [exact Hd|]. split; [exact Hlen|].
        intros E. discriminate E.
      - destruct (samples o) as [l|l|l]; try discriminate Hr.
        exists (map Some l). split; [reflexivity|].
        split; [apply length_map|].
        intros _. exists l. split; reflexivity. }
    destruct Hdata as (data & Hd & Hlen & Hraw).
    rewrite (export_run w self o filename force Ho), Hd.
    split.
    + intros Hrate. eexists. now apply wavfile_write_header_error.
    + intros Hrate Hsize. exists data. split; [|split; assumption].
      apply wavfile_write_ok; [exact Hrate|].
      rewrite Hlen. exact Hsize.
Qed.

Definition w_export : world :=
  {| heap := [ {| rate := 8000; samples := Int16 [3; -4; 0] |};
               {| rate := 8000; samples := Float64 [] |};
               {| rate := 2147483648; samples := Int16 [3; -4; 0] |} ];
     files := [] |}.

Lemma export_outcome_witness :
  export 1%nat "empty.wav" false w_export
  = (Raise (ValueError
       "zero-size array to reduction operation maximum which has no identity"),
     w_export) /\
  (exists msg : string,
     export 2%nat "fast.wav" false w_export
     = (Raise (StructError msg),
        {| heap := heap w_export; files := [("fast.wav", EmptyFile)] |})) /\
  exists data : list (option Z),
    export 0%nat "take.wav" false w_export
    = (Ok tt,
       {| heap := heap w_export;
          files := [("take.wav",
                     WavFile {| wav_rate := 8000; wav_data := data |})] |})
    /\ length data = 3%nat
    /\ (false = false ->
        exists l : list Z, Int16 [3; -4; 0] = Int16 l /\ data = map Some l).
Proof.
  split; [|split].
  - apply (export_outcome w_export 1%nat
             {| rate := 8000; samples := Float64 [] |} "empty.wav" false);
      reflexivity.
  - apply (export_outcome w_export 2%nat
             {| rate := 2147483648; samples := Int16 [3; -4; 0] |}
             "fast.wav" false).
    + reflexivity.
    + left. reflexivity.
    + right. simpl. lia.
  - apply (export_outcome w_export 0%nat
             {| rate := 8000; samples := Int16 [3; -4; 0] |} "take.wav" false).
    + reflexivity.
    + left. reflexivity.
    + simpl. lia.
    + vm_compute. discriminate.
Defined.

(** ** Peak normalisation *)

Lemma fold_left_Rmax_ge (v : list R) (x : R) :
  (x <= fold_left Rmax v x)%R /\
  forall y : R, In y v -> (y <= fold_left Rmax v x)%R.
Proof.
  revert x. induction v as [|z v IH]; intros x; simpl.
  - split; [lra | tauto].
  - destruct (IH (Rmax x z)) as [H1 H2].
    pose proof (Rbasic_fun.Rmax_l x z). pose proof (Rbasic_fun.Rmax_r x z).
    split; [lra|]. intros y [<-|Hy]; [lra | now apply H2].
Qed.

Lemma fold_left_Rmax_in (v : list R) (x : R) :
  fold_left Rmax v x = x \/ In (fold_left Rmax v x) v.
Proof.
  revert x. induction v as [|z v IH]; intros x; simpl; [now left|].
  destruct (IH (Rmax x z)) as [H|H]; [|now right; right].
  rewrite H. unfold Rmax. destruct (Rle_dec x z); [right; now left | now left].
Qed.

Lemma Rtrunc_bound (r : R) (k : Z) :
  0 <= k -> (- IZR k <= r <= IZR k)%R -> - k <= Rtrunc r <= k.
Proof.
  intros Hk Hr. unfold Rtrunc. destruct (Rle_dec 0 r) as [H0|H0].
  - pose proof (Zfloor_bound r) as [Hlo _].
    split.
    + pose proof (Zfloor_lub 0 r H0). lia.
    + apply le_IZR. lra.
  - pose proof (Zceil_bound r) as [Hlo Hhi].
    split.
    + apply le_IZR. rewrite opp_IZR. lra.
    + assert (Zceil r < 1); [|lia].
      apply lt_IZR. lra.
Qed.

Lemma Rtrunc_IZR (k : Z) : Rtrunc (IZR k) = k.
Proof.
  unfold Rtrunc. destruct (Rle_dec 0 (IZR k)).
  - apply ZfloorZ.
  - apply Zceil_eq. lra.
Qed.

(** The value [export] writes for one [float64] sample when the peak is not
    zero. *)
Definition pcm_of (peak s : R) : Z := wrap16 (Rtrunc (32767 * (/ peak * s))).

Lemma rescale_float64 (l : list R) (peak : R) :
  np_abs_max (Float64 l) = Ok peak -> peak <> 0%R ->
  rescale (Float64 l) = Ok (map (fun s => Some (pcm_of peak s)) l).
Proof.
  intros Hpeak Hnz. unfold rescale. rewrite Hpeak. cbn [rbind].
  unfold astype_int16, np_real, np_imul, np_true_divide.
  cbn [as_complex128]. rewrite !map_map. f_equal.
  apply map_ext. intros s.
  destruct (Req_EM_T peak 0); [contradiction|]. reflexivity.
Qed.

Lemma pcm_of_bound (peak s : R) :
  (0 < peak)%R -> (Rabs s <= peak)%R -> -32767 <= pcm_of peak s <= 32767.
Proof.
  intros Hp Hs. unfold pcm_of.
  assert (Hq : (-1 <= / peak * s <= 1)%R).
  { assert (Hs' : (- peak <= s <= peak)%R)
      by (unfold Rabs in Hs; destruct (Rcase_abs s); lra).
    assert (Hi : (0 < / peak)%R) by now apply Rinv_0_lt_compat.
    assert (E : (/ peak * peak = 1)%R) by (apply Rinv_l; lra).
    split; nra. }
  pose proof (Rtrunc_bound (32767 * (/ peak * s)) 32767) as Hb.
  rewrite wrap16_small; [apply Hb|]; try lia; try lra.
  assert (-32767 <= Rtrunc (32767 * (/ peak * s)) <= 32767)
    by (apply Hb; [lia | lra]).
  lia.
Qed.

Lemma pcm_of_peak (peak s : R) :
  (0 < peak)%R -> Rabs s = peak -> Z.abs (pcm_of peak s) = 32767.
Proof.
  intros Hp Hs. unfold pcm_of.
  assert (E : (/ peak * peak = 1)%R) by (apply Rinv_l; lra).
  unfold Rabs in Hs. destruct (Rcase_abs s) as [Hneg|Hpos].
  - replace (32767 * (/ peak * s))%R with (IZR (-32767)).
    + rewrite Rtrunc_IZR. reflexivity.
    + replace s with (- peak)%R by lra. nra.
  - replace (32767 * (/ peak * s))%R with (IZR 32767).
    + rewrite Rtrunc_IZR. reflexivity.
    + subst peak. nra.
Qed.

(** The peak of a [float64] buffer that is not silent: positive, reached
    by one sample and exceeded by none. *)
Lemma float64_peak (l : list R) :
  (exists x : R, In x l /\ x <> 0%R) ->
  exists peak : R,
    np_abs_max (Float64 l) = Ok peak /\
    (0 < peak)%R /\
    (forall y : R, In y l -> (Rabs y <= peak)%R) /\
    exists y : R, In y l /\ Rabs y = peak.
Proof.
  intros (x & Hx & Hx0).
  destruct l as [|x0 l']; [contradiction|].
  set (peak := fold_left Rmax (map Rabs l') (Rabs x0)).
  destruct (fold_left_Rmax_ge (map Rabs l') (Rabs x0)) as [Hge0 Hge].
  fold peak in Hge0, Hge.
  assert (Hall : forall y : R, In y (x0 :: l') -> (Rabs y <= peak)%R).
  { intros y [<-|Hy]; [exact Hge0|]. apply Hge. now apply in_map. }
  exists peak. split; [reflexivity|]. split; [|split; [exact Hall|]].
  - pose proof (Hall x Hx). pose proof (Rabs_pos_lt x Hx0). lra.
  - destruct (fold_left_Rmax_in (map Rabs l') (Rabs x0)) as [E|E];
      fold peak in E.
    + exists x0. split; [now left | now symmetry].
    + apply in_map_iff in E. destruct E as (y & Ey & Hy).
      exists y. split; [now right | exact Ey].
Qed.

(** Exporting a [float64] waveform of finite samples that is not silent,
    at a rate that fits the header ([0 <= rate < 2**31]) and with samples
    that fit the size field ([36 + 2 * N <= 2**32 - 1]), writes one 16-bit
    value per sample, each between -32767 and 32767, and the loudest sample
    is written as 32767 or -32767. *)
Theorem export_float64_in_range (w : world) (self : ref) (rt : Z)
  (l : list R) (filename : string) (force : bool) :
  obj w self = Some {| rate := rt; samples := Float64 l |} ->
  (exists x : R, In x l /\ x <> 0%R) ->
  0 <= rt < 2147483648 ->
  36 + 2 * Z.of_nat (length l) <= 4294967295 ->
  exists data : list Z,
    export self filename force w
    = (Ok tt,
       {| heap := heap w;
          files := (filename,
                    WavFile {| wav_rate := rt; wav_data := map Some data |})
                   :: files w |}) /\
    length data = length l /\
    Forall (fun z => -32767 <= z <= 32767) data /\
    exists z : Z, In z data /\ Z.abs z = 32767.
Proof.
  intros Ho Hloud Hrate Hsize.
  destruct (float64_peak l Hloud) as (peak & Hpeak & Hpos & Hall & y & Hy & Ey).
  exists (map (pcm_of peak) l).
  split.
  { rewrite (export_run w self _ filename force Ho). cbn [samples rescales rate].
    rewrite (rescale_float64 _ peak Hpeak) by lra.
    rewrite map_map.
    apply wavfile_write_ok; [exact Hrate|]. now rewrite !length_map. }
  split; [apply length_map|].
  split.
  { apply Forall_map, Forall_forall. intros v Hv.
    apply pcm_of_bound; [exact Hpos | now apply Hall]. }
  exists (pcm_of peak y). split; [now apply in_map|].
  now apply pcm_of_peak.
Qed.

Definition w_loud : world :=
  {| heap := [ {| rate := 8000; samples := Float64 [0%R; 2%R; (-1)%R] |} ];
     files := [] |}.

Lemma export_float64_in_range_witness :
  exists data : list Z,
    export 0%nat "loud.wav" false w_loud
    = (Ok tt,
       {| heap := heap w_loud;
          files := [("loud.wav",
                     WavFile {| wav_rate := 8000;
                                wav_data := map Some data |})] |}) /\
    length data = 3%nat /\
    Forall (fun z => -32767 <= z <= 32767) data /\
    exists z : Z, In z data /\ Z.abs z = 32767.
Proof.
  apply (export_float64_in_range w_loud 0%nat 8000 [0%R; 2%R; (-1)%R]
           "loud.wav" false).
  - reflexivity.
  - exists 2%R. split; [simpl; tauto | lra].
  - lia.
  - vm_compute. discriminate.
Defined.

(** * The cipher of [soggetto.py]

    A text is a string of characters with code points below 256; on those,
    the case-insensitive class [[^AEIOU]] matches every character but the
    ten vowels [AEIOUaeiou].  Beyond them the class also spares the dotted
    capital I (U+0130) and the dotless small i (U+0131), which are keys of
    neither table: a text holding one of them makes the program raise
    [KeyError].  Such texts are outside this model, and every statement
    below is about texts of one-byte characters. *)

From Stdlib Require Import Ascii.

Definition SOLFEGE_MAP : list (string * string) :=
  [ ("a", "fa"); ("e", "re"); ("i", "mi"); ("o", "sol"); ("u", "ut") ].

Definition NOTE_MAP : list (string * string) :=
  [ ("a", "F"); ("e", "D"); ("i", "E"); ("o", "C"); ("u", "G") ].

(** [d[k]] on a dict of strings *)
Fixpoint dict_getitem (d : list (string * string)) (k : string)
  : result string :=
  match d with
  | [] => Raise (KeyError k)
  | (k', v) :: d' => if String.eqb k' k then Ok v else dict_getitem d' k
  end.

(** [c.lower()] for one character *)
Definition py_lower_char (c : ascii) : ascii :=
  let n := nat_of_ascii c in
  if ((65 <=? n) && (n <=? 90))%nat
     || ((192 <=? n) && (n <=? 222) && negb (n =? 215))%nat
  then ascii_of_nat (n + 32)
  else c.

(** Whether [c] is matched by [[AEIOU]] when case is ignored. *)
Definition is_vowel (c : ascii) : bool :=
  existsb (Ascii.eqb (py_lower_char c))
    ["a"%char; "e"%char; "i"%char; "o"%char; "u"%char].

(** [re.sub(r'[^AEIOU]', '', text, flags=re.IGNORECASE)] *)
Fixpoint re_sub_non_vowels (text : string) : string :=
  match text with
  | EmptyString => EmptyString
  | String c rest =>
      if is_vowel c then String c (re_sub_non_vowels rest)
      else re_sub_non_vowels rest
  end.

(** [s.lower()] *)
Fixpoint py_lower (s : string) : string :=
  match s with
  | EmptyString => EmptyString
  | String c rest => String (py_lower_char c) (py_lower rest)
  end.

(** [[d[v] for v in vowels]] *)
Fixpoint lookup_each (d : list (string * string)) (vowels : string)
  : result (list string) :=
  match vowels with
  | EmptyString => Ok []
  | String v rest =>
      rbind (dict_getitem d (String v EmptyString)) (fun x =>
        rbind (lookup_each d rest) (fun xs => Ok (x :: xs)))
  end.

Definition encode_string (text : string) : result (list string * list string) :=
  let vowels := py_lower (re_sub_non_vowels text) in
  rbind (lookup_each SOLFEGE_MAP vowels) (fun solfege =>
    rbind (lookup_each NOTE_MAP vowels) (fun notes =>
      Ok (solfege, notes))).

(** [main()], given the line read by [input] and the time stamp of
    [time.strftime]; the value is the list of the lines printed. *)
Definition main (text stamp : string) : Py (list string) :=
  sn <- lift (encode_string text) ;;
  let solfege := fst sn in
  let notes := snd sn in
  audio <- audio_sequence notes 1 ;;
  let fname := String.append "soggetto_cavato_" (String.append stamp ".wav") in
  _ <- export audio (String.append "audio/" fname) false ;;
  ret [ String.append "Solfege: " (String.concat " " solfege);
        String.append "Notes " (String.concat " " notes) ].

Example encode_josquin :
  encode_string "Josquin des Prez"
  = Ok (["sol"; "ut"; "mi"; "re"; "re"], ["C"; "G"; "E"; "D"; "D"]).
Proof. reflexivity. Qed.

Example encode_upper_case :
  encode_string "AEIOU, y?" = Ok (["fa"; "re"; "mi"; "sol"; "ut"],
                                   ["F"; "D"; "E"; "C"; "G"]).
Proof. reflexivity. Qed.

(** ** The encoding never fails *)

Definition vowels : list ascii :=
  ["a"%char; "e"%char; "i"%char; "o"%char; "u"%char].

Lemma is_vowel_lower (c : ascii) :
  is_vowel c = true -> In (py_lower_char c) vowels.
Proof.
  unfold is_vowel. intros H. apply existsb_exists in H.
  destruct H as (v & Hv & E). apply Ascii.eqb_eq in E. now rewrite E.
Qed.

Lemma dict_getitem_in (d : list (string * string)) (k x : string) :
  dict_getitem d k = Ok x -> In x (map snd d).
Proof.
  induction d as [|[k' v] d IH]; cbn [dict_getitem map snd In];
    [discriminate|].
  destruct (String.eqb k' k); [intros H; left; congruence | auto].
Qed.

Lemma lookup_each_vowels (d : list (string * string)) :
  (forall v : ascii, In v vowels ->
     exists x : string, dict_getitem d (String v EmptyString) = Ok x) ->
  forall text : string,
    exists xs : list string,
      lookup_each d (py_lower (re_sub_non_vowels text)) = Ok xs /\
      length xs = String.length (re_sub_non_vowels text) /\
      Forall (fun x => In x (map snd d)) xs.
Proof.
  intros Hd text. induction text as [|c rest IH].
  - exists []. repeat split. constructor.
  - cbn [re_sub_non_vowels]. destruct (is_vowel c) eqn:Hc; [|exact IH].
    destruct IH as (xs & Hxs & Hlen & Hall).
    destruct (Hd _ (is_vowel_lower c Hc)) as (x & Hx).
    exists (x :: xs). cbn [py_lower lookup_each].
    rewrite Hx. cbn [rbind]. rewrite Hxs. cbn [rbind].
    split; [reflexivity|]. split; [cbn; congruence|].
    constructor; [eapply dict_getitem_in; eassumption | exact Hall].
Qed.

Lemma SOLFEGE_MAP_vowels (v : ascii) :
  In v vowels ->
  exists x : string, dict_getitem SOLFEGE_MAP (String v EmptyString) = Ok x.
Proof.
  intros [H|[H|[H|[H|[H|[]]]]]]; subst v; eexists; reflexivity.
Qed.

Lemma NOTE_MAP_vowels (v : ascii) :
  In v vowels ->
  exists x : string, dict_getitem NOTE_MAP (String v EmptyString) = Ok x.
Proof.
  intros [H|[H|[H|[H|[H|[]]]]]]; subst v; eexists; reflexivity.
Qed.

(** [encode_string] raises on no text: every character that survives the
    substitution is a key of both tables.  It returns one solfege syllable
    and one note per vowel of the text, and every note it returns is a key of
    [NOTE_FREQ]. *)
Theorem encode_string_total (text : string) :
  exists solfege notes : list string,
    encode_string text = Ok (solfege, notes) /\
    length solfege = String.length (re_sub_non_vowels text) /\
    length notes = String.length (re_sub_non_vowels text) /\
    Forall (fun s => In s (map snd SOLFEGE_MAP)) solfege /\
    Forall (fun note => In note (map fst NOTE_FREQ)) notes.
Proof.
  destruct (lookup_each_vowels SOLFEGE_MAP SOLFEGE_MAP_vowels text)
    as (solfege & Hs & Hls & Has).
  destruct (lookup_each_vowels NOTE_MAP NOTE_MAP_vowels text)
    as (notes & Hn & Hln & Han).
  exists solfege, notes. unfold encode_string. rewrite Hs, Hn.
  repeat split; auto.
  eapply Forall_impl; [|exact Han].
  cbn. intros note H. tauto.
Qed.

(** ** The encoding follows the vowels only *)

Lemma py_lower_char_idempotent (c : ascii) :
  py_lower_char (py_lower_char c) = py_lower_char c.
Proof. destruct c as [[] [] [] [] [] [] [] []]; reflexivity. Qed.

Lemma is_vowel_lower_char (c : ascii) : is_vowel (py_lower_char c) = is_vowel c.
Proof. unfold is_vowel. now rewrite py_lower_char_idempotent. Qed.

Lemma vowels_of_lower (text : string) :
  py_lower (re_sub_non_vowels (py_lower text))
  = py_lower (re_sub_non_vowels text).
Proof.
  induction text as [|c rest IH]; [reflexivity|].
  cbn [py_lower re_sub_non_vowels]. rewrite is_vowel_lower_char.
  destruct (is_vowel c); [|exact IH].
  cbn [py_lower]. now rewrite py_lower_char_idempotent, IH.
Qed.

Lemma re_sub_non_vowels_idempotent (text : string) :
  re_sub_non_vowels (re_sub_non_vowels text) = re_sub_non_vowels text.
Proof.
  induction text as [|c rest IH]; [reflexivity|].
  cbn [re_sub_non_vowels]. destruct (is_vowel c) eqn:Hc; [|exact IH].
  cbn [re_sub_non_vowels]. now rewrite Hc, IH.
Qed.

Lemma vowels_of_app (t1 t2 : string) :
  py_lower (re_sub_non_vowels (String.append t1 t2))
  = String.append (py_lower (re_sub_non_vowels t1))
      (py_lower (re_sub_non_vowels t2)).
Proof.
  induction t1 as [|c rest IH]; [reflexivity|].
  cbn [String.append re_sub_non_vowels].
  destruct (is_vowel c); [|exact IH].
  cbn [py_lower String.append]. now rewrite IH.
Qed.

(** On texts of characters with code points below 256, the case of the
    letters and everything that is not a vowel are ignored: a text, the text
    in lower case and the text stripped of its non-vowels have the same
    encoding. *)
Theorem encode_string_ignores_case_and_consonants (text : string) :
  encode_string (py_lower text) = encode_string text /\
  encode_string (re_sub_non_vowels text) = encode_string text.
Proof.
  unfold encode_string. split.
  - now rewrite vowels_of_lower.
  - now rewrite re_sub_non_vowels_idempotent.
Qed.

Lemma lookup_each_app (d : list (string * string)) (v1 v2 : string)
  (x1 x2 : list string) :
  lookup_each d v1 = Ok x1 -> lookup_each d v2 = Ok x2 ->
  lookup_each d (String.append v1 v2) = Ok (x1 ++ x2).
Proof.
  revert x1. induction v1 as [|c rest IH]; intros x1 H1 H2.
  - cbn in H1. injection H1 as <-. exact H2.
  - cbn [String.append lookup_each] in *.
    destruct (dict_getitem d (String c EmptyString)) as [x|e];
      cbn [rbind] in *; [|discriminate H1].
    destruct (lookup_each d rest) as [xs|e]; cbn [rbind] in *;
      [|discriminate H1].
    injection H1 as <-. rewrite (IH xs eq_refl H2). reflexivity.
Qed.

Lemma encode_string_inv (text : string) (solfege notes : list string) :
  encode_string text = Ok (solfege, notes) ->
  lookup_each SOLFEGE_MAP (py_lower (re_sub_non_vowels text)) = Ok solfege /\
  lookup_each NOTE_MAP (py_lower (re_sub_non_vowels text)) = Ok notes.
Proof.
  unfold encode_string.
  destruct (lookup_each SOLFEGE_MAP _) as [s|e]; cbn [rbind];
    [|discriminate].
  destruct (lookup_each NOTE_MAP _) as [n|e]; cbn [rbind]; [|discriminate].
  intros H. injection H as <- <-. split; reflexivity.
Qed.

(** The encoding of a text in two parts is the encoding of the first part
    followed by the encoding of the second. *)
Theorem encode_string_app (t1 t2 : string) (s1 n1 s2 n2 : list string) :
  encode_string t1 = Ok (s1, n1) ->
  encode_string t2 = Ok (s2, n2) ->
  encode_string (String.append t1 t2) = Ok (s1 ++ s2, n1 ++ n2).
Proof.
  intros H1 H2.
  apply encode_string_inv in H1. apply encode_string_inv in H2.
  destruct H1 as [Hs1 Hn1], H2 as [Hs2 Hn2].
  unfold encode_string. rewrite vowels_of_app.
  rewrite (lookup_each_app _ _ _ _ _ Hs1 Hs2). cbn [rbind].
  rewrite (lookup_each_app _ _ _ _ _ Hn1 Hn2). reflexivity.
Qed.

Lemma encode_string_app_witness :
  encode_string (String.append "Josquin " "des Prez")
  = Ok (["sol"; "ut"; "mi"] ++ ["re"; "re"], ["C"; "G"; "E"] ++ ["D"; "D"]).
Proof.
  apply (encode_string_app "Josquin " "des Prez"); reflexivity.
Defined.

(** ** The notes determine the vowels *)

Lemma dict_getitem_pair (d : list (string * string)) (k x : string) :
  dict_getitem d k = Ok x -> In (k, x) d.
Proof.
  induction d as [|[k' v] d IH]; cbn [dict_getitem In]; [discriminate|].
  destruct (String.eqb_spec k' k) as [E|E].
  - intros H. left. congruence.
  - intros H. right. now apply IH.
Qed.

Lemma NOTE_MAP_injective (c c' : ascii) (x : string) :
  dict_getitem NOTE_MAP (String c EmptyString) = Ok x ->
  dict_getitem NOTE_MAP (String c' EmptyString) = Ok x ->
  c = c'.
Proof.
  intros H H'. apply dict_getitem_pair in H, H'.
  cbn [NOTE_MAP In] in H, H'.
  repeat match goal with
         | H : _ \/ _ |- _ => destruct H as [H|H]
         | H : False |- _ => destruct H
         end;
    congruence.
Qed.

Lemma lookup_each_NOTE_MAP_injective (v1 v2 : string) (notes : list string) :
  lookup_each NOTE_MAP v1 = Ok notes -> lookup_each NOTE_MAP v2 = Ok notes ->
  v1 = v2.
Proof.
  revert v2 notes. induction v1 as [|c r1 IH]; intros [|c' r2] notes H1 H2;
    cbn [lookup_each] in H1, H2.
  - reflexivity.
  - injection H1 as <-.
    destruct (dict_getitem NOTE_MAP (String c' EmptyString)); cbn [rbind] in H2;
      [|discriminate H2].
    destruct (lookup_each NOTE_MAP r2); discriminate H2.
  - injection H2 as <-.
    destruct (dict_getitem NOTE_MAP (String c EmptyString)); cbn [rbind] in H1;
      [|discriminate H1].
    destruct (lookup_each NOTE_MAP r1); discriminate H1.
  - destruct (dict_getitem NOTE_MAP (String c EmptyString)) as [x|e] eqn:Hx;
      cbn [rbind] in H1; [|discriminate H1].
    destruct (lookup_each NOTE_MAP r1) as [xs|e] eqn:Hxs; cbn [rbind] in H1;
      [|discriminate H1].
    destruct (dict_getitem NOTE_MAP (String c' EmptyString)) as [x'|e] eqn:Hx';
      cbn [rbind] in H2; [|discriminate H2].
    destruct (lookup_each NOTE_MAP r2) as [xs'|e] eqn:Hxs'; cbn [rbind] in H2;
      [|discriminate H2].
    injection H1 as <-. injection H2 as E1 E2. subst x' xs'.
    f_equal; [eapply NOTE_MAP_injective; eassumption|].
    eapply IH; [reflexivity | exact Hxs'].
Qed.

(** Nothing of the vowels is lost in the notes: two texts with the same
    notes have the same sequence of vowels, up to case, and so the same
    solfege. *)
Theorem notes_determine_vowels (t1 t2 : string) (s1 s2 notes : list string) :
  encode_string t1 = Ok (s1, notes) ->
  encode_string t2 = Ok (s2, notes) ->
  py_lower (re_sub_non_vowels t1) = py_lower (re_sub_non_vowels t2) /\
  s1 = s2.
Proof.
  intros H1 H2.
  apply encode_string_inv in H1. apply encode_string_inv in H2.
  destruct H1 as [Hs1 Hn1], H2 as [Hs2 Hn2].
  pose proof (lookup_each_NOTE_MAP_injective _ _ _ Hn1 Hn2) as E.
  split; [exact E|]. rewrite E in Hs1. congruence.
Qed.

Lemma notes_determine_vowels_witness :
  py_lower (re_sub_non_vowels "Josquin des Prez")
  = py_lower (re_sub_non_vowels "OUTSIDE, me!")
  /\ ["sol"; "ut"; "mi"; "re"; "re"] = ["sol"; "ut"; "mi"; "re"; "re"].
Proof.
  apply (notes_determine_vowels "Josquin des Prez" "OUTSIDE, me!"
           _ _ ["C"; "G"; "E"; "D"; "D"]); reflexivity.
Defined.

(** * The program: from a line of text to a file *)

Lemma NOTE_FREQ_range (note : string) (f : R) :
  getitem NOTE_FREQ note = Ok f -> (0 < f < 400)%R.
Proof.
  unfold NOTE_FREQ. cbn [getitem].
  repeat match goal with
         | |- context [String.eqb ?k note] => destruct (String.eqb k note)
         end;
    intros H; try discriminate H; injection H as <-; lra.
Qed.

Lemma tone_second_sample (f : R) :
  (0 < f < 400)%R -> (0 < nth 1 (tone_values f 1) 0)%R.
Proof.
  intros Hf. unfold tone_values, sine_wave, linspace_points.
  assert (Hlt : (1 < Z.to_nat (44100 * 1))%nat) by lia.
  rewrite map_map, nth_map_seq by exact Hlt.
  assert (E : INR (Z.to_nat (44100 * 1) - 1) = 44099%R).
  { rewrite INR_IZR_INZ. apply f_equal. lia. }
  rewrite E. cbn [INR].
  pose proof PI_RGT_0 as Hpi.
  apply sin_gt_0.
  - assert (0 < 2 * PI * (0 + 1 * ((1 - 0) / 44099)))%R by lra.
    nra.
  - assert (H : (2 * PI * (0 + 1 * ((1 - 0) / 44099)) * f
                 = PI * (2 * f / 44099))%R) by (field; lra).
    rewrite H.
    assert (0 < 2 * f / 44099 < 1)%R by (split; lra).
    nra.
Qed.

(** A line of characters with code points below 256 that has no vowel
    makes [main] fail with the empty-input error of [audio_sequence];
    nothing is generated and no file is written. *)
Theorem main_without_vowels (w : world) (text stamp : string) :
  re_sub_non_vowels text = EmptyString ->
  main text stamp w = (Raise empty_input, w).
Proof.
  intros Hv. unfold main, bind, lift, encode_string.
  rewrite Hv. reflexivity.
Qed.

Lemma main_without_vowels_witness :
  main "Rhythm & Crwth" "20200101-000000" w_add = (Raise empty_input, w_add).
Proof.
  apply (main_without_vowels w_add "Rhythm & Crwth" "20200101-000000").
  reflexivity.
Defined.

(** A line of characters with code points below 256 that has at least one
    vowel and at most 48695 of them (the most seconds of 16-bit samples at
    44100 Hz that fit the 32-bit size field of a WAV file) makes [main] print
    the solfege and the notes of its encoding and write one file,
    [audio/soggetto_cavato_<stamp>.wav], at 44100 Hz, with 44100 values for
    each vowel, every one of them a defined 16-bit value between -32767 and
    32767.  The waveforms that existed before are left as they were. *)
Theorem main_writes_phrase (w : world) (text stamp : string) :
  re_sub_non_vowels text <> EmptyString ->
  Z.of_nat (String.length (re_sub_non_vowels text)) <= 48695 ->
  exists (solfege notes : list string) (w' : world) (data : list Z),
    encode_string text = Ok (solfege, notes) /\
    main text stamp w
    = (Ok [ String.append "Solfege: " (String.concat " " solfege);
            String.append "Notes " (String.concat " " notes) ],
       w') /\
    files w'
    = (String.append "audio/"
         (String.append "soggetto_cavato_" (String.append stamp ".wav")),
       WavFile {| wav_rate := 44100; wav_data := map Some data |})
      :: files w /\
    Z.of_nat (length data)
    = 44100 * Z.of_nat (String.length (re_sub_non_vowels text)) /\
    Forall (fun z => -32767 <= z <= 32767) data /\
    (forall (x : ref) (o : SoundWave), obj w x = Some o -> obj w' x = Some o).
Proof.
  intros Hv Hmost.
  destruct (lookup_each_vowels SOLFEGE_MAP SOLFEGE_MAP_vowels text)
    as (solfege & Hs & _ & _).
  destruct (lookup_each_vowels NOTE_MAP NOTE_MAP_vowels text)
    as (notes & Hn & Hln & Han).
  assert (Henc : encode_string text = Ok (solfege, notes))
    by (unfold encode_string; now rewrite Hs, Hn).
  assert (Hin : Forall (fun note => In note (map fst NOTE_FREQ)) notes).
  { eapply Forall_impl; [|exact Han]. cbn. intros note H. tauto. }
  assert (Hne : notes <> []).
  { intros ->. destruct (re_sub_non_vowels text); [congruence | discriminate Hln]. }
  destruct (lookup_notes_ok notes Hin) as (hertz & Hlook & Hall).
  assert (H01 : 0 <= 1) by lia.
  destruct (audio_sequence_run w notes hertz 1 Hne Hlook H01)
    as (r & w1 & Hrun & Hobj & Hext & _).
  set (s := concat (map (fun f => tone_values f 1) hertz)) in *.
  assert (Hloud : exists x : R, In x s /\ x <> 0%R).
  { destruct Hall as [|note h0 notes' rest Hh0 _]; [congruence|].
    exists (nth 1 (tone_values h0 1) 0%R). split.
    - unfold s. cbn [map concat]. apply in_or_app. left.
      apply nth_In. rewrite tone_values_length.
      change (44100 * 1) with 44100. lia.
    - pose proof (tone_second_sample h0 (NOTE_FREQ_range _ _ Hh0)). lra. }
  destruct (float64_peak s Hloud) as (peak & Hpeak & Hpos & Hle & _).
  assert (Hlen : Z.of_nat (length s)
                 = 44100 * Z.of_nat (String.length (re_sub_non_vowels text))).
  { unfold s.
    rewrite (length_concat_const _ (Z.to_nat (44100 * 1))).
    - rewrite length_map, <- (Forall2_length Hall), Hln.
      change (44100 * 1) with 44100. lia.
    - apply Forall_map, Forall_forall. intros f _. apply tone_values_length. }
  exists solfege, notes.
  exists {| heap := heap w1;
            files := (String.append "audio/"
                        (String.append "soggetto_cavato_"
                           (String.append stamp ".wav")),
                      WavFile
                        {| wav_rate := 44100;
                           wav_data := map Some (map (pcm_of peak) s) |})
                     :: files w1 |}.
  exists (map (pcm_of peak) s).
  split; [exact Henc|].
  split.
  { unfold main, bind, lift. rewrite Henc. cbn [fst snd]. rewrite Hrun.
    rewrite (export_run w1 r _ _ false Hobj). cbn [samples rescales rate].
    rewrite (rescale_float64 _ peak Hpeak) by lra.
    rewrite wavfile_write_ok; [|lia | rewrite length_map; lia].
    unfold ret. rewrite (map_map (pcm_of peak) Some).
    reflexivity. }
  split; [cbn [files]; f_equal; apply Hext|].
  split; [rewrite length_map; exact Hlen|].
  split.
  { apply Forall_map, Forall_forall. intros v Hv'.
    apply pcm_of_bound; [exact Hpos | now apply Hle]. }
  intros x o Hx. unfold obj. cbn [heap].
  eapply extends_obj; eassumption.
Qed.

Lemma main_writes_phrase_witness :
  exists (solfege notes : list string) (w' : world) (data : list Z),
    encode_string "Josquin des Prez" = Ok (solfege, notes) /\
    main "Josquin des Prez" "20200101-000000" w_add
    = (Ok [ String.append "Solfege: " (String.concat " " solfege);
            String.append "Notes " (String.concat " " notes) ],
       w') /\
    files w'
    = ("audio/soggetto_cavato_20200101-000000.wav",
       WavFile {| wav_rate := 44100; wav_data := map Some data |})
      :: files w_add /\
    Z.of_nat (length data) = 44100 * 5 /\
    Forall (fun z => -32767 <= z <= 32767) data /\
    (forall (x : ref) (o : SoundWave),
       obj w_add x = Some o -> obj w' x = Some o).
Proof.
  apply (main_writes_phrase w_add "Josquin des Prez" "20200101-000000").
  - discriminate.
  - simpl. lia.
Defined.

(** * The callback of [app.py] *)

(** [repr] of a string that has no quote and needs no escape, as all the
    values of the two tables are. *)
Definition py_repr_str (s : string) : string :=
  String.append "'" (String.append s "'").

(** [str] of a list of such strings. *)
Definition py_str_list (l : list string) : string :=
  String.append "[" (String.append (String.concat ", " (map py_repr_str l)) "]").

Definition newline : string := String "010"%char EmptyString.

Definition update_output_div (input_value : string) : result string :=
  rbind (encode_string input_value) (fun sn =>
    let solfege := fst sn in
    let notes := snd sn in
    Ok (String.append "Solfege: "
          (String.append (py_str_list solfege)
             (String.append newline
                (String.append "Notes: " (py_str_list notes)))))).

Example update_output_div_josquin :
  update_output_div "Josquin des Prez"
  = Ok (String.append "Solfege: ['sol', 'ut', 'mi', 're', 're']"
          (String.append newline "Notes: ['C', 'G', 'E', 'D', 'D']")).
Proof. reflexivity. Qed.

(** The callback answers every text of characters with code points below
    256, a text without vowels included (the two lists are then empty), and
    its answer depends on the vowels only: two such texts with the same
    vowels, up to case, get the same answer. *)
Theorem update_output_div_answers (t1 t2 : string) :
  (exists out : string, update_output_div t1 = Ok out) /\
  (re_sub_non_vowels t1 = EmptyString ->
   update_output_div t1
   = Ok (String.append "Solfege: []" (String.append newline "Notes: []"))) /\
  (py_lower (re_sub_non_vowels t1) = py_lower (re_sub_non_vowels t2) ->
   update_output_div t1 = update_output_div t2).
Proof.
  split; [|split].
  - destruct (lookup_each_vowels SOLFEGE_MAP SOLFEGE_MAP_vowels t1)
      as (solfege & Hs & _).
    destruct (lookup_each_vowels NOTE_MAP NOTE_MAP_vowels t1)
      as (notes & Hn & _).
    unfold update_output_div, encode_string. rewrite Hs, Hn.
    eexists. reflexivity.
  - intros Hv. unfold update_output_div, encode_string. rewrite Hv.
    reflexivity.
  - intros E. unfold update_output_div, encode_string. now rewrite E.
Qed.

(** * The inverse transform undoes the transform *)

(** ** Sums of complex numbers *)

Lemma Cplus_assoc (a b c : C) : Cplus a (Cplus b c) = Cplus (Cplus a b) c.
Proof. unfold Cplus. cbn [fst snd]. f_equal; ring. Qed.

Lemma Cplus_C0_r (a : C) : Cplus a C0 = a.
Proof. destruct a. unfold Cplus, C0. cbn [fst snd]. f_equal; ring. Qed.

Lemma Cplus_C0_l (a : C) : Cplus C0 a = a.
Proof. rewrite Cplus_comm. apply Cplus_C0_r. Qed.

Lemma Cmult_assoc (a b c : C) : Cmult a (Cmult b c) = Cmult (Cmult a b) c.
Proof. unfold Cmult. cbn [fst snd]. f_equal; ring. Qed.

Lemma Cmult_plus_distr_r (a b c : C) :
  Cmult (Cplus a b) c = Cplus (Cmult a c) (Cmult b c).
Proof. unfold Cmult, Cplus. cbn [fst snd]. f_equal; ring. Qed.

Lemma Cmult_plus_distr_l (a b c : C) :
  Cmult a (Cplus b c) = Cplus (Cmult a b) (Cmult a c).
Proof. unfold Cmult, Cplus. cbn [fst snd]. f_equal; ring. Qed.

Lemma Cmult_C0_r (c : C) : Cmult c C0 = C0.
Proof. unfold Cmult, C0. cbn [fst snd]. f_equal; ring. Qed.

Lemma Csum_app (l1 l2 : list C) : Csum (l1 ++ l2) = Cplus (Csum l1) (Csum l2).
Proof.
  induction l1 as [|c l1 IH]; cbn [app Csum fold_right].
  - now rewrite Cplus_C0_l.
  - fold (Csum (l1 ++ l2)). fold (Csum l1). now rewrite IH, Cplus_assoc.
Qed.

Lemma Csum_mult_r {A : Type} (f : A -> C) (c : C) (l : list A) :
  Cmult (Csum (map f l)) c = Csum (map (fun k => Cmult (f k) c) l).
Proof.
  induction l as [|k l IH]; cbn [map Csum fold_right].
  - apply Cmult_C0_l.
  - fold (Csum (map f l)). fold (Csum (map (fun k => Cmult (f k) c) l)).
    now rewrite Cmult_plus_distr_r, IH.
Qed.

Lemma Csum_mult_l {A : Type} (f : A -> C) (c : C) (l : list A) :
  Cmult c (Csum (map f l)) = Csum (map (fun k => Cmult c (f k)) l).
Proof.
  induction l as [|k l IH]; cbn [map Csum fold_right].
  - apply Cmult_C0_r.
  - fold (Csum (map f l)). fold (Csum (map (fun k => Cmult c (f k)) l)).
    now rewrite Cmult_plus_distr_l, IH.
Qed.

Lemma Csum_plus {A : Type} (f g : A -> C) (l : list A) :
  Csum (map (fun k => Cplus (f k) (g k)) l)
  = Cplus (Csum (map f l)) (Csum (map g l)).
Proof.
  induction l as [|k l IH]; cbn [map Csum fold_right].
  - now rewrite Cplus_C0_l.
  - fold (Csum (map f l)). fold (Csum (map g l)).
    fold (Csum (map (fun k => Cplus (f k) (g k)) l)). rewrite IH.
    unfold Cplus. cbn [fst snd]. f_equal; ring.
Qed.

Lemma Csum_const_C0 {A : Type} (l : list A) : Csum (map (fun _ => C0) l) = C0.
Proof.
  apply Csum_zeros, Forall_map, Forall_forall. intros; reflexivity.
Qed.

(** The two orders of summation of a finite double sum. *)
Lemma Csum_exchange {A B : Type} (g : A -> B -> C) (K : list A) (L : list B) :
  Csum (map (fun k => Csum (map (fun l => g k l) L)) K)
  = Csum (map (fun l => Csum (map (fun k => g k l) K)) L).
Proof.
  induction K as [|k K IH]; cbn [map Csum fold_right].
  - symmetry. apply Csum_const_C0.
  - fold (Csum (map (fun k => Csum (map (fun l => g k l) L)) K)).
    rewrite IH, <- Csum_plus. reflexivity.
Qed.

(** ** Roots of unity *)

Definition cis (t : R) : C := (cos t, sin t).

Lemma cis_mult (a b : R) : Cmult (cis a) (cis b) = cis (a + b).
Proof.
  unfold cis, Cmult. cbn [fst snd]. rewrite cos_plus, sin_plus.
  f_equal; ring.
Qed.

Lemma twiddle_pos (n m : nat) :
  twiddle 1 n m = cis (2 * PI * INR m / INR n).
Proof. unfold twiddle, cis. f_equal. ring. Qed.

Lemma twiddle_neg (n m : nat) :
  twiddle (-1) n m = cis (- (2 * PI * INR m / INR n)).
Proof.
  unfold twiddle, cis. rewrite cos_neg, sin_neg. f_equal. ring.
Qed.

Lemma cis_2PI_nat (k : nat) : cis (2 * PI * INR k) = (1%R, 0%R).
Proof.
  unfold cis.
  replace (2 * PI * INR k)%R with (0 + 2 * INR k * PI)%R by ring.
  now rewrite cos_period, sin_period, cos_0, sin_0.
Qed.

Lemma cis_2PI_diff (j l : nat) :
  cis (2 * PI * INR j - 2 * PI * INR l) = (1%R, 0%R).
Proof.
  pose proof (cis_2PI_nat j) as Hj. pose proof (cis_2PI_nat l) as Hl.
  unfold cis in *. injection Hj as Hj1 Hj2. injection Hl as Hl1 Hl2.
  rewrite cos_minus, sin_minus, Hj1, Hj2, Hl1, Hl2. f_equal; ring.
Qed.

(** The partial sums of a geometric progression of ratio [cis phi]. *)
Lemma cis_geometric (phi : R) (n : nat) :
  Cmult (Csum (map (fun k => cis (INR k * phi)) (seq 0 n)))
    (Cplus (cis phi) ((-1)%R, 0%R))
  = Cplus (cis (INR n * phi)) ((-1)%R, 0%R).
Proof.
  induction n as [|n IH].
  - cbn [seq map Csum fold_right INR]. rewrite Cmult_C0_l.
    replace (0 * phi)%R with 0%R by ring.
    unfold cis, Cplus, C0. cbn [fst snd]. rewrite cos_0, sin_0.
    f_equal; ring.
  - rewrite seq_S, map_app, Csum_app, Cmult_plus_distr_r, IH.
    cbn [Nat.add map Csum fold_right]. rewrite Cplus_C0_r.
    rewrite Cmult_plus_distr_l, cis_mult.
    replace (INR n * phi + phi)%R with (INR (S n) * phi)%R
      by (rewrite S_INR; ring).
    unfold Cplus, Cmult, cis. cbn [fst snd]. f_equal; ring.
Qed.

Lemma Cmult_integral (s u : C) : Cmult s u = C0 -> u <> C0 -> s = C0.
Proof.
  destruct s as [s t], u as [a b]. unfold Cmult, C0. cbn [fst snd].
  intros H Hu. injection H as H1 H2.
  assert (Hn : (a * a + b * b <> 0)%R).
  { intros E. apply Hu. destruct (Rplus_sqr_eq_0 a b E) as [-> ->].
    reflexivity. }
  assert (Hs : (s * (a * a + b * b) = 0)%R).
  { replace (s * (a * a + b * b))%R
      with (a * (s * a - t * b) + b * (s * b + t * a))%R by ring.
    rewrite H1, H2. ring. }
  assert (Ht : (t * (a * a + b * b) = 0)%R).
  { replace (t * (a * a + b * b))%R
      with (a * (s * b + t * a) - b * (s * a - t * b))%R by ring.
    rewrite H1, H2. ring. }
  apply Rmult_integral in Hs, Ht.
  destruct Hs as [Hs|Hs]; [|contradiction].
  destruct Ht as [Ht|Ht]; [|contradiction].
  congruence.
Qed.

Lemma cos_lt_1 (phi : R) : (0 < phi < 2 * PI)%R -> (cos phi < 1)%R.
Proof.
  intros H.
  replace phi with (2 * (phi / 2))%R by field.
  rewrite cos_2a_sin.
  assert (Hs : (0 < sin (phi / 2))%R) by (apply sin_gt_0; lra).
  nra.
Qed.

Lemma cis_ne_1 (phi : R) :
  (0 < phi < 2 * PI)%R \/ (- (2 * PI) < phi < 0)%R ->
  Cplus (cis phi) ((-1)%R, 0%R) <> C0.
Proof.
  intros H E. unfold Cplus, cis, C0 in E. cbn [fst snd] in E.
  injection E as E _.
  destruct H as [H|H].
  - pose proof (cos_lt_1 phi H). lra.
  - assert (H' : (0 < - phi < 2 * PI)%R) by lra.
    pose proof (cos_lt_1 _ H') as Hc. rewrite cos_neg in Hc. lra.
Qed.

(** The angle between the roots of index [j] and [l], of order [n]. *)
Definition root_angle (n j l : nat) : R :=
  (2 * PI * (INR j - INR l) / INR n)%R.

Lemma root_angle_range (n j l : nat) :
  (j < n)%nat -> (l < n)%nat -> j <> l ->
  (0 < root_angle n j l < 2 * PI)%R \/ (- (2 * PI) < root_angle n j l < 0)%R.
Proof.
  intros Hj Hl Hne. unfold root_angle.
  pose proof PI_RGT_0 as Hpi.
  assert (Hn : (0 < INR n)%R) by (apply lt_0_INR; lia).
  assert (Hjn : (INR j < INR n)%R) by now apply lt_INR.
  assert (Hln : (INR l < INR n)%R) by now apply lt_INR.
  assert (Hj0 : (0 <= INR j)%R) by apply pos_INR.
  assert (Hl0 : (0 <= INR l)%R) by apply pos_INR.
  assert (Hi : (0 < / INR n)%R) by now apply Rinv_0_lt_compat.
  assert (E : (INR n * / INR n = 1)%R) by (apply Rinv_r; lra).
  unfold Rdiv.
  destruct (Nat.lt_gt_cases j l) as [Hc _]. specialize (Hc Hne).
  destruct Hc as [Hlt|Hgt].
  - right. assert (INR j < INR l)%R by now apply lt_INR.
    set (q := (/ INR n)%R) in *.
    assert (- 1 < (INR j - INR l) * q < 0)%R by (split; nra).
    split; nra.
  - left. assert (INR l < INR j)%R by now apply lt_INR.
    set (q := (/ INR n)%R) in *.
    assert (0 < (INR j - INR l) * q < 1)%R by (split; nra).
    split; nra.
Qed.

(** Orthogonality of the roots of unity. *)
Lemma cis_sum (n j l : nat) :
  (j < n)%nat -> (l < n)%nat ->
  Csum (map (fun k => cis (INR k * root_angle n j l)) (seq 0 n))
  = if Nat.eqb j l then (INR n, 0%R) else C0.
Proof.
  intros Hj Hl. destruct (Nat.eqb_spec j l) as [E|E].
  - subst l. unfold root_angle.
    replace (2 * PI * (INR j - INR j) / INR n)%R with 0%R
      by (unfold Rdiv; ring).
    clear Hj Hl. induction n as [|n IH]; [reflexivity|].
    rewrite seq_S, map_app, Csum_app, IH. cbn [Nat.add map Csum fold_right].
    replace (INR n * 0)%R with 0%R by ring.
    unfold cis, Cplus, C0. cbn [fst snd]. rewrite cos_0, sin_0, S_INR.
    f_equal; ring.
  - apply (Cmult_integral _ (Cplus (cis (root_angle n j l)) ((-1)%R, 0%R))).
    + rewrite cis_geometric.
      replace (INR n * root_angle n j l)%R
        with (2 * PI * INR j - 2 * PI * INR l)%R.
      * rewrite cis_2PI_diff. unfold Cplus, C0. cbn [fst snd].
        f_equal; ring.
      * unfold root_angle. field. apply not_0_INR. lia.
    + apply cis_ne_1. now apply root_angle_range.
Qed.

Lemma twiddle_pair (n j l k : nat) :
  n <> O ->
  Cmult (twiddle (-1) n (l * k)) (twiddle 1 n (k * j))
  = cis (INR k * root_angle n j l).
Proof.
  intros Hn. rewrite twiddle_neg, twiddle_pos, cis_mult, !mult_INR.
  f_equal. unfold root_angle. field. now apply not_0_INR.
Qed.

Lemma dft_orthogonal (n j l : nat) :
  (j < n)%nat -> (l < n)%nat ->
  Csum (map (fun k => Cmult (twiddle (-1) n (l * k)) (twiddle 1 n (k * j)))
          (seq 0 n))
  = if Nat.eqb j l then (INR n, 0%R) else C0.
Proof.
  intros Hj Hl. rewrite <- (cis_sum n j l Hj Hl). f_equal.
  apply map_ext. intros k. apply twiddle_pair. lia.
Qed.

Lemma Csum_delta (g : nat -> C) (c : C) (j : nat) :
  forall a n : nat,
    Csum (map (fun l => Cmult (g l) (if Nat.eqb j l then c else C0))
            (seq a n))
    = if ((a <=? j) && (j <? a + n))%nat then Cmult (g j) c else C0.
Proof.
  intros a n. revert a. induction n as [|n IH]; intros a.
  - cbn [seq map Csum fold_right].
    destruct (Nat.leb_spec a j), (Nat.ltb_spec j (a + 0)); cbn [andb];
      try reflexivity; lia.
  - cbn [seq map Csum fold_right].
    fold (Csum (map (fun l => Cmult (g l) (if Nat.eqb j l then c else C0))
                  (seq (S a) n))).
    rewrite IH.
    destruct (Nat.eqb_spec j a) as [E|E].
    + subst a.
      destruct (Nat.leb_spec (S j) j); [lia|]. cbn [andb].
      destruct (Nat.leb_spec j j); [|lia].
      destruct (Nat.ltb_spec j (j + S n)); [|lia]. cbn [andb].
      apply Cplus_C0_r.
    + rewrite Cmult_C0_r, Cplus_C0_l.
      destruct (Nat.leb_spec (S a) j), (Nat.leb_spec a j),
        (Nat.ltb_spec j (S a + n)), (Nat.ltb_spec j (a + S n)); cbn [andb];
        try reflexivity; lia.
Qed.

(** The inverse transform of the forward transform of a sequence is the
    sequence. *)
Lemma idft_dft (x : list C) : idft (dft (-1) x) = x.
Proof.
  set (n := length x).
  assert (Hlen : length (dft (-1) x) = n) by apply dft_length.
  apply (nth_ext _ _ C0 C0); [now rewrite idft_length|].
  intros j Hj. rewrite idft_length, Hlen in Hj.
  unfold idft. rewrite Hlen. unfold dft at 1. rewrite Hlen, map_map.
  rewrite nth_map_seq by exact Hj.
  unfold dft_coeff at 1. rewrite Hlen.
  rewrite (map_ext_in _
             (fun k => Csum (map (fun l => Cmult (Cmult (nth l x C0)
                                                     (twiddle (-1) n (l * k)))
                                              (twiddle 1 n (k * j)))
                               (seq 0 n)))).
  2:{ intros k Hk. apply in_seq in Hk.
      unfold dft. fold n. rewrite nth_map_seq by lia.
      unfold dft_coeff. fold n. apply Csum_mult_r. }
  rewrite Csum_exchange.
  rewrite (map_ext_in _
             (fun l => Cmult (nth l x C0)
                         (if Nat.eqb j l then (INR n, 0%R) else C0))).
  2:{ intros l Hl. apply in_seq in Hl.
      rewrite <- (dft_orthogonal n j l) by lia.
      rewrite Csum_mult_l. f_equal. apply map_ext. intros k.
      symmetry. apply Cmult_assoc. }
  rewrite Csum_delta.
  destruct (Nat.leb_spec 0 j); [|lia].
  destruct (Nat.ltb_spec j (0 + n)); [|lia]. cbn [andb].
  destruct (nth j x C0) as [u v]. unfold Cscal, Cmult. cbn [fst snd].
  assert (Hn : INR n <> 0%R) by (apply not_0_INR; lia).
  f_equal; field; exact Hn.
Qed.

(** ** Filtering an empty band *)

Lemma fill_range_empty {A : Type} (z : A) (b i : Z) (l : list A) :
  fill_range z b b i l = l.
Proof.
  revert i. induction l as [|x l IH]; intros i; cbn [fill_range];
    [reflexivity|].
  rewrite IH.
  destruct (Z.leb_spec b i), (Z.ltb_spec i b); cbn [andb];
    try reflexivity; lia.
Qed.

Lemma setitem_slice_zero_empty (a : ndarray) (k : Z) :
  setitem_slice_zero a k k = a.
Proof.
  destruct a; unfold setitem_slice_zero; now rewrite fill_range_empty.
Qed.

(** When both frequencies fall in the same bin, [low_freq = high_freq] for
    one, [clean] clears nothing: the waveform keeps its rate and, with sample
    values over the reals (the program returns them up to the binary64
    rounding of the two transforms), its samples, now held as complex
    numbers. *)
Theorem clean_empty_band (w : world) (self : ref) (o : SoundWave)
  (low high : float64) (k : Z) :
  obj w self = Some o -> size (samples o) <> O ->
  freq_bin low (len (samples o)) (rate o) = Ok k ->
  freq_bin high (len (samples o)) (rate o) = Ok k ->
  clean self low high w
  = (Ok tt,
     {| heap := update (heap w) self
                  {| rate := rate o;
                     samples := Complex128 (as_complex128 (samples o)) |};
        files := files w |}).
Proof.
  intros Ho Hsz Hlow Hhigh.
  rewrite (clean_run w self o low high k k Ho Hsz Hlow Hhigh). cbv zeta.
  rewrite !setitem_slice_zero_empty. cbn [as_complex128].
  rewrite idft_dft. now apply setattr_samples_run.
Qed.

Lemma clean_empty_band_witness :
  clean 0%nat (py_float 440) (py_float 440) w_two
  = (Ok tt,
     {| heap := update (heap w_two) 0%nat
                  {| rate := 44100;
                     samples := Complex128 (as_complex128 (Int16 [1; 0])) |};
        files := files w_two |}).
Proof.
  apply (clean_empty_band w_two 0%nat
           {| rate := 44100; samples := Int16 [1; 0] |}
           (py_float 440) (py_float 440) 0).
  - reflexivity.
  - simpl. discriminate.
  - vm_compute. reflexivity.
  - vm_compute. reflexivity.
Defined.

(** ** Convolution with the unit impulse *)

Definition Cone : C := (1%R, 0%R).

Lemma Cmult_Cone_r (c : C) : Cmult c Cone = c.
Proof. destruct c. unfold Cmult, Cone. cbn [fst snd]. f_equal; ring. Qed.

Lemma Cmult_Cone_l (c : C) : Cmult Cone c = c.
Proof. rewrite Cmult_comm. apply Cmult_Cone_r. Qed.

Lemma as_complex128_pad_zeros (a : ndarray) (k : nat) :
  as_complex128 (pad_zeros a k) = as_complex128 a ++ repeat C0 k.
Proof.
  destruct a; cbn [pad_zeros as_complex128]; rewrite ?map_app, ?map_repeat;
    reflexivity.
Qed.

(** The transform of the unit impulse is constant. *)
Lemma dft_impulse (sign : R) (k : nat) :
  dft sign (Cone :: repeat C0 k) = repeat Cone (S k).
Proof.
  unfold dft. cbn [length]. rewrite repeat_length.
  transitivity (map (fun _ : nat => Cone) (seq 0 (S k)));
    [|now rewrite map_constant, length_seq].
  apply map_ext. intros i. unfold dft_coeff. cbn [length].
  rewrite repeat_length. cbn [seq map Csum fold_right nth Nat.mul].
  rewrite twiddle_0, Cmult_Cone_l.
  fold (Csum (map (fun j => Cmult (nth j (Cone :: repeat C0 k) C0)
                               (twiddle sign (S k) (j * i)))
                (seq 1 k))).
  rewrite Csum_zeros; [apply Cplus_C0_r|].
  apply Forall_map, Forall_forall. intros j Hj. apply in_seq in Hj.
  destruct j as [|j]; [lia|]. cbn [nth]. rewrite nth_repeat.
  symmetry. apply Cmult_C0_l.
Qed.

Lemma map2_Cmult_ones (F : list C) :
  map2 Cmult F (repeat Cone (length F)) = F.
Proof.
  induction F as [|c F IH]; [reflexivity|].
  cbn [length repeat map2]. now rewrite Cmult_Cone_r, IH.
Qed.

Lemma spectral_product_impulse (f g : ndarray) (k : nat) :
  as_complex128 g = Cone :: repeat C0 k -> size f = S k ->
  spectral_product f g = Complex128 (as_complex128 f).
Proof.
  intros Hg Hf. unfold spectral_product. rewrite Hg, dft_impulse.
  rewrite <- Hf, <- size_as_complex128.
  rewrite <- (dft_length (-1) (as_complex128 f)), map2_Cmult_ones.
  now rewrite idft_dft.
Qed.

(** With sample values over the reals (the program returns them up to the
    binary64 rounding of the transforms), the linear convolution of a
    non-empty waveform with a one-sample waveform of the same rate whose
    sample is 1, in either order, has the samples of the waveform, held as
    complex numbers. *)
Theorem pow_unit_impulse (w : world) (a b : ref) (oa ob : SoundWave) :
  obj w a = Some oa -> obj w b = Some ob ->
  rate oa = rate ob ->
  1 <= len (samples oa) ->
  as_complex128 (samples ob) = [Cone] ->
  exists (r1 r2 : ref) (w1 w2 : world),
    __pow__ a b w = (Ok r1, w1) /\
    __pow__ b a w = (Ok r2, w2) /\
    obj w1 r1
    = Some {| rate := rate oa;
              samples := Complex128 (as_complex128 (samples oa)) |} /\
    obj w2 r2
    = Some {| rate := rate oa;
              samples := Complex128 (as_complex128 (samples oa)) |}.
Proof.
  intros Ha Hb Hr Hm Himp.
  assert (Hn : len (samples ob) = 1).
  { unfold len. rewrite <- size_as_complex128, Himp. reflexivity. }
  assert (Hn1 : 1 <= len (samples ob)) by lia.
  pose proof (pow_run w a b oa ob Ha Hb Hr Hm Hn1) as H1.
  pose proof (pow_run w b a ob oa Hb Ha (eq_sym Hr) Hn1 Hm) as H2.
  cbv zeta in H1, H2.
  rewrite (Z.add_comm (len (samples oa)) (len (samples ob))) in H2.
  rewrite spectral_product_comm in H2. rewrite <- Hr in H2.
  rewrite (Z.add_comm (len (samples ob)) (len (samples oa))) in H2 at 3.
  set (m := len (samples oa)) in *.
  set (p := 2 ^ Z.log2_up (len (samples ob) + m - 1)) in *.
  assert (Hp : m <= p).
  { unfold p. rewrite Hn. replace (1 + m - 1) with m by lia.
    now apply log2_up_pow2_ge. }
  assert (Hprod :
    getitem_slice_to
      (spectral_product
         (pad_zeros (samples oa) (Z.to_nat (p - m)))
         (pad_zeros (samples ob) (Z.to_nat (p - len (samples ob)))))
      (m + len (samples ob) - 1)
    = Complex128 (as_complex128 (samples oa))).
  { rewrite Hn. replace (m + 1 - 1) with m by lia.
    rewrite (spectral_product_impulse _ _ (Z.to_nat (p - 1))).
    - rewrite as_complex128_pad_zeros.
      assert (Hsz : length (as_complex128 (samples oa)) = Z.to_nat m)
        by (rewrite size_as_complex128; unfold m, len; lia).
      unfold getitem_slice_to, slice_index, len. cbn [size].
      rewrite length_app, repeat_length, Hsz.
      destruct (Z.ltb_spec m 0); [lia|].
      rewrite Z.min_l by lia.
      rewrite firstn_app, firstn_all2 by lia.
      rewrite Hsz, Nat.sub_diag. cbn [firstn]. now rewrite app_nil_r.
    - rewrite as_complex128_pad_zeros, Himp. reflexivity.
    - rewrite size_pad_zeros. unfold m, len in *. lia. }
  rewrite Hprod in H1, H2.
  eexists _, _, _, _.
  split; [rewrite H1; reflexivity|].
  split; [rewrite H2; reflexivity|].
  split; apply new_SoundWave_new.
Qed.

Definition w_impulse : world :=
  {| heap := [ {| rate := 8000; samples := Int16 [3; -4; 5] |};
               {| rate := 8000; samples := Int16 [1] |} ];
     files := [] |}.

Lemma pow_unit_impulse_witness :
  exists (r1 r2 : ref) (w1 w2 : world),
    __pow__ 0%nat 1%nat w_impulse = (Ok r1, w1) /\
    __pow__ 1%nat 0%nat w_impulse = (Ok r2, w2) /\
    obj w1 r1
    = Some {| rate := 8000;
              samples := Complex128 (as_complex128 (Int16 [3; -4; 5])) |} /\
    obj w2 r2
    = Some {| rate := 8000;
              samples := Complex128 (as_complex128 (Int16 [3; -4; 5])) |}.
Proof.
  assert (H13 : 1 <= 3) by lia.
  exact (pow_unit_impulse w_impulse 0%nat 1%nat
           {| rate := 8000; samples := Int16 [3; -4; 5] |}
           {| rate := 8000; samples := Int16 [1] |}
           eq_refl eq_refl eq_refl H13 eq_refl).
Defined.

(** * What the convolutions compute *)

(** ** Roots of unity of any index *)

Lemma cis_period_Z (x : R) (z : Z) : cis (x + 2 * PI * IZR z) = cis x.
Proof.
  assert (Hnat : forall (y : R) (k : nat),
            cis (y + 2 * PI * INR k) = cis y).
  { intros y k. unfold cis.
    replace (y + 2 * PI * INR k)%R with (y + 2 * INR k * PI)%R by ring.
    now rewrite cos_period, sin_period. }
  destruct (Z_le_gt_dec 0 z) as [Hz|Hz].
  - rewrite <- (Z2Nat.id z Hz), <- INR_IZR_INZ. apply Hnat.
  - rewrite <- (Hnat (x + 2 * PI * IZR z)%R (Z.to_nat (- z))).
    f_equal. rewrite INR_IZR_INZ, Z2Nat.id by lia. rewrite opp_IZR. ring.
Qed.

Lemma cis_sum_Z (n : nat) (d : Z) :
  n <> O ->
  Csum (map (fun k => cis (INR k * (2 * PI * IZR d / INR n))) (seq 0 n))
  = if d mod Z.of_nat n =? 0 then (INR n, 0%R) else C0.
Proof.
  intros Hn.
  assert (Hn0 : INR n <> 0%R) by now apply not_0_INR.
  set (r := d mod Z.of_nat n).
  assert (Hr : 0 <= r < Z.of_nat n) by (apply Z.mod_pos_bound; lia).
  assert (Hd : d = Z.of_nat n * (d / Z.of_nat n) + r)
    by (apply Z.div_mod; lia).
  rewrite (map_ext _ (fun k => cis (INR k * root_angle n (Z.to_nat r) 0))).
  - rewrite cis_sum by lia.
    destruct (Z.eqb_spec r 0) as [E|E], (Nat.eqb_spec (Z.to_nat r) 0);
      try reflexivity; lia.
  - intros k.
    rewrite <- (cis_period_Z (INR k * root_angle n (Z.to_nat r) 0)
                  (Z.of_nat k * (d / Z.of_nat n))).
    f_equal. unfold root_angle. rewrite Hd at 1.
    rewrite plus_IZR, !mult_IZR, <- !INR_IZR_INZ.
    rewrite (INR_IZR_INZ (Z.to_nat r)), Z2Nat.id by lia.
    cbn [INR]. field. exact Hn0.
Qed.

Lemma twiddle_triple (n j l m k : nat) :
  n <> O ->
  Cmult (Cmult (twiddle (-1) n (l * k)) (twiddle (-1) n (m * k)))
    (twiddle 1 n (k * j))
  = cis (INR k * (2 * PI * IZR (Z.of_nat j - Z.of_nat l - Z.of_nat m)
                  / INR n)).
Proof.
  intros Hn. rewrite !twiddle_neg, twiddle_pos, !cis_mult, !mult_INR.
  f_equal. rewrite !minus_IZR, <- !INR_IZR_INZ. field. now apply not_0_INR.
Qed.

(** Whether [l + m] and [j] are congruent modulo [n]. *)
Definition cyclic (n j l m : nat) : bool :=
  (Z.of_nat j - Z.of_nat l - Z.of_nat m) mod Z.of_nat n =? 0.

Lemma twiddle_triple_sum (n j l m : nat) :
  n <> O ->
  Csum (map (fun k => Cmult (Cmult (twiddle (-1) n (l * k))
                                (twiddle (-1) n (m * k)))
                        (twiddle 1 n (k * j)))
          (seq 0 n))
  = if cyclic n j l m then (INR n, 0%R) else C0.
Proof.
  intros Hn. unfold cyclic. rewrite <- cis_sum_Z by exact Hn. f_equal.
  apply map_ext. intros k. now apply twiddle_triple.
Qed.

(** ** The product of two transforms, transformed back *)

Lemma Cscal_Csum {A : Type} (r : R) (f : A -> C) (l : list A) :
  Cscal r (Csum (map f l)) = Csum (map (fun k => Cscal r (f k)) l).
Proof.
  induction l as [|k l IH]; cbn [map Csum fold_right].
  - apply Cscal_C0.
  - fold (Csum (map f l)). fold (Csum (map (fun k => Cscal r (f k)) l)).
    rewrite <- IH. unfold Cscal, Cplus. cbn [fst snd]. f_equal; ring.
Qed.

Lemma Csum_ext_in {A : Type} (f g : A -> C) (l : list A) :
  (forall k : A, In k l -> f k = g k) -> Csum (map f l) = Csum (map g l).
Proof. intros H. f_equal. now apply map_ext_in. Qed.

Lemma Csum_triple {A B : Type} (a : A -> C) (b : B -> C) (t : C)
  (L : list A) (M : list B) :
  Cmult (Cmult (Csum (map a L)) (Csum (map b M))) t
  = Csum (map (fun l => Csum (map (fun m => Cmult (Cmult (a l) (b m)) t) M))
            L).
Proof.
  rewrite Csum_mult_r, Csum_mult_r. apply Csum_ext_in. intros l _.
  rewrite Csum_mult_l, Csum_mult_r. reflexivity.
Qed.

Lemma Cmult_shuffle (u a v b t : C) :
  Cmult (Cmult (Cmult u a) (Cmult v b)) t
  = Cmult (Cmult u v) (Cmult (Cmult a b) t).
Proof. unfold Cmult. cbn [fst snd]. f_equal; ring. Qed.

Lemma nth_dft (sign : R) (x : list C) (k : nat) :
  (k < length x)%nat -> nth k (dft sign x) C0 = dft_coeff sign x k.
Proof. intros Hk. unfold dft. now rewrite nth_map_seq. Qed.

Lemma nth_idft (y : list C) (j : nat) :
  (j < length y)%nat ->
  nth j (idft y) C0 = Cscal (/ INR (length y)) (dft_coeff 1 y j).
Proof.
  intros Hj. unfold idft, dft. rewrite map_map. now rewrite nth_map_seq.
Qed.

(** Sample [j] of the inverse transform of the product of the transforms of
    [f] and [g] is the sum of the products [f_l * g_m] over the pairs with
    [l + m] congruent to [j]: the circular convolution of [f] and [g]. *)
Lemma spectral_nth (f g : list C) (j : nat) :
  length f = length g -> (j < length f)%nat ->
  nth j (idft (map2 Cmult (dft (-1) f) (dft (-1) g))) C0
  = Csum (map (fun l =>
                 Csum (map (fun m =>
                              if cyclic (length f) j l m
                              then Cmult (nth l f C0) (nth m g C0)
                              else C0)
                         (seq 0 (length f))))
            (seq 0 (length f))).
Proof.
  intros Hfg Hj. set (n := length f) in *.
  assert (Hn : n <> O) by lia.
  assert (Hn0 : INR n <> 0%R) by now apply not_0_INR.
  assert (Hy : length (map2 Cmult (dft (-1) f) (dft (-1) g)) = n).
  { rewrite map2_length, !dft_length. fold n. rewrite <- Hfg. fold n. lia. }
  rewrite nth_idft by (rewrite Hy; exact Hj). rewrite Hy.
  unfold dft_coeff at 1. rewrite Hy.
  rewrite (Csum_ext_in _
     (fun k => Csum (map (fun l => Csum (map (fun m =>
         Cmult (Cmult (Cmult (nth l f C0) (twiddle (-1) n (l * k)))
                  (Cmult (nth m g C0) (twiddle (-1) n (m * k))))
           (twiddle 1 n (k * j))) (seq 0 n))) (seq 0 n)))).
  2:{ intros k Hk. apply in_seq in Hk.
      rewrite (nth_map2 _ _ _ _ C0 C0)
        by (rewrite dft_length; fold n; try rewrite <- Hfg; fold n; lia).
      rewrite !nth_dft by (fold n; try rewrite <- Hfg; fold n; lia).
      unfold dft_coeff. rewrite <- Hfg. fold n. apply Csum_triple. }
  rewrite Csum_exchange.
  rewrite Cscal_Csum. apply Csum_ext_in. intros l _.
  rewrite Csum_exchange.
  rewrite Cscal_Csum. apply Csum_ext_in. intros m _.
  rewrite (Csum_ext_in _
     (fun k => Cmult (Cmult (nth l f C0) (nth m g C0))
                 (Cmult (Cmult (twiddle (-1) n (l * k))
                           (twiddle (-1) n (m * k)))
                    (twiddle 1 n (k * j))))).
  2:{ intros k _. apply Cmult_shuffle. }
  rewrite <- Csum_mult_l, twiddle_triple_sum by exact Hn.
  destruct (cyclic n j l m).
  - destruct (Cmult (nth l f C0) (nth m g C0)) as [u v].
    unfold Cscal, Cmult. cbn [fst snd]. f_equal; field; exact Hn0.
  - now rewrite Cmult_C0_r, Cscal_C0.
Qed.

(** ** Circular and linear convolution *)

(** The circular convolution of two sequences of one length [n]:
    [c_j = sum_l f_l * g_((j - l) mod n)]. *)
Definition circular_convolution (f g : list C) : list C :=
  let n := length f in
  map (fun j =>
         Csum (map (fun l => Cmult (nth l f C0) (nth ((j + n - l) mod n) g C0))
                 (seq 0 n)))
    (seq 0 n).

(** The linear convolution of two sequences:
    [c_j = sum_(l <= j) a_l * b_(j - l)], for [j < |a| + |b| - 1]. *)
Definition linear_convolution (a b : list C) : list C :=
  map (fun j =>
         Csum (map (fun l => Cmult (nth l a C0) (nth (j - l) b C0))
                 (seq 0 (S j))))
    (seq 0 (length a + length b - 1)).

Lemma cyclic_eqb (n j l m : nat) :
  (j < n)%nat -> (l < n)%nat -> (m < n)%nat ->
  cyclic n j l m = Nat.eqb ((j + n - l) mod n) m.
Proof.
  intros Hj Hl Hm. unfold cyclic.
  assert (Hn : (n <> 0)%nat) by lia.
  pose proof (Nat.mod_upper_bound (j + n - l) n Hn) as Hb.
  pose proof (Nat.div_mod (j + n - l) n Hn) as Hd.
  set (q := ((j + n - l) / n)%nat) in *.
  set (r := ((j + n - l) mod n)%nat) in *.
  assert (HdZ : Z.of_nat j + Z.of_nat n - Z.of_nat l
                = Z.of_nat n * Z.of_nat q + Z.of_nat r) by lia.
  destruct (Nat.eqb_spec r m) as [E|E].
  - apply Z.eqb_eq. subst m.
    replace (Z.of_nat j - Z.of_nat l - Z.of_nat r)
      with ((Z.of_nat q - 1) * Z.of_nat n) by lia.
    apply Z_mod_mult.
  - apply Z.eqb_neq. intros H.
    apply Z.mod_divide in H; [|lia]. destruct H as [c Hc].
    assert (Hrm : Z.of_nat r - Z.of_nat m = (c + 1 - Z.of_nat q) * Z.of_nat n)
      by lia.
    assert (Habs : Z.abs (Z.of_nat r - Z.of_nat m) < Z.of_nat n) by lia.
    assert (Hz : c + 1 - Z.of_nat q = 0) by nia.
    rewrite Hz in Hrm. lia.
Qed.

Lemma Csum_pick (h : nat -> C) (t n : nat) :
  (t < n)%nat ->
  Csum (map (fun m => if Nat.eqb t m then h m else C0) (seq 0 n)) = h t.
Proof.
  intros Ht.
  rewrite (Csum_ext_in _
             (fun m => Cmult (h m) (if Nat.eqb t m then Cone else C0))).
  - rewrite Csum_delta.
    destruct (Nat.leb_spec 0 t); [|lia].
    destruct (Nat.ltb_spec t (0 + n)); [|lia]. cbn [andb].
    apply Cmult_Cone_r.
  - intros m _. destruct (Nat.eqb t m);
      [now rewrite Cmult_Cone_r | now rewrite Cmult_C0_r].
Qed.

Lemma spectral_circular (f g : list C) :
  length f = length g ->
  idft (map2 Cmult (dft (-1) f) (dft (-1) g)) = circular_convolution f g.
Proof.
  intros Hfg. set (n := length f).
  assert (Hy : length (map2 Cmult (dft (-1) f) (dft (-1) g)) = n).
  { rewrite map2_length, !dft_length. fold n. rewrite <- Hfg. fold n. lia. }
  apply (nth_ext _ _ C0 C0).
  { rewrite idft_length, Hy. unfold circular_convolution.
    now rewrite length_map, length_seq. }
  intros j Hj. rewrite idft_length, Hy in Hj.
  rewrite spectral_nth by assumption. fold n.
  unfold circular_convolution. fold n. rewrite nth_map_seq by exact Hj.
  apply Csum_ext_in. intros l Hl. apply in_seq in Hl.
  assert (Hr : ((j + n - l) mod n < n)%nat)
    by (apply Nat.mod_upper_bound; lia).
  rewrite (Csum_ext_in _
             (fun m => if Nat.eqb ((j + n - l) mod n) m
                       then Cmult (nth l f C0) (nth m g C0) else C0)).
  - now rewrite (Csum_pick (fun m => Cmult (nth l f C0) (nth m g C0))).
  - intros m Hm. apply in_seq in Hm. rewrite cyclic_eqb by lia. reflexivity.
Qed.

Lemma nth_padded (x : list C) (k l : nat) :
  nth l (x ++ repeat C0 k) C0 = nth l x C0.
Proof.
  destruct (Nat.lt_ge_cases l (length x)) as [H|H].
  - now rewrite app_nth1.
  - rewrite app_nth2 by exact H. rewrite nth_repeat.
    now rewrite nth_overflow.
Qed.

Lemma firstn_seq_le (k n : nat) :
  (k <= n)%nat -> forall a : nat, firstn k (seq a n) = seq a k.
Proof.
  revert n. induction k as [|k IH]; intros n Hk a; [reflexivity|].
  destruct n as [|n]; [lia|]. cbn [seq firstn]. f_equal. apply IH. lia.
Qed.

(** Over enough points, the circular convolution of two zero-padded
    sequences starts with their linear convolution. *)
Lemma circular_padded_linear (a b : list C) (ka kb : nat) :
  a <> [] -> b <> [] ->
  (length a + ka = length b + kb)%nat ->
  (length a + length b - 1 <= length a + ka)%nat ->
  firstn (length a + length b - 1)
    (circular_convolution (a ++ repeat C0 ka) (b ++ repeat C0 kb))
  = linear_convolution a b.
Proof.
  intros Ha Hb Hlen Hn.
  assert (Ha0 : (0 < length a)%nat) by (destruct a; [congruence | cbn; lia]).
  assert (Hb0 : (0 < length b)%nat) by (destruct b; [congruence | cbn; lia]).
  set (n := (length a + ka)%nat) in *.
  assert (Hlf : length (a ++ repeat C0 ka) = n)
    by now rewrite length_app, repeat_length.
  unfold circular_convolution, linear_convolution. rewrite Hlf.
  rewrite firstn_map, firstn_seq_le by exact Hn.
  apply map_ext_in. intros j Hj. apply in_seq in Hj.
  assert (Hsplit : seq 0 n = seq 0 (S j) ++ seq (S j) (n - S j)).
  { replace n with (S j + (n - S j))%nat at 1 by lia. apply seq_app. }
  rewrite Hsplit, map_app, Csum_app.
  rewrite (Csum_zeros (map _ (seq (S j) (n - S j)))).
  - rewrite Cplus_C0_r. apply Csum_ext_in. intros l Hl. apply in_seq in Hl.
    rewrite !nth_padded.
    replace ((j + n - l) mod n)%nat with (j - l)%nat; [reflexivity|].
    replace (j + n - l)%nat with ((j - l) + 1 * n)%nat by lia.
    rewrite Nat.Div0.mod_add. symmetry. apply Nat.mod_small. lia.
  - apply Forall_map, Forall_forall. intros l Hl. apply in_seq in Hl.
    rewrite !nth_padded.
    rewrite (Nat.mod_small (j + n - l) n) by lia.
    destruct (Nat.lt_ge_cases l (length a)) as [H|H].
    + rewrite (nth_overflow b) by lia. symmetry. apply Cmult_C0_r.
    + rewrite (nth_overflow a) by lia. symmetry. apply Cmult_C0_l.
Qed.

Lemma spectral_product_circular (f g : ndarray) :
  size f = size g ->
  spectral_product f g
  = Complex128 (circular_convolution (as_complex128 f) (as_complex128 g)).
Proof.
  intros H. unfold spectral_product. f_equal. apply spectral_circular.
  now rewrite !size_as_complex128.
Qed.

(** On two non-empty waveforms of one rate, [a ** b] is the linear
    convolution of the two sample sequences:
    sample [j] is the sum of [a_l * b_(j - l)] over [l <= j]. *)
Theorem pow_is_linear_convolution (w : world) (a b : ref) (oa ob : SoundWave) :
  obj w a = Some oa -> obj w b = Some ob ->
  rate oa = rate ob ->
  1 <= len (samples oa) -> 1 <= len (samples ob) ->
  exists (r : ref) (w' : world),
    __pow__ a b w = (Ok r, w') /\
    obj w' r
    = Some {| rate := rate oa;
              samples := Complex128
                           (linear_convolution (as_complex128 (samples oa))
                              (as_complex128 (samples ob))) |}.
Proof.
  intros Ha Hb Hr Hm Hn.
  pose proof (pow_run w a b oa ob Ha Hb Hr Hm Hn) as Hrun. cbv zeta in Hrun.
  set (m := len (samples oa)) in *. set (n := len (samples ob)) in *.
  set (p := 2 ^ Z.log2_up (n + m - 1)) in *.
  assert (Hp : n + m - 1 <= p) by (apply log2_up_pow2_ge; lia).
  set (fa := as_complex128 (samples oa)).
  set (gb := as_complex128 (samples ob)).
  assert (Hfa : Z.of_nat (length fa) = m)
    by (unfold fa; now rewrite size_as_complex128).
  assert (Hgb : Z.of_nat (length gb) = n)
    by (unfold gb; now rewrite size_as_complex128).
  assert (Hconv :
    getitem_slice_to
      (spectral_product (pad_zeros (samples oa) (Z.to_nat (p - m)))
         (pad_zeros (samples ob) (Z.to_nat (p - n))))
      (m + n - 1)
    = Complex128 (linear_convolution fa gb)).
  { rewrite spectral_product_circular
      by (rewrite !size_pad_zeros; unfold m, n, len in *; lia).
    rewrite !as_complex128_pad_zeros. fold fa gb.
    unfold getitem_slice_to, slice_index, len. cbn [size].
    unfold circular_convolution at 1 2.
    rewrite length_map, length_seq, length_app, repeat_length.
    destruct (Z.ltb_spec (m + n - 1) 0); [lia|].
    rewrite Z.min_l by lia.
    replace (Z.to_nat (m + n - 1)) with (length fa + length gb - 1)%nat
      by lia.
    f_equal. apply circular_padded_linear.
    - intros E. rewrite E in Hfa. cbn in Hfa. lia.
    - intros E. rewrite E in Hgb. cbn in Hgb. lia.
    - lia.
    - lia. }
  rewrite Hconv in Hrun.
  eexists _, _. split; [rewrite Hrun; reflexivity | apply new_SoundWave_new].
Qed.

Lemma pow_is_linear_convolution_witness :
  exists (r : ref) (w' : world),
    __pow__ 0%nat 1%nat w_pow = (Ok r, w') /\
    obj w' r
    = Some {| rate := 8000;
              samples := Complex128
                           (linear_convolution
                              (as_complex128 (Int16 [1; 2; 3]))
                              (as_complex128 (Float64 [1%R; 1%R; 1%R]))) |}.
Proof.
  assert (H3 : 1 <= 3) by lia.
  exact (pow_is_linear_convolution w_pow 0%nat 1%nat
           {| rate := 8000; samples := Int16 [1; 2; 3] |}
           {| rate := 8000; samples := Float64 [1%R; 1%R; 1%R] |}
           eq_refl eq_refl eq_refl H3 H3).
Defined.

(** On two waveforms of one rate, the left one not longer than the right
    one (and the right one not empty), [a * b] is the circular convolution,
    over [len b] points, of [a] padded with zeros and [b]:
    sample [j] is the sum of [a_l * b_((j - l) mod len b)]. *)
Theorem mul_is_circular_convolution (w : world) (a b : ref)
  (oa ob : SoundWave) :
  obj w a = Some oa -> obj w b = Some ob ->
  rate oa = rate ob ->
  len (samples oa) <= len (samples ob) -> 1 <= len (samples ob) ->
  exists (r : ref) (w' : world),
    __mul__ a b w = (Ok r, w') /\
    obj w' r
    = Some {| rate := rate oa;
              samples :=
                Complex128
                  (circular_convolution
                     (as_complex128 (samples oa)
                      ++ repeat C0 (size (samples ob) - size (samples oa)))
                     (as_complex128 (samples ob))) |}.
Proof.
  intros Ha Hb Hr Hle Hn.
  assert (Hpos : (0 < size (samples oa) + size (samples ob))%nat)
    by (unfold len in *; lia).
  pose proof (mul_run w a b oa ob Ha Hb Hr Hpos) as Hrun. cbv zeta in Hrun.
  assert (Hka : Z.to_nat (Z.abs (len (samples ob) - len (samples oa)))
                = (size (samples ob) - size (samples oa))%nat)
    by (unfold len in *; lia).
  rewrite Hka in Hrun.
  assert (Hkb : Z.to_nat
                  (Z.abs (len (pad_zeros (samples oa)
                                 (size (samples ob) - size (samples oa)))
                          - len (samples ob))) = O).
  { unfold len in *. rewrite size_pad_zeros. lia. }
  rewrite Hkb in Hrun.
  rewrite spectral_product_circular in Hrun
    by (rewrite !size_pad_zeros; unfold len in *; lia).
  rewrite !as_complex128_pad_zeros in Hrun. cbn [repeat] in Hrun.
  rewrite app_nil_r in Hrun.
  eexists _, _. split; [rewrite Hrun; reflexivity | apply new_SoundWave_new].
Qed.

Lemma mul_is_circular_convolution_witness :
  exists (r : ref) (w' : world),
    __mul__ 1%nat 0%nat w_pow2 = (Ok r, w') /\
    obj w' r
    = Some {| rate := 8000;
              samples :=
                Complex128
                  (circular_convolution
                     (as_complex128 (Float64 [1%R]) ++ repeat C0 2)
                     (as_complex128 (Int16 [1; 2; 3]))) |}.
Proof.
  assert (H13 : 1 <= 3) by lia.
  exact (mul_is_circular_convolution w_pow2 1%nat 0%nat
           {| rate := 8000; samples := Float64 [1%R] |}
           {| rate := 8000; samples := Int16 [1; 2; 3] |}
           eq_refl eq_refl eq_refl H13 H13).
Defined.

(** ** Filtering twice *)

Lemma twiddle_pair' (n j l k : nat) :
  n <> O ->
  Cmult (twiddle 1 n (l * k)) (twiddle (-1) n (k * j))
  = cis (INR k * root_angle n l j).
Proof.
  intros Hn. rewrite twiddle_neg, twiddle_pos, cis_mult, !mult_INR.
  f_equal. unfold root_angle. field. now apply not_0_INR.
Qed.

(** The forward transform of the inverse transform of a sequence is the
    sequence. *)
Lemma dft_idft (y : list C) : dft (-1) (idft y) = y.
Proof.
  set (n := length y).
  assert (Hlen : length (idft y) = n) by apply idft_length.
  apply (nth_ext _ _ C0 C0); [now rewrite dft_length|].
  intros j Hj. rewrite dft_length, Hlen in Hj.
  assert (Hn : n <> O) by lia.
  assert (Hn0 : INR n <> 0%R) by now apply not_0_INR.
  rewrite nth_dft by (rewrite Hlen; exact Hj).
  unfold dft_coeff. rewrite Hlen.
  rewrite (Csum_ext_in _
     (fun k => Csum (map (fun l =>
         Cmult (Cscal (/ INR n) (nth l y C0))
           (Cmult (twiddle 1 n (l * k)) (twiddle (-1) n (k * j))))
       (seq 0 n)))).
  2:{ intros k Hk. apply in_seq in Hk.
      rewrite nth_idft by (fold n; lia). fold n.
      unfold dft_coeff. fold n.
      rewrite Cscal_Csum, Csum_mult_r. apply Csum_ext_in. intros l _.
      unfold Cscal, Cmult. cbn [fst snd]. f_equal; ring. }
  rewrite Csum_exchange.
  rewrite (Csum_ext_in _
     (fun l => Cmult (Cscal (/ INR n) (nth l y C0))
                 (if Nat.eqb j l then (INR n, 0%R) else C0))).
  2:{ intros l Hl. apply in_seq in Hl.
      rewrite <- Csum_mult_l. f_equal.
      rewrite (Csum_ext_in _ (fun k => cis (INR k * root_angle n l j))).
      - rewrite cis_sum by lia. rewrite (Nat.eqb_sym l j). reflexivity.
      - intros k _. now apply twiddle_pair'. }
  rewrite (Csum_delta (fun l => Cscal (/ INR n) (nth l y C0))).
  destruct (Nat.leb_spec 0 j); [|lia].
  destruct (Nat.ltb_spec j (0 + n)); [|lia]. cbn [andb].
  destruct (nth j y C0) as [u v]. unfold Cscal, Cmult. cbn [fst snd].
  f_equal; field; exact Hn0.
Qed.

Lemma fill_range_absorb {A : Type} (z : A) (a b c d : Z) (l : list A) :
  forall i : Z,
    fill_range z a b i (fill_range z c d i (fill_range z a b i l))
    = fill_range z c d i (fill_range z a b i l).
Proof.
  induction l as [|x l IH]; intros i; cbn [fill_range]; [reflexivity|].
  rewrite IH.
  destruct ((a <=? i) && (i <? b)), ((c <=? i) && (i <? d)); reflexivity.
Qed.

(** The two slice assignments of [clean], on a complex spectrum. *)
Definition clear_band (x : list C) (kl kh : Z) : list C :=
  let n := Z.of_nat (length x) in
  fill_range C0 (slice_index n (n - kh)) (slice_index n (n - kl)) 0
    (fill_range C0 (slice_index n kl) (slice_index n kh) 0 x).

Lemma clear_band_spec (x : list C) (kl kh : Z) :
  setitem_slice_zero (setitem_slice_zero (Complex128 x) kl kh)
    (Z.of_nat (length x) - kh) (Z.of_nat (length x) - kl)
  = Complex128 (clear_band x kl kh).
Proof.
  unfold setitem_slice_zero, clear_band, len. cbn [size].
  now rewrite fill_range_length.
Qed.

Lemma clear_band_length (x : list C) (kl kh : Z) :
  length (clear_band x kl kh) = length x.
Proof. unfold clear_band. now rewrite !fill_range_length. Qed.

Lemma clear_band_idempotent (x : list C) (kl kh : Z) :
  clear_band (clear_band x kl kh) kl kh = clear_band x kl kh.
Proof.
  unfold clear_band at 1. rewrite clear_band_length.
  unfold clear_band. rewrite fill_range_absorb.
  apply fill_range_absorb.
Qed.

Lemma update_update {A : Type} (l : list A) (i : nat) (x y : A) :
  update (update l i x) i y = update l i y.
Proof.
  revert i. induction l as [|z l IH]; intros [|i]; cbn [update]; auto.
  now rewrite IH.
Qed.

Lemma clean_run_band (w : world) (self : ref) (o : SoundWave)
  (low high : float64) (kl kh : Z) :
  obj w self = Some o -> size (samples o) <> O ->
  freq_bin low (len (samples o)) (rate o) = Ok kl ->
  freq_bin high (len (samples o)) (rate o) = Ok kh ->
  clean self low high w
  = (Ok tt,
     {| heap := update (heap w) self
                  {| rate := rate o;
                     samples :=
                       Complex128
                         (idft (clear_band
                                  (dft (-1) (as_complex128 (samples o)))
                                  kl kh)) |};
        files := files w |}).
Proof.
  intros Ho Hsz Hkl Hkh.
  rewrite (clean_run w self o low high kl kh Ho Hsz Hkl Hkh). cbv zeta.
  assert (Hlen : len (samples o)
                 = Z.of_nat (length (dft (-1) (as_complex128 (samples o))))).
  { unfold len. now rewrite dft_length, size_as_complex128. }
  rewrite Hlen, clear_band_spec. cbn [as_complex128].
  now apply setattr_samples_run.
Qed.

(** With sample values over the reals (the program returns them up to
    binary64 rounding), filtering a second time with the same band changes
    nothing more: the second [clean] succeeds and leaves the state the first
    one produced. *)
Theorem clean_idempotent (w w1 : world) (self : ref) (o : SoundWave)
  (low high : float64) :
  obj w self = Some o ->
  clean self low high w = (Ok tt, w1) ->
  clean self low high w1 = (Ok tt, w1).
Proof.
  intros Ho Hrun.
  assert (Hlt : (self < length (heap w))%nat) by (eapply obj_some_lt; eauto).
  pose proof Hrun as Hrun0.
  rewrite (clean_unfold w self o low high Ho) in Hrun0.
  destruct (freq_bin low _ _) as [kl|e] eqn:Hkl; [|discriminate Hrun0].
  destruct (freq_bin high _ _) as [kh|e] eqn:Hkh; [|discriminate Hrun0].
  assert (Hsz : size (samples o) <> O).
  { intros E. unfold fft in Hrun0. rewrite E in Hrun0. discriminate Hrun0. }
  clear Hrun0.
  rewrite (clean_run_band w self o low high kl kh Ho Hsz Hkl Hkh) in Hrun.
  injection Hrun as <-.
  set (X := dft (-1) (as_complex128 (samples o))).
  set (o1 := {| rate := rate o;
                samples := Complex128 (idft (clear_band X kl kh)) |}).
  set (w1 := {| heap := update (heap w) self o1; files := files w |}).
  assert (Ho1 : obj w1 self = Some o1).
  { unfold obj, w1. cbn [heap]. now apply nth_error_update_same. }
  assert (Hlen1 : len (samples o1) = len (samples o)).
  { unfold len, o1. cbn [samples size].
    rewrite idft_length, clear_band_length. unfold X.
    now rewrite dft_length, size_as_complex128. }
  assert (Hsz1 : size (samples o1) <> O) by (unfold len in Hlen1; lia).
  rewrite (clean_run_band w1 self o1 low high kl kh Ho1 Hsz1).
  - unfold w1 at 1 2. cbn [heap files]. unfold w1. f_equal. f_equal.
    rewrite update_update. f_equal. unfold o1. cbn [rate samples].
    do 3 f_equal. cbn [as_complex128].
    rewrite dft_idft. apply clear_band_idempotent.
  - rewrite Hlen1. exact Hkl.
  - rewrite Hlen1. exact Hkh.
Qed.

Definition w_four : world :=
  {| heap := [ {| rate := 44100; samples := Int16 [1; 2; 3; 4] |} ];
     files := [] |}.

Lemma clean_idempotent_witness :
  clean 0%nat (py_float 0) (py_float 12000)
    {| heap := [ {| rate := 44100;
                    samples :=
                      Complex128
                        (idft (clear_band
                                 (dft (-1) (as_complex128 (Int16 [1; 2; 3; 4])))
                                 0 1)) |} ];
       files := [] |}
  = (Ok tt,
     {| heap := [ {| rate := 44100;
                     samples :=
                       Complex128
                         (idft (clear_band
                                  (dft (-1)
                                     (as_complex128 (Int16 [1; 2; 3; 4])))
                                  0 1)) |} ];
        files := [] |}).
Proof.
  assert (Hkl : freq_bin (py_float 0) 4 44100 = Ok 0)
    by (vm_compute; reflexivity).
  assert (Hkh : freq_bin (py_float 12000) 4 44100 = Ok 1)
    by (vm_compute; reflexivity).
  assert (Hsz : size (Int16 [1; 2; 3; 4]) <> O) by discriminate.
  exact (clean_idempotent w_four _ 0%nat
           {| rate := 44100; samples := Int16 [1; 2; 3; 4] |}
           (py_float 0) (py_float 12000) eq_refl
           (clean_run_band w_four 0%nat
              {| rate := 44100; samples := Int16 [1; 2; 3; 4] |}
              (py_float 0) (py_float 12000) 0 1 eq_refl Hsz Hkl Hkh)).
Defined.

Example linear_convolution_two_by_two :
  linear_convolution [RtoC 1; RtoC 2] [RtoC 1; RtoC 1]
  = [RtoC 1; RtoC 3; RtoC 2].
Proof.
  unfold linear_convolution. cbn [length Nat.add Nat.sub seq map nth].
  unfold Csum, Cmult, Cplus, RtoC, C0. cbn [fold_right fst snd].
  repeat (f_equal; try ring).
Qed.

Example circular_convolution_two_by_two :
  circular_convolution [RtoC 1; RtoC 2] [RtoC 1; RtoC 1]
  = [RtoC 3; RtoC 3].
Proof.
  unfold circular_convolution.
  cbn [length Nat.add Nat.sub Nat.modulo Nat.divmod fst snd seq map nth].
  unfold Csum, Cmult, Cplus, RtoC, C0. cbn [fold_right fst snd].
  repeat (f_equal; try ring).
Qed.
